(** * A shallow embedding of [advanced-vector/vector.h]

    [RawMemory<T>] owns a block of raw, uninitialised slots; [Vector<T>] keeps
    the first [size_] slots of its block alive.  The embedding keeps the
    memory explicit: a heap of blocks addressed by a base address, pointers
    made of a base and a slot offset, and a slot that is either
    uninitialised or holds a live object.  The special member functions of
    the element type are observable events that may throw, so that the
    exception paths of the container can be followed step by step.

    Modelling conventions.
    - [size_t] is [nat].  The size of a live vector, and twice that size,
      are taken to fit [size_t], as the elements occupy memory.  A count
      the caller chooses ([Vector(size)], [Reserve], [Resize],
      [RawMemory(capacity)]) need not: the source computes
      [n * sizeof(T)] in wrapping [size_t], and the model follows it only
      where that product fits, [count_fits n]; statements about such a
      count carry [count_fits] as a hypothesis.  The one place where the
      source subtracts below zero ([size_ - 1] on an empty vector) is
      undefined behaviour here.
    - An argument forwarded to a constructor of [T] is built from values,
      a [const T&] to an object in memory, or a [T&&] to a temporary; an
      rvalue reference to a live object in the modelled memory, which the
      constructor would leave moved-from, is not among the arguments.
    - The exception specification of [Erase] is not modelled: where the
      source would call [std::terminate], the exception is reported as
      thrown.
    - A failed [assert], an access outside a block or to a slot that holds no
      object, and freeing a block twice are undefined behaviour ([UB]).
    - Copy and move construction and assignment give the target the value of
      the source; a moved-from object is left holding [moved_from x]. *)

From stdpp Require Import base option list gmap fin_maps.
From Stdlib Require Import Lia.

(** ** The element type *)

(** Calls that reach the environment: [operator new] and the special member
    functions of [T], with the values they are applied to. *)
Inductive event (T CArgs : Type) : Type :=
  | EvAlloc (n : nat)
  | EvValueCtor
  | EvCtor (a : CArgs)
  | EvCopyCtor (x : T)
  | EvMoveCtor (x : T)
  | EvCopyAssign (dst src : T)
  | EvMoveAssign (dst src : T)
  | EvDtor (x : T).
Arguments EvAlloc {T CArgs} n.
Arguments EvValueCtor {T CArgs}.
Arguments EvCtor {T CArgs} a.
Arguments EvCopyCtor {T CArgs} x.
Arguments EvMoveCtor {T CArgs} x.
Arguments EvCopyAssign {T CArgs} dst src.
Arguments EvMoveAssign {T CArgs} dst src.
Arguments EvDtor {T CArgs} x.

(** What the container knows about [T]: its values, the state left in a
    moved-from object, the three traits the source dispatches on, and
    [react], which says for each call how the environment changes and
    whether the call throws; [sizeof_T] is [sizeof(T)] and [SIZE_MAX] the
    largest [size_t]. *)
Class ElemType : Type := {
  T : Type;
  CArgs : Type;
  Env : Type;
  sizeof_T : N;
  SIZE_MAX : N;
  value_init : T;
  construct : CArgs → T;
  moved_from : T → T;
  react : event T CArgs → Env → Env * bool;
  is_nothrow_move_constructible : bool;
  is_copy_constructible : bool;
  is_nothrow_move_assignable : bool;
  nothrow_move_ctor_sound :
    is_nothrow_move_constructible = true →
    ∀ x e, (react (EvMoveCtor x) e).2 = false;
  nothrow_move_assign_sound :
    is_nothrow_move_assignable = true →
    ∀ y x e, (react (EvMoveAssign y x) e).2 = false;
}.

(** [n * sizeof(T)] does not wrap in [size_t]. *)
Definition count_fits `{ElemType} (n : nat) : Prop :=
  (N.of_nat n * sizeof_T ≤ SIZE_MAX)%N.

(** ** Outcomes and the state monad *)

Inductive res (A : Type) : Type :=
  | Ok (a : A)
  | Throw
  | UB.
Arguments Ok {A} a.
Arguments Throw {A}.
Arguments UB {A}.

Definition StM (S A : Type) : Type := S → res A * S.

Global Instance StM_ret {S} : MRet (StM S) := λ A a s, (Ok a, s).
Global Instance StM_bind {S} : MBind (StM S) := λ A B f m s,
  match m s with
  | (Ok a, s') => f a s'
  | (Throw, s') => (Throw, s')
  | (UB, s') => (UB, s')
  end.

Definition throw {S A} : StM S A := λ s, (Throw, s).
Definition undefined {S A} : StM S A := λ s, (UB, s).

(** [assert(b)] *)
Definition assert {S} (b : bool) : StM S unit :=
  if b then mret () else undefined.

(** [try { body } catch (...) { handler; throw; }], and the destructor of a
    local that runs while an exception leaves its scope. *)
Definition on_throw {S A} (body : StM S A) (handler : StM S unit) : StM S A :=
  λ s, match body s with
       | (Throw, s') =>
           match handler s' with
           | (Ok _, s'') => (Throw, s'')
           | (Throw, s'') => (UB, s'')
           | (UB, s'') => (UB, s'')
           end
       | r => r
       end.

(** ** Memory *)

Record ptr : Type := Ptr { blk : nat; off : nat }.

Global Instance ptr_eq_dec : EqDecision ptr.
Proof. solve_decision. Defined.

Definition nullptr : ptr := Ptr 0 0.

Definition ptr_add (p : ptr) (k : nat) : ptr := Ptr (blk p) (off p + k).
Infix "+ₚ" := ptr_add (at level 50, left associativity).

(** [p <= q] on pointers into the same array. *)
Definition ptr_le (p q : ptr) : bool :=
  bool_decide (blk p = blk q) && bool_decide (off p ≤ off q).

(** A slot of raw memory: [None] is uninitialised, [Some x] a live object. *)
Abbreviation slot := (option T).

Section Container.
Context {E : ElemType}.

Record Mem : Type := MkMem {
  blocks : gmap nat (list slot);
  env : Env;
}.

Definition M (A : Type) : Type := StM Mem A.

(** [p - k] and [p - q]; leaving the array is undefined. *)
Definition ptr_back (p : ptr) (k : nat) : M ptr :=
  if decide (k ≤ off p) then mret (Ptr (blk p) (off p - k)) else undefined.

Definition ptr_diff (p q : ptr) : M nat :=
  if decide (blk p = blk q ∧ off q ≤ off p) then mret (off p - off q)
  else undefined.

(** A call of the environment that may throw, and one that is [noexcept]. *)
Definition fire (ev : event T CArgs) : M unit := λ m,
  let '(e', thrown) := react ev (env m) in
  (if thrown then Throw else Ok (), MkMem (blocks m) e').

Definition fire_noexcept (ev : event T CArgs) : M unit := λ m,
  (Ok (), MkMem (blocks m) (react ev (env m)).1).

Definition slot_at (p : ptr) (m : Mem) : option slot :=
  blocks m !! blk p ≫= (.!! off p).

(** Read the object at [p]. *)
Definition load (p : ptr) : M T := λ m,
  match slot_at p m with
  | Some (Some x) => (Ok x, m)
  | _ => (UB, m)
  end.

Definition write_slot (p : ptr) (s : slot) : M unit := λ m,
  match blocks m !! blk p with
  | Some l =>
      if decide (off p < length l)
      then (Ok (), MkMem (<[blk p := <[off p := s]> l]> (blocks m)) (env m))
      else (UB, m)
  | None => (UB, m)
  end.

(** Start the lifetime of an object in raw storage; overwrite a live object;
    end a lifetime. *)
Definition place (p : ptr) (x : T) : M unit := write_slot p (Some x).
Definition store (p : ptr) (x : T) : M unit := load p ;; write_slot p (Some x).
Definition kill (p : ptr) : M unit := load p ;; write_slot p None.

(** *** [operator new] and [operator delete] *)

(** A successful [operator new]: a block of [n] uninitialised slots at an
    address that is neither null nor in use. *)
Definition new_block (n : nat) : M nat := λ m,
  let a := fresh (dom (blocks m) ∪ {[0]}) in
  (Ok a, MkMem (<[a := replicate n None]> (blocks m)) (env m)).

(** [RawMemory<T>::Allocate].  The source asks [operator new] for
    [n * sizeof(T)] bytes, a product in [size_t]: this is the source for
    [count_fits n], and only then is the block one of [n] slots. *)
Definition Allocate (n : nat) : M nat :=
  if decide (n ≠ 0) then fire (EvAlloc n) ;; new_block n else mret 0.

(** [RawMemory<T>::Deallocate] *)
Definition Deallocate (buf : nat) : M unit := λ m,
  if decide (buf = 0) then (Ok (), m)
  else match blocks m !! buf with
       | Some _ => (Ok (), MkMem (delete buf (blocks m)) (env m))
       | None => (UB, m)
       end.

(** ** Special member functions of [T] *)

(** [new (dst) T(src)] with [src] an lvalue *)
Definition T_copy_construct (dst src : ptr) : M unit :=
  x ← load src; fire (EvCopyCtor x) ;; place dst x.

(** [new (dst) T(std::move(src))] *)
Definition T_move_construct (dst src : ptr) : M unit :=
  x ← load src; fire (EvMoveCtor x) ;; place dst x ;; store src (moved_from x).

(** [new (dst) T()] *)
Definition T_value_construct (dst : ptr) : M unit :=
  fire EvValueCtor ;; place dst value_init.

(** [*dst = *src] *)
Definition T_copy_assign (dst src : ptr) : M unit :=
  x ← load src; y ← load dst; fire (EvCopyAssign y x) ;; store dst x.

(** [*dst = std::move(src[0])], on the objects the pointers address *)
Definition T_move_assign (dst src : ptr) : M unit :=
  x ← load src; y ← load dst;
  fire (EvMoveAssign y x) ;; store dst x ;; store src (moved_from x).

(** [std::destroy_at(p)] *)
Definition T_destroy (p : ptr) : M unit :=
  x ← load p; fire_noexcept (EvDtor x) ;; kill p.

(** The arguments [vs...] forwarded to a constructor of [T].  A [T&&] to
    a live object in the modelled memory is not among them. *)
Inductive args : Type :=
  | ByArgs (a : CArgs)    (* some other constructor, arguments by value *)
  | ByLvalue (p : ptr)    (* [const T&] to the object at [p]: copy constructor *)
  | ByRvalue (x : T).     (* [T&&] to a temporary holding [x], whose storage
                             is outside the modelled memory: move constructor *)

(** The value of [T(std::forward<Ts>(vs)...)]. *)
Definition T_make (vs : args) : M T :=
  match vs with
  | ByArgs a => fire (EvCtor a) ;; mret (construct a)
  | ByLvalue p => x ← load p; fire (EvCopyCtor x) ;; mret x
  | ByRvalue x => fire (EvMoveCtor x) ;; mret x
  end.

(** [new (dst) T(std::forward<Ts>(vs)...)] *)
Definition T_construct (dst : ptr) (vs : args) : M unit :=
  x ← T_make vs; place dst x.

(** [*dst = std::move(buffer)] for a local [buffer] holding [x] *)
Definition T_move_assign_local (dst : ptr) (x : T) : M unit :=
  y ← load dst; fire (EvMoveAssign y x) ;; store dst x.

(** ** The algorithms of [<memory>] and [<algorithm>] the source calls *)

(** [std::destroy_n(first, n)] *)
Fixpoint destroy_n (first : ptr) (n : nat) : M unit :=
  match n with
  | 0 => mret ()
  | S n' => T_destroy first ;; destroy_n (first +ₚ 1) n'
  end.

(** The loop of [std::uninitialized_copy_n]: [k] objects are built in
    [d_first, d_first + k) so far; a throwing copy destroys them and
    rethrows. *)
Fixpoint uninitialized_copy_loop (first : ptr) (n : nat) (d_first : ptr)
    (k : nat) : M unit :=
  match n with
  | 0 => mret ()
  | S n' =>
      on_throw (T_copy_construct (d_first +ₚ k) first) (destroy_n d_first k) ;;
      uninitialized_copy_loop (first +ₚ 1) n' d_first (S k)
  end.

Definition uninitialized_copy_n (first : ptr) (n : nat) (d_first : ptr)
    : M unit :=
  uninitialized_copy_loop first n d_first 0.

(** [std::uninitialized_copy(first, last, d_first)] *)
Definition uninitialized_copy (first last d_first : ptr) : M unit :=
  n ← ptr_diff last first; uninitialized_copy_n first n d_first.

Fixpoint uninitialized_move_loop (first : ptr) (n : nat) (d_first : ptr)
    (k : nat) : M unit :=
  match n with
  | 0 => mret ()
  | S n' =>
      on_throw (T_move_construct (d_first +ₚ k) first) (destroy_n d_first k) ;;
      uninitialized_move_loop (first +ₚ 1) n' d_first (S k)
  end.

(** [std::uninitialized_move_n(first, n, d_first)] *)
Definition uninitialized_move_n (first : ptr) (n : nat) (d_first : ptr)
    : M unit :=
  uninitialized_move_loop first n d_first 0.

(** [std::uninitialized_move(first, last, d_first)] *)
Definition uninitialized_move (first last d_first : ptr) : M unit :=
  n ← ptr_diff last first; uninitialized_move_n first n d_first.

Fixpoint uninitialized_value_construct_loop (first : ptr) (n k : nat)
    : M unit :=
  match n with
  | 0 => mret ()
  | S n' =>
      on_throw (T_value_construct (first +ₚ k)) (destroy_n first k) ;;
      uninitialized_value_construct_loop first n' (S k)
  end.

(** [std::uninitialized_value_construct_n(first, n)] *)
Definition uninitialized_value_construct_n (first : ptr) (n : nat) : M unit :=
  uninitialized_value_construct_loop first n 0.

(** [std::copy_n(first, n, result)] *)
Fixpoint copy_n (first : ptr) (n : nat) (result : ptr) : M unit :=
  match n with
  | 0 => mret ()
  | S n' => T_copy_assign result first ;; copy_n (first +ₚ 1) n' (result +ₚ 1)
  end.

(** [std::copy(first, last, d_first)] *)
Definition std_copy (first last d_first : ptr) : M unit :=
  n ← ptr_diff last first; copy_n first n d_first.

Fixpoint move_n (first : ptr) (n : nat) (result : ptr) : M unit :=
  match n with
  | 0 => mret ()
  | S n' => T_move_assign result first ;; move_n (first +ₚ 1) n' (result +ₚ 1)
  end.

(** [std::move(first, last, d_first)] *)
Definition std_move (first last d_first : ptr) : M unit :=
  n ← ptr_diff last first; move_n first n d_first.

(** The loop of [std::move_backward]:
    [while (first != last) { --d_last; --last; d_last[0] = std::move(last[0]); }] *)
Fixpoint move_backward_n (n : nat) (last d_last : ptr) : M unit :=
  match n with
  | 0 => mret ()
  | S n' =>
      last' ← ptr_back last 1;
      d_last' ← ptr_back d_last 1;
      T_move_assign d_last' last' ;;
      move_backward_n n' last' d_last'
  end.

(** [std::move_backward(first, last, d_last)] *)
Definition move_backward (first last d_last : ptr) : M unit :=
  n ← ptr_diff last first; move_backward_n n last d_last.

(** ** [RawMemory<T>] *)

(** [buffer_] is the base address of the owned block, 0 for [nullptr]. *)
Record RawMemory : Type := MkRaw { buffer_ : nat; capacity_ : nat }.

(** [RawMemory() = default] *)
Definition RawMemory_default : RawMemory := MkRaw 0 0.

(** [RawMemory(size_t capacity)] *)
Definition RawMemory_new (capacity : nat) : M RawMemory :=
  b ← Allocate capacity; mret (MkRaw b capacity).

(** [~RawMemory()] *)
Definition RawMemory_delete (r : RawMemory) : M unit :=
  Deallocate (buffer_ r).

(** [RawMemory::Swap], on two distinct objects: the pair after the call. *)
Definition RawMemory_Swap (this other : RawMemory) : RawMemory * RawMemory :=
  (MkRaw (buffer_ other) (capacity_ other), MkRaw (buffer_ this) (capacity_ this)).

(** [RawMemory(RawMemory&& other)]: the new object and [other] afterwards. *)
Definition RawMemory_move (other : RawMemory) : RawMemory * RawMemory :=
  RawMemory_Swap RawMemory_default other.

(** [RawMemory::operator+] *)
Definition RawMemory_plus (r : RawMemory) (offset : nat) : M ptr :=
  assert (bool_decide (offset ≤ capacity_ r)) ;;
  mret (Ptr (buffer_ r) offset).

(** [RawMemory::operator[]], as the address of the slot *)
Definition RawMemory_at (r : RawMemory) (index : nat) : M ptr :=
  assert (bool_decide (index < capacity_ r)) ;;
  mret (Ptr (buffer_ r) index).

Definition GetAddress (r : RawMemory) : ptr := Ptr (buffer_ r) 0.
Definition Capacity (r : RawMemory) : nat := capacity_ r.

(** *** [RawMemory] objects in a store, for the members that take another
    [RawMemory] by reference *)

Record RawWorld : Type := MkRawWorld {
  raws : gmap nat RawMemory;
  rmem : Mem;
}.

(** [RawMemory& operator=(RawMemory&& rhs)] *)
Definition RawMemory_move_assign (this rhs : nat) : StM RawWorld unit := λ w,
  if decide (this ≠ rhs) then
    match raws w !! this, raws w !! rhs with
    | Some a, Some b =>
        match Deallocate (buffer_ a) (rmem w) with
        | (Ok _, m') =>
            let '(a', b') := RawMemory_Swap a b in
            (Ok (), MkRawWorld (<[rhs := b']> (<[this := a']> (raws w))) m')
        | (Throw, m') => (Throw, MkRawWorld (raws w) m')
        | (UB, m') => (UB, MkRawWorld (raws w) m')
        end
    | _, _ => (UB, w)
    end
  else (Ok (), w).

(** [~RawMemory()] of the object at [this] *)
Definition RawMemory_destroy (this : nat) : StM RawWorld unit := λ w,
  match raws w !! this with
  | Some a =>
      match RawMemory_delete a (rmem w) with
      | (Ok _, m') => (Ok (), MkRawWorld (delete this (raws w)) m')
      | (Throw, m') => (Throw, MkRawWorld (raws w) m')
      | (UB, m') => (UB, MkRawWorld (raws w) m')
      end
  | None => (UB, w)
  end.

(** ** [Vector<T>] *)

Record Vector : Type := MkVector { data_ : RawMemory; size_ : nat }.

(** Member functions run on the object [*this] and the memory. *)
Definition VM (A : Type) : Type := StM (Vector * Mem) A.

Definition lift {A} (c : M A) : VM A := λ s,
  let '(r, m') := c s.2 in (r, (s.1, m')).

Definition get_this : VM Vector := λ s, (Ok s.1, s).
Definition set_data (d : RawMemory) : VM unit := λ s,
  (Ok (), (MkVector d (size_ s.1), s.2)).
Definition set_size (n : nat) : VM unit := λ s,
  (Ok (), (MkVector (data_ s.1) n, s.2)).

(** [T] is moved rather than copied between buffers when its move
    constructor cannot throw or it has no copy constructor. *)
Definition relocate_by_move : bool :=
  is_nothrow_move_constructible || negb is_copy_constructible.

(** [Vector() = default] *)
Definition Vector_default : Vector := MkVector RawMemory_default 0.

(** [Vector(size_t size)] *)
Definition Vector_sized (size : nat) : M Vector :=
  data ← RawMemory_new size;
  on_throw (uninitialized_value_construct_n (GetAddress data) size)
           (RawMemory_delete data) ;;
  mret (MkVector data size).

(** [Vector(const Vector& other)] *)
Definition Vector_copy (other : Vector) : M Vector :=
  data ← RawMemory_new (size_ other);
  on_throw (uninitialized_copy_n (GetAddress (data_ other)) (size_ other)
                                 (GetAddress data))
           (RawMemory_delete data) ;;
  mret (MkVector data (size_ other)).

(** [Vector(Vector&& other)]: the new object and [other] afterwards *)
Definition Vector_move (other : Vector) : Vector * Vector :=
  let '(d, od) := RawMemory_move (data_ other) in
  (MkVector d (size_ other), MkVector od 0).

(** [~Vector()], followed by the destructor of the member [data_] *)
Definition Vector_delete (v : Vector) : M unit :=
  destroy_n (GetAddress (data_ v)) (size_ v) ;;
  RawMemory_delete (data_ v).

(** [Vector::Swap], on two distinct objects: the pair after the call *)
Definition Vector_Swap (this other : Vector) : Vector * Vector :=
  let '(d, od) := RawMemory_Swap (data_ this) (data_ other) in
  (MkVector d (size_ other), MkVector od (size_ this)).

Definition Vector_begin : VM ptr :=
  v ← get_this; mret (GetAddress (data_ v)).

Definition Vector_end : VM ptr :=
  v ← get_this; lift (RawMemory_plus (data_ v) (size_ v)).

Definition Size : VM nat := v ← get_this; mret (size_ v).
Definition Vector_Capacity : VM nat := v ← get_this; mret (Capacity (data_ v)).

(** [Vector::operator[]], as the address of the element *)
Definition Vector_at (index : nat) : VM ptr :=
  v ← get_this;
  assert (bool_decide (index < size_ v)) ;;
  lift (RawMemory_at (data_ v) index).

(** [Vector::Reserve] *)
Definition Reserve (new_capacity : nat) : VM unit :=
  v ← get_this;
  if decide (new_capacity ≤ Capacity (data_ v)) then mret ()
  else
    new_data ← lift (RawMemory_new new_capacity);
    lift (on_throw
            (if relocate_by_move
             then uninitialized_move_n (GetAddress (data_ v)) (size_ v)
                                       (GetAddress new_data)
             else uninitialized_copy_n (GetAddress (data_ v)) (size_ v)
                                       (GetAddress new_data))
            (RawMemory_delete new_data)) ;;
    lift (destroy_n (GetAddress (data_ v)) (size_ v)) ;;
    let '(d, nd) := RawMemory_Swap (data_ v) new_data in
    set_data d ;;
    lift (RawMemory_delete nd).

(** [Vector::Resize] *)
Definition Resize (new_size : nat) : VM unit :=
  v ← get_this;
  (if decide (new_size < size_ v) then
     p ← lift (RawMemory_at (data_ v) new_size);
     lift (destroy_n p (size_ v - new_size))
   else if decide (size_ v < new_size) then
     Reserve new_size ;;
     v' ← get_this;
     p ← lift (RawMemory_at (data_ v') (size_ v'));
     lift (uninitialized_value_construct_n p (new_size - size_ v'))
   else mret ()) ;;
  set_size new_size.

(** [Vector::PopBack] *)
Definition PopBack : VM unit :=
  v ← get_this;
  match size_ v with
  | 0 => undefined
  | S k =>
      p ← lift (RawMemory_at (data_ v) k);
      lift (T_destroy p) ;;
      set_size k
  end.

(** The capacity of the buffer that replaces a full one. *)
Definition grown (size : nat) : nat :=
  if decide (size = 0) then 1 else size * 2.

(** [Vector::EmplaceBack], returning the address of the new element *)
Definition EmplaceBack (vs : args) : VM ptr :=
  v ← get_this;
  result ←
    (if decide (size_ v = Capacity (data_ v)) then
       let new_capacity := grown (size_ v) in
       new_data ← lift (RawMemory_new new_capacity);
       result ← lift (on_throw
         (result ← RawMemory_plus new_data (size_ v);
          T_construct result vs ;;
          (if relocate_by_move
           then uninitialized_move_n (GetAddress (data_ v)) (size_ v)
                                     (GetAddress new_data)
           else uninitialized_copy_n (GetAddress (data_ v)) (size_ v)
                                     (GetAddress new_data)) ;;
          mret result)
         (RawMemory_delete new_data));
       lift (destroy_n (GetAddress (data_ v)) (size_ v)) ;;
       let '(d, nd) := RawMemory_Swap (data_ v) new_data in
       set_data d ;;
       lift (RawMemory_delete nd) ;;
       mret result
     else
       result ← lift (RawMemory_plus (data_ v) (size_ v));
       lift (T_construct result vs) ;;
       mret result);
  v' ← get_this;
  set_size (S (size_ v')) ;;
  mret result.

(** [Vector::PushBack] *)
Definition PushBack (value : args) : VM unit :=
  EmplaceBack value ;; mret ().

(** [Vector::Emplace] *)
Definition Emplace (pos : ptr) (vs : args) : VM ptr :=
  b ← Vector_begin;
  e ← Vector_end;
  assert (ptr_le b pos && ptr_le pos e) ;;
  if decide (pos = e) then EmplaceBack vs
  else
    pos_index ← lift (ptr_diff pos b);
    v ← get_this;
    result ←
      (if decide (size_ v = Capacity (data_ v)) then
         let new_capacity := grown (size_ v) in
         new_data ← lift (RawMemory_new new_capacity);
         result ← lift (on_throw
           (result ← RawMemory_plus new_data pos_index;
            T_construct result vs ;;
            (if relocate_by_move then
               uninitialized_move b (b +ₚ pos_index) (GetAddress new_data) ;;
               uninitialized_move (b +ₚ pos_index) e (result +ₚ 1)
             else
               on_throw
                 (uninitialized_copy b (b +ₚ pos_index) (GetAddress new_data))
                 (T_destroy result) ;;
               on_throw
                 (uninitialized_copy (b +ₚ pos_index) e (result +ₚ 1))
                 (destroy_n (GetAddress new_data) (pos_index + 1))) ;;
            mret result)
           (RawMemory_delete new_data));
         lift (destroy_n (GetAddress (data_ v)) (size_ v)) ;;
         let '(d, nd) := RawMemory_Swap (data_ v) new_data in
         set_data d ;;
         lift (RawMemory_delete nd) ;;
         mret result
       else
         lift (
           dst ← RawMemory_plus (data_ v) (size_ v);
           last ← ptr_back e 1;
           T_move_construct dst last ;;
           buffer ← T_make vs;
           on_throw (move_backward (b +ₚ pos_index) last e)
                    (fire_noexcept (EvDtor buffer)) ;;
           target ← RawMemory_plus (data_ v) pos_index;
           on_throw (T_move_assign_local target buffer)
                    (fire_noexcept (EvDtor buffer)) ;;
           result ← RawMemory_plus (data_ v) pos_index;
           fire_noexcept (EvDtor (moved_from buffer)) ;;
           mret result));
    v' ← get_this;
    set_size (S (size_ v')) ;;
    mret result.

(** [Vector::Insert] *)
Definition Insert (pos : ptr) (value : args) : VM ptr := Emplace pos value.

(** [Vector::Erase].  Its [noexcept(std::is_nothrow_move_assignable_v<T>)]
    is not modelled: an exception that would end in [std::terminate] is
    reported as [Throw]. *)
Definition Erase (pos : ptr) : VM ptr :=
  b ← Vector_begin;
  e ← Vector_end;
  assert (ptr_le b pos && ptr_le pos e) ;;
  pos_index ← lift (ptr_diff pos b);
  lift (if relocate_by_move
        then std_move (b +ₚ pos_index +ₚ 1) e (b +ₚ pos_index)
        else std_copy (b +ₚ pos_index +ₚ 1) e (b +ₚ pos_index)) ;;
  last ← lift (ptr_back e 1);
  lift (T_destroy last) ;;
  v ← get_this;
  match size_ v with
  | 0 => undefined
  | S k =>
      set_size k ;;
      b' ← Vector_begin;
      mret (b' +ₚ pos_index)
  end.

(** The body of [Vector& operator=(const Vector& rhs)] under
    [this != &rhs]; [rhs] is only read. *)
Definition copy_assign_body (rhs : Vector) : VM unit :=
  v ← get_this;
  if decide (Capacity (data_ v) < size_ rhs) then
    rhs_copy ← lift (Vector_copy rhs);
    let '(v', rhs_copy') := Vector_Swap v rhs_copy in
    set_data (data_ v') ;;
    set_size (size_ v') ;;
    lift (Vector_delete rhs_copy')
  else
    (if decide (size_ rhs < size_ v) then
       lift (copy_n (GetAddress (data_ rhs)) (size_ rhs)
                    (GetAddress (data_ v))) ;;
       p ← lift (RawMemory_plus (data_ v) (size_ rhs));
       lift (destroy_n p (size_ v - size_ rhs))
     else
       lift (copy_n (GetAddress (data_ rhs)) (size_ v)
                    (GetAddress (data_ v))) ;;
       src ← lift (RawMemory_plus (data_ rhs) (size_ v));
       dst ← lift (RawMemory_plus (data_ v) (size_ v));
       lift (uninitialized_copy_n src (size_ rhs - size_ v) dst)) ;;
    set_size (size_ rhs).

(** ** Vector objects in a store

    Members that take another [Vector] by reference compare and exchange
    objects, so the objects live in a store keyed by their address. *)

Record World : Type := MkWorld {
  objs : gmap nat Vector;
  wmem : Mem;
}.

Definition WM (A : Type) : Type := StM World A.

(** Run a member function on the object at [this]. *)
Definition invoke {A} (this : nat) (body : VM A) : WM A := λ w,
  match objs w !! this with
  | Some v =>
      let '(r, s') := body (v, wmem w) in
      (r, MkWorld (<[this := s'.1]> (objs w)) s'.2)
  | None => (UB, w)
  end.

(** Run a constructor for an object at the unused address [this]. *)
Definition emplace_object (this : nat) (ctor : M Vector) : WM unit := λ w,
  match objs w !! this with
  | Some _ => (UB, w)
  | None =>
      match ctor (wmem w) with
      | (Ok v, m') => (Ok (), MkWorld (<[this := v]> (objs w)) m')
      | (Throw, m') => (Throw, MkWorld (objs w) m')
      | (UB, m') => (UB, MkWorld (objs w) m')
      end
  end.

Definition new_Vector (this : nat) : WM unit :=
  emplace_object this (mret Vector_default).

Definition new_Vector_sized (this size : nat) : WM unit :=
  emplace_object this (Vector_sized size).

Definition new_Vector_copy (this other : nat) : WM unit := λ w,
  match objs w !! other with
  | Some o => emplace_object this (Vector_copy o) w
  | None => (UB, w)
  end.

Definition new_Vector_move (this other : nat) : WM unit := λ w,
  match objs w !! this, objs w !! other with
  | None, Some o =>
      let '(v, o') := Vector_move o in
      (Ok (), MkWorld (<[this := v]> (<[other := o']> (objs w))) (wmem w))
  | _, _ => (UB, w)
  end.

(** [Vector& operator=(const Vector& rhs)] *)
Definition Vector_copy_assign (this rhs : nat) : WM unit := λ w,
  if decide (this ≠ rhs) then
    match objs w !! rhs with
    | Some o => invoke this (copy_assign_body o) w
    | None => (UB, w)
    end
  else (Ok (), w).

(** [Vector& operator=(Vector&& rhs)] *)
Definition Vector_move_assign (this rhs : nat) : WM unit := λ w,
  if decide (this ≠ rhs) then
    match objs w !! this, objs w !! rhs with
    | Some a, Some b =>
        let '(a', b') := Vector_Swap a b in
        (Ok (), MkWorld (<[rhs := b']> (<[this := a']> (objs w))) (wmem w))
    | _, _ => (UB, w)
    end
  else (Ok (), w).

(** [void Swap(Vector& other)]: the two exchanges write [*this] and then
    [other], which leaves an object swapped with itself as it was. *)
Definition Vector_Swap_at (this other : nat) : WM unit := λ w,
  match objs w !! this, objs w !! other with
  | Some a, Some b =>
      let '(a', b') := Vector_Swap a b in
      (Ok (), MkWorld (<[other := b']> (<[this := a']> (objs w))) (wmem w))
  | _, _ => (UB, w)
  end.

Definition delete_Vector (this : nat) : WM unit := λ w,
  match objs w !! this with
  | Some v =>
      match Vector_delete v (wmem w) with
      | (Ok _, m') => (Ok (), MkWorld (delete this (objs w)) m')
      | (Throw, m') => (Throw, MkWorld (objs w) m')
      | (UB, m') => (UB, MkWorld (objs w) m')
      end
  | None => (UB, w)
  end.

(** The public operations, as calls on the store. *)
Inductive call : Type :=
  | CallDefault (this : nat)
  | CallSized (this size : nat)
  | CallCopy (this other : nat)
  | CallMove (this other : nat)
  | CallCopyAssign (this rhs : nat)
  | CallMoveAssign (this rhs : nat)
  | CallDelete (this : nat)
  | CallReserve (this new_capacity : nat)
  | CallResize (this new_size : nat)
  | CallSwap (this other : nat)
  | CallPushBack (this : nat) (value : args)
  | CallPopBack (this : nat)
  | CallEmplaceBack (this : nat) (vs : args)
  | CallEmplace (this index : nat) (vs : args)
  | CallInsert (this index : nat) (value : args)
  | CallErase (this index : nat).

(** Discard the value a call returns. *)
Definition void {S A} (c : StM S A) : StM S unit := c ;; mret ().

(** [begin() + index] of the object at [this] *)
Definition iterator_at (this index : nat) (w : World) : ptr :=
  match objs w !! this with
  | Some v => GetAddress (data_ v) +ₚ index
  | None => nullptr
  end.

Definition run (c : call) : WM unit :=
  match c with
  | CallDefault this => new_Vector this
  | CallSized this size => new_Vector_sized this size
  | CallCopy this other => new_Vector_copy this other
  | CallMove this other => new_Vector_move this other
  | CallCopyAssign this rhs => Vector_copy_assign this rhs
  | CallMoveAssign this rhs => Vector_move_assign this rhs
  | CallDelete this => delete_Vector this
  | CallReserve this n => invoke this (Reserve n)
  | CallResize this n => invoke this (Resize n)
  | CallSwap this other => Vector_Swap_at this other
  | CallPushBack this value => invoke this (PushBack value)
  | CallPopBack this => invoke this PopBack
  | CallEmplaceBack this vs => invoke this (void (EmplaceBack vs))
  | CallEmplace this i vs =>
      λ w, invoke this (void (Emplace (iterator_at this i w) vs)) w
  | CallInsert this i value =>
      λ w, invoke this (void (Insert (iterator_at this i w) value)) w
  | CallErase this i =>
      λ w, invoke this (void (Erase (iterator_at this i w))) w
  end.

(** ** What a vector holds *)

Definition block_of (b : nat) (m : Mem) : list slot :=
  default [] (blocks m !! b).

(** The slots [0, size_) of the vector's buffer. *)
Definition elements (v : Vector) (m : Mem) : list slot :=
  take (size_ v) (block_of (buffer_ (data_ v)) m).

(** The value the arguments [vs] denote in [m]. *)
Definition arg_value (vs : args) (m : Mem) : option T :=
  match vs with
  | ByArgs a => Some (construct a)
  | ByLvalue p => slot_at p m ≫= id
  | ByRvalue x => Some x
  end.

(** Address 0 is [nullptr]: no block lives there. *)
Definition wf_mem (m : Mem) : Prop := blocks m !! 0 = None.

(** The vector [v] holds the values [xs] in the first [size_] slots of its
    buffer, [rest] being the slots behind them; the buffer is null or an
    allocated block of [capacity_] slots. *)
Definition holds (v : Vector) (m : Mem) (xs : list T) (rest : list slot)
    : Prop :=
  block_of (buffer_ (data_ v)) m = (Some <$> xs) ++ rest ∧
  length xs = size_ v ∧
  size_ v + length rest = capacity_ (data_ v) ∧
  (buffer_ (data_ v) = 0 ∨ is_Some (blocks m !! buffer_ (data_ v))).

(** The representation invariant of [Vector]. *)
Definition wf (v : Vector) (m : Mem) : Prop := ∃ xs rest, holds v m xs rest.

(** What a member function of [v] leaves alone: every other block, and the
    buffer is the old one or a block that did not exist before. *)
Definition frame (v : Vector) (m : Mem) (v' : Vector) (m' : Mem) : Prop :=
  (∀ a, a ≠ buffer_ (data_ v) → is_Some (blocks m !! a) →
        blocks m' !! a = blocks m !! a) ∧
  (buffer_ (data_ v') = buffer_ (data_ v) ∨
   blocks m !! buffer_ (data_ v') = None).

(** A constructor gave the new object [v'] a buffer of its own and touched
    nothing else. *)
Definition born (v' : Vector) (m m' : Mem) : Prop :=
  wf_mem m' ∧
  (∀ a, is_Some (blocks m !! a) → blocks m' !! a = blocks m !! a) ∧
  (buffer_ (data_ v') = 0 ∨ blocks m !! buffer_ (data_ v') = None).

(** The argument does not refer to an element of the vector itself. *)
Definition arg_outside (vs : args) (v : Vector) : Prop :=
  match vs with
  | ByLvalue q => blk q ≠ buffer_ (data_ v)
  | _ => True
  end.

(** A member function kept its object and the memory in order. *)
Definition safe (v : Vector) (m : Mem) (v' : Vector) (m' : Mem) : Prop :=
  wf v' m' ∧ wf_mem m' ∧ frame v m v' m' ∧
  capacity_ (data_ v) ≤ capacity_ (data_ v').

(** *** Worlds in order, valid calls, reachable worlds *)

(** Every vector satisfies its invariant, and two vectors never share a
    buffer. *)
Definition Winv (w : World) : Prop :=
  wf_mem (wmem w) ∧
  (∀ l v, objs w !! l = Some v → wf v (wmem w)) ∧
  (∀ l1 l2 v1 v2, l1 ≠ l2 →
     objs w !! l1 = Some v1 → objs w !! l2 = Some v2 →
     buffer_ (data_ v1) ≠ buffer_ (data_ v2) ∨ buffer_ (data_ v1) = 0).

(** The preconditions of the public operations: objects exist (or, for a
    constructor, the address is free), positions are in range, the vector
    is not empty where an element is removed, and a reference argument
    refers to a live object. *)
Definition valid (c : call) (w : World) : Prop :=
  match c with
  | CallDefault this | CallSized this _ => objs w !! this = None
  | CallCopy this other | CallMove this other =>
      objs w !! this = None ∧ is_Some (objs w !! other)
  | CallCopyAssign this rhs | CallMoveAssign this rhs | CallSwap this rhs =>
      is_Some (objs w !! this) ∧ is_Some (objs w !! rhs)
  | CallDelete this | CallReserve this _ | CallResize this _ =>
      is_Some (objs w !! this)
  | CallPushBack this vs | CallEmplaceBack this vs =>
      is_Some (objs w !! this) ∧ is_Some (arg_value vs (wmem w))
  | CallPopBack this => ∃ v, objs w !! this = Some v ∧ 0 < size_ v
  | CallEmplace this i vs | CallInsert this i vs =>
      ∃ v, objs w !! this = Some v ∧ i ≤ size_ v ∧
           is_Some (arg_value vs (wmem w))
  | CallErase this i => ∃ v, objs w !! this = Some v ∧ i < size_ v
  end.

(** The calls that hand a buffer from one object to another. *)
Definition exchanges_buffers (c : call) : bool :=
  match c with
  | CallMove _ _ | CallMoveAssign _ _ | CallSwap _ _ => true
  | _ => false
  end.

(** The calls that add one element to the vector at [l]. *)
Definition adds_element_to (c : call) (l : nat) : bool :=
  match c with
  | CallPushBack this _ | CallEmplaceBack this _
  | CallEmplace this _ _ | CallInsert this _ _ => bool_decide (this = l)
  | _ => false
  end.



End Container.

(** ** Element types to run the container on *)

(** A probe type over [nat]: every call is logged; the fallible calls count
    down [fuse] and the one that finds it at zero throws.  The flags choose
    the traits and whether moving from an object resets it to 0. *)
Record probe_env : Type := MkProbe {
  log : list (event nat nat);
  fuse : option nat;
}.

Definition probe_fallible (nmc nma : bool) (ev : event nat nat) : bool :=
  match ev with
  | EvMoveCtor _ => negb nmc
  | EvMoveAssign _ _ => negb nma
  | EvDtor _ => false
  | _ => true
  end.

Definition probe_react (nmc nma : bool) (ev : event nat nat) (e : probe_env)
    : probe_env * bool :=
  if probe_fallible nmc nma ev then
    match fuse e with
    | Some 0 => (MkProbe (log e ++ [ev]) None, true)
    | Some (S k) => (MkProbe (log e ++ [ev]) (Some k), false)
    | None => (MkProbe (log e ++ [ev]) None, false)
    end
  else (MkProbe (log e ++ [ev]) (fuse e), false).

Program Definition Probe (resets nmc cc nma : bool) : ElemType := {|
  T := nat;
  CArgs := nat;
  Env := probe_env;
  sizeof_T := 8;
  SIZE_MAX := 18446744073709551615;
  value_init := 0;
  construct := id;
  moved_from := λ x, if resets then 0 else x;
  react := probe_react nmc nma;
  is_nothrow_move_constructible := nmc;
  is_copy_constructible := cc;
  is_nothrow_move_assignable := nma;
|}.
Next Obligation. intros _ nmc _ nma -> x e. reflexivity. Qed.
Next Obligation. intros _ nmc _ nma -> y x e. reflexivity. Qed.

Definition probe_start (fuse : option nat) : probe_env := MkProbe [] fuse.

(** Run calls in sequence from a world, stopping at the first that does not
    return. *)
Fixpoint run_all `{ElemType} (cs : list call) : WM unit :=
  match cs with
  | [] => mret ()
  | c :: cs' => run c ;; run_all cs'
  end.

(** ** Specifications

    [spec quiet c s ok bad]: the command [c] run from [s] is defined; when
    it returns, [ok] holds of the value and the final state, and when it
    throws, [bad] holds of the final state.  [quiet] is any property of the
    environment under which no call throws and which calls preserve: from a
    quiet environment the command returns. *)

Class HasEnv `{ElemType} (S : Type) : Type := env_of : S → Env.
Global Instance Mem_env `{ElemType} : HasEnv Mem := env.
Global Instance VMem_env `{ElemType} : HasEnv (Vector * Mem) := λ s, env s.2.

Class Quiet `{ElemType} : Type := {
  quiet : Env → Prop;
  quiet_calm : ∀ ev e, quiet e → (react ev e).2 = false ∧ quiet (react ev e).1;
}.

(** The empty property: nothing is promised about throwing. *)
Program Definition Loud `{ElemType} : Quiet := {| quiet := λ _, False |}.
Next Obligation. intros ? ? ? []. Qed.

Definition spec `{ElemType} {S} `{!HasEnv S} {A} (quiet : Env → Prop)
    (c : StM S A) (s : S) (ok : A → S → Prop) (bad : S → Prop) : Prop :=
  match c s with
  | (Ok a, s') => ok a s' ∧ (quiet (env_of s) → quiet (env_of s'))
  | (Throw, s') => bad s' ∧ ¬ quiet (env_of s)
  | (UB, _) => False
  end.

(** Replace the block at [b], if there is one. *)
Definition set_block `{ElemType} (b : nat) (l : list slot)
    (B : gmap nat (list slot)) : gmap nat (list slot) :=
  alter (λ _, l) b B.

(** ** Concrete element types and states *)

Program Definition ProbeQuiet (resets nmc cc nma : bool)
    : @Quiet (Probe resets nmc cc nma) :=
  {| quiet := λ e : probe_env, fuse e = None |}.
Next Obligation.
  intros resets nmc cc nma ev e He. simpl. unfold probe_react.
  destruct (probe_fallible nmc nma ev); rewrite ?He; simpl; auto.
Qed.

(** A string-like element: moving from it resets it; nothing but copies,
    constructors and allocation can throw. *)
Definition Str : ElemType := Probe true true true true.

(** An element whose move assignment cannot throw but whose move
    constructor can, and which can be copied. *)
Definition Awkward : ElemType := Probe true false true true.

Definition mem_of `{ElemType} (bs : list (nat * list slot)) (e : Env) : Mem :=
  MkMem (list_to_map bs) e.

(** [1, 2] in a buffer of three slots at address 1. *)
Definition v12 : Vector := MkVector (MkRaw 1 3) 2.
Definition m12 (fuse : option nat) : @Mem Str :=
  @mem_of Str [(1, [Some 1; Some 2; None]); (9, [Some 99])] (probe_start fuse).

(** [1, 2, 3] filling a buffer of three slots at address 1. *)
Definition v123 : Vector := MkVector (MkRaw 1 3) 3.
Definition m123 : @Mem Awkward :=
  @mem_of Awkward [(1, [Some 1; Some 2; Some 3])] (probe_start None).

(** Two raw buffers: two slots at address 5 and three at address 6. *)
Definition raw_world : @RawWorld Str :=
  MkRawWorld (list_to_map [(1, MkRaw 5 2); (2, MkRaw 6 3)])
             (@mem_of Str [(5, [None; None]); (6, [None; None; None])] (probe_start None)).

(** Two vectors: [7, 8] in a buffer of two slots at address 5, and
    [1, 2, 3] in a buffer of four slots at address 6. *)
Definition two_vectors (fuse : option nat) : @World Str :=
  MkWorld (list_to_map [(1, MkVector (MkRaw 5 2) 2); (2, MkVector (MkRaw 6 4) 3)])
          (@mem_of Str [(5, [Some 7; Some 8]); (6, [Some 1; Some 2; Some 3; None])]
                   (probe_start fuse)).


(** What a call promises: it is defined, the world stays in order, and no
    vector that exists before and after has lost capacity. *)
Definition step_ok `{ElemType} (w : World) (r : res unit) (w' : World) : Prop :=
  r ≠ UB ∧ Winv w' ∧
  ∀ l u u', objs w !! l = Some u → objs w' !! l = Some u' →
            capacity_ (data_ u) ≤ capacity_ (data_ u').

(** ** Further notions for the properties of the other members *)

(** The command throws from no state. *)
Definition never_throws {S A} (c : StM S A) : Prop := ∀ s, (c s).1 ≠ Throw.

(** The objects a call may write: [*this], and the other object where the
    call takes it by non-const reference. *)
Definition writes `{ElemType} (c : call) : list nat :=
  match c with
  | CallMove this other | CallMoveAssign this other | CallSwap this other =>
      [this; other]
  | CallDefault this | CallSized this _ | CallCopy this _
  | CallCopyAssign this _ | CallDelete this | CallReserve this _
  | CallResize this _ | CallPushBack this _ | CallPopBack this
  | CallEmplaceBack this _ | CallEmplace this _ _ | CallInsert this _ _
  | CallErase this _ => [this]
  end.

(** The argument is passed as an rvalue. *)
Definition is_rvalue `{ElemType} (vs : args) : bool :=
  match vs with
  | ByRvalue _ => true
  | _ => false
  end.

(** The call forwards an rvalue to a constructor of [T]. *)
Definition forwards_rvalue `{ElemType} (c : call) : bool :=
  match c with
  | CallPushBack _ vs | CallEmplaceBack _ vs
  | CallEmplace _ _ vs | CallInsert _ _ vs => is_rvalue vs
  | _ => false
  end.

(** The calls the source declares [noexcept] (the defaulted constructor and
    the destructor implicitly). *)
Definition is_noexcept `{ElemType} (c : call) : bool :=
  match c with
  | CallDefault _ | CallMove _ _ | CallMoveAssign _ _ | CallDelete _
  | CallSwap _ _ | CallPopBack _ => true
  | _ => false
  end.

(** The memory a constructor leaves: as before, with one new block at an
    unused address when there are elements. *)
Definition built `{ElemType} (v' : Vector) (m m' : Mem) (xs : list T) : Prop :=
  size_ v' = length xs ∧ capacity_ (data_ v') = length xs ∧
  (xs = [] → buffer_ (data_ v') = 0 ∧ blocks m' = blocks m) ∧
  (xs ≠ [] → buffer_ (data_ v') ≠ 0 ∧ blocks m !! buffer_ (data_ v') = None ∧
             blocks m' = <[buffer_ (data_ v') := Some <$> xs]> (blocks m)).

(** A caller's loop: [for (T& x : xs) v.PushBack(std::move(x));] *)
Fixpoint push_back_all `{ElemType} (xs : list T) : VM unit :=
  match xs with
  | [] => mret ()
  | x :: xs' => PushBack (ByRvalue x) ;; push_back_all xs'
  end.

(** [c] is the capacity that appending one by one gives [n] elements:
    nothing for none, else the least power of two that holds them. *)
Definition doubled_capacity (n c : nat) : Prop :=
  (n = 0 ∧ c = 0) ∨ ∃ j, c = 2 ^ j ∧ n ≤ c ∧ c < 2 * n.

(** [1, 2, 3] filling a buffer of three slots at address 1, with a fuse. *)
Definition m123_fused (fuse : option nat) : @Mem Awkward :=
  @mem_of Awkward [(1, [Some 1; Some 2; Some 3])] (probe_start fuse).

(** A memory with no blocks. *)
Definition no_blocks : @Mem Str := @mem_of Str [] (probe_start None).

(** * Proofs *)

Section Logic.
Context {E : ElemType} {S : Type} {HS : HasEnv S}.
Variable q : Env → Prop.

Lemma bind_run {A B} (c : StM S A) (f : A → StM S B) s :
  (c ≫= f) s = match c s with
               | (Ok a, s') => f a s'
               | (Throw, s') => (Throw, s')
               | (UB, s') => (UB, s')
               end.
Proof. reflexivity. Qed.

Lemma spec_ret {A} (a : A) s (ok : A → S → Prop) bad :
  ok a s → spec q (mret a) s ok bad.
Proof. intros H. unfold spec. simpl. split; [exact H | tauto]. Qed.

Lemma spec_bind {A B} (c : StM S A) (f : A → StM S B) s ok bad :
  spec q c s (λ a s', spec q (f a) s' ok bad) bad →
  spec q (c ≫= f) s ok bad.
Proof.
  unfold spec. rewrite bind_run.
  destruct (c s) as [[a| |] s1]; [|tauto..].
  intros [H Hq]. destruct (f a s1) as [[b| |] s2]; [| |tauto].
  - destruct H as [H Hq']. split; [exact H | tauto].
  - destruct H as [H Hq']. split; [exact H | tauto].
Qed.

Lemma spec_mono {A} (c : StM S A) s (ok ok' : A → S → Prop)
    (bad bad' : S → Prop) :
  spec q c s ok bad →
  (∀ a s', ok a s' → ok' a s') →
  (∀ s', bad s' → bad' s') →
  spec q c s ok' bad'.
Proof.
  unfold spec. destruct (c s) as [[a| |] s1]; [| |tauto].
  - intros [H Hq] Hok _. split; [auto | exact Hq].
  - intros [H Hq] _ Hbad. split; [auto | exact Hq].
Qed.

Lemma spec_on_throw {A} (c : StM S A) (h : StM S unit) s ok bad :
  spec q c s ok
    (λ s', spec (@quiet _ Loud) h s' (λ _ s'', bad s'') (λ _, False)) →
  spec q (on_throw c h) s ok bad.
Proof.
  unfold spec, on_throw. destruct (c s) as [[a| |] s1]; [tauto| |tauto].
  intros [H Hq]. destruct (h s1) as [[[]| |] s2]; [|tauto..].
  destruct H as [H _]. split; [exact H | exact Hq].
Qed.

Lemma spec_assert (b : bool) s (ok : unit → S → Prop) bad :
  b = true → ok () s → spec q (assert b) s ok bad.
Proof. intros -> H. apply spec_ret, H. Qed.

(** A specification read as a statement on the run. *)
Lemma spec_run {A} (c : StM S A) s ok bad :
  spec q c s ok bad →
  ∃ r s', c s = (r, s') ∧
    match r with
    | Ok a => ok a s' ∧ (q (env_of s) → q (env_of s'))
    | Throw => bad s' ∧ ¬ q (env_of s)
    | UB => False
    end.
Proof.
  unfold spec. destruct (c s) as [r s1]. intros H. exists r, s1.
  split; [reflexivity|]. destruct r; exact H.
Qed.

(** A command that cannot throw, checked with [Loud], is checked for every
    [quiet] it preserves. *)
Lemma spec_loud {A} (c : StM S A) s ok bad :
  spec (@quiet _ Loud) c s ok bad →
  (∀ s', bad s' → False) →
  (∀ a s', ok a s' → q (env_of s) → q (env_of s')) →
  spec q c s ok bad.
Proof.
  unfold spec. destruct (c s) as [[a| |] s1]; [| |tauto].
  - intros [H _] _ Hq. split; [exact H | eauto].
  - intros [H _] Hb _. destruct (Hb _ H).
Qed.

End Logic.

Section MemFacts.
Context {E : ElemType}.
Implicit Types (B : gmap nat (list slot)) (l : list slot) (m : Mem).

Lemma set_block_lookup b l B : set_block b l B !! b = (λ _, l) <$> B !! b.
Proof. unfold set_block. apply lookup_alter_eq. Qed.

Lemma set_block_lookup_ne a b l B : a ≠ b → set_block b l B !! a = B !! a.
Proof. intros H. unfold set_block. apply lookup_alter_ne. congruence. Qed.

Lemma set_block_twice b l l' B : set_block b l (set_block b l' B) = set_block b l B.
Proof.
  apply map_eq. intros a. destruct (decide (a = b)) as [->|Hne].
  - rewrite !set_block_lookup. destruct (B !! b); reflexivity.
  - rewrite !set_block_lookup_ne by exact Hne. reflexivity.
Qed.

Lemma set_block_insert b l l0 B : B !! b = Some l0 → <[b := l]> B = set_block b l B.
Proof.
  intros H. apply map_eq. intros a. destruct (decide (a = b)) as [->|Hne].
  - rewrite lookup_insert_eq, set_block_lookup, H. reflexivity.
  - rewrite lookup_insert_ne by congruence. rewrite set_block_lookup_ne by exact Hne. reflexivity.
Qed.

Lemma set_block_same b l B : default [] (B !! b) = l → set_block b l B = B.
Proof.
  intros H. apply map_eq. intros a. destruct (decide (a = b)) as [->|Hne].
  - rewrite set_block_lookup. destruct (B !! b); simpl in *; congruence.
  - apply set_block_lookup_ne, Hne.
Qed.

Lemma set_block_comm a b l k B : a ≠ b →
  set_block a l (set_block b k B) = set_block b k (set_block a l B).
Proof.
  intros Hne. apply map_eq. intros c.
  destruct (decide (c = a)) as [Ha|Ha]; destruct (decide (c = b)) as [Hb|Hb];
    subst; try congruence.
  - rewrite set_block_lookup, (set_block_lookup_ne a b), (set_block_lookup_ne a b),
      set_block_lookup by congruence. reflexivity.
  - rewrite (set_block_lookup_ne b a), !set_block_lookup,
      (set_block_lookup_ne b a) by congruence. reflexivity.
  - rewrite !set_block_lookup_ne by congruence. reflexivity.
Qed.

Lemma set_block_block_of b m l :
  block_of b m = l → set_block b l (blocks m) = blocks m.
Proof. apply set_block_same. Qed.

Lemma block_of_blocks b m m' : blocks m' = blocks m → block_of b m' = block_of b m.
Proof. unfold block_of. intros ->. reflexivity. Qed.

Lemma block_of_set b l m m' :
  blocks m' = set_block b l (blocks m) →
  is_Some (blocks m !! b) ∨ l = [] →
  block_of b m' = l.
Proof.
  unfold block_of. intros -> H. rewrite set_block_lookup.
  destruct (blocks m !! b); simpl; [reflexivity|].
  destruct H as [[? H]| ->]; [discriminate | reflexivity].
Qed.

Lemma block_of_set_ne a b l m m' :
  blocks m' = set_block b l (blocks m) → a ≠ b → block_of a m' = block_of a m.
Proof. unfold block_of. intros -> H. rewrite set_block_lookup_ne by exact H. reflexivity. Qed.

Lemma block_of_Some b m l : blocks m !! b = Some l → block_of b m = l.
Proof. unfold block_of. intros ->. reflexivity. Qed.

Lemma block_of_cons b m s l : block_of b m = s :: l → blocks m !! b = Some (s :: l).
Proof. unfold block_of. destruct (blocks m !! b); simpl; [congruence | discriminate]. Qed.

Lemma block_of_middle b m l1 s l2 :
  block_of b m = l1 ++ s :: l2 → blocks m !! b = Some (l1 ++ s :: l2).
Proof.
  unfold block_of. destruct (blocks m !! b); simpl; [congruence|].
  intros H. destruct l1; discriminate.
Qed.

Lemma slot_at_middle p m l1 s l2 :
  blocks m !! blk p = Some (l1 ++ s :: l2) → off p = length l1 →
  slot_at p m = Some s.
Proof.
  intros Hb Ho. unfold slot_at. rewrite Hb. simpl. rewrite Ho.
  apply list_lookup_middle. reflexivity.
Qed.

End MemFacts.

Ltac set_blocks_norm :=
  repeat first
    [ rewrite set_block_lookup
    | rewrite set_block_lookup_ne by congruence
    | rewrite lookup_delete_eq
    | rewrite lookup_delete_ne by congruence
    | rewrite lookup_insert_eq
    | rewrite lookup_insert_ne by congruence ].

(** Equality of two lists up to the association of appends. *)
Ltac same_list :=
  repeat (rewrite ?fmap_app, ?fmap_cons, ?fmap_nil, ?app_nil_r, <- ?app_assoc;
          simpl);
  reflexivity.

(** Equality of two stacks of block updates, key by key. *)
Ltac blocks_eq_at k :=
  set_blocks_norm;
  repeat match goal with
    | H : ?B !! k = _ |- context [?B !! k] => rewrite H
    end;
  repeat match goal with
    | |- context [?B !! k] =>
        is_var B; destruct (B !! k); simpl
    | |- context [blocks ?m !! k] =>
        let Heq := fresh "Heq" in
        destruct (blocks m !! k) eqn:Heq;
        unfold block_of in *; rewrite ?Heq in *; simpl in *
    end;
  simpl;
  try reflexivity;
  try (f_equal; same_list);
  try congruence;
  try (subst; f_equal; same_list).

Ltac blocks_eq1 a :=
  apply map_eq; let k := fresh "k" in intros k;
  destruct (decide (k = a)); [subst k; blocks_eq_at a | blocks_eq_at k].

Ltac blocks_eq2 a b :=
  apply map_eq; let k := fresh "k" in intros k;
  destruct (decide (k = a));
    [subst k; blocks_eq_at a
    | destruct (decide (k = b)); [subst k; blocks_eq_at b | blocks_eq_at k]].

Section MemLogic.
Context {E : ElemType}.
Context {Q : Quiet}.
Implicit Types (B : gmap nat (list slot)) (l : list slot) (m : Mem) (p : ptr).

Lemma fire_wp ev m (ok : unit → Mem → Prop) (bad : Mem → Prop) :
  (∀ m', blocks m' = blocks m → ok () m') →
  (∀ m', blocks m' = blocks m → bad m') →
  spec quiet (fire ev) m ok bad.
Proof.
  intros Hok Hbad. unfold spec, fire.
  pose proof (quiet_calm ev (env m)) as Hc.
  destruct (react ev (env m)) as [e' [|]]; simpl in *.
  - split; [apply Hbad; reflexivity|]. intros Hq. destruct (Hc Hq). discriminate.
  - split; [apply Hok; reflexivity|]. intros Hq. apply Hc, Hq.
Qed.

Lemma fire_noexcept_wp ev m (ok : unit → Mem → Prop) (bad : Mem → Prop) :
  (∀ m', blocks m' = blocks m → ok () m') →
  spec quiet (fire_noexcept ev) m ok bad.
Proof.
  intros Hok. unfold spec, fire_noexcept. simpl.
  split; [apply Hok; reflexivity|]. intros Hq. apply quiet_calm, Hq.
Qed.

Lemma load_wp p m x (ok : T → Mem → Prop) (bad : Mem → Prop) :
  slot_at p m = Some (Some x) → ok x m → spec quiet (load p) m ok bad.
Proof. intros H Hok. unfold spec, load. rewrite H. split; [exact Hok | tauto]. Qed.

Lemma write_slot_wp p s m l1 s0 l2 (ok : unit → Mem → Prop) (bad : Mem → Prop) :
  blocks m !! blk p = Some (l1 ++ s0 :: l2) → off p = length l1 →
  (∀ m', blocks m' = set_block (blk p) (l1 ++ s :: l2) (blocks m) → ok () m') →
  spec quiet (write_slot p s) m ok bad.
Proof.
  intros Hb Ho Hok. unfold spec, write_slot. rewrite Hb.
  destruct (decide _) as [_|Hn].
  2:{ rewrite length_app in Hn. simpl in Hn. lia. }
  simpl. split; [|tauto]. apply Hok. simpl.
  rewrite (set_block_insert _ _ _ _ Hb). f_equal.
  rewrite Ho. replace (length l1) with (length l1 + 0) by lia.
  rewrite insert_app_r. reflexivity.
Qed.

Lemma place_wp p x m l1 s0 l2 (ok : unit → Mem → Prop) (bad : Mem → Prop) :
  blocks m !! blk p = Some (l1 ++ s0 :: l2) → off p = length l1 →
  (∀ m', blocks m' = set_block (blk p) (l1 ++ Some x :: l2) (blocks m) → ok () m') →
  spec quiet (place p x) m ok bad.
Proof. apply write_slot_wp. Qed.

Lemma store_wp p x m l1 y l2 (ok : unit → Mem → Prop) (bad : Mem → Prop) :
  blocks m !! blk p = Some (l1 ++ Some y :: l2) → off p = length l1 →
  (∀ m', blocks m' = set_block (blk p) (l1 ++ Some x :: l2) (blocks m) → ok () m') →
  spec quiet (store p x) m ok bad.
Proof.
  intros Hb Ho Hok. unfold store. apply spec_bind.
  apply load_wp with y; [eapply slot_at_middle; eauto|].
  eapply write_slot_wp; eauto.
Qed.

Lemma kill_wp p m l1 y l2 (ok : unit → Mem → Prop) (bad : Mem → Prop) :
  blocks m !! blk p = Some (l1 ++ Some y :: l2) → off p = length l1 →
  (∀ m', blocks m' = set_block (blk p) (l1 ++ None :: l2) (blocks m) → ok () m') →
  spec quiet (kill p) m ok bad.
Proof.
  intros Hb Ho Hok. unfold kill. apply spec_bind.
  apply load_wp with y; [eapply slot_at_middle; eauto|].
  eapply write_slot_wp; eauto.
Qed.

Lemma T_destroy_wp p m l1 y l2 (ok : unit → Mem → Prop) (bad : Mem → Prop) :
  blocks m !! blk p = Some (l1 ++ Some y :: l2) → off p = length l1 →
  (∀ m', blocks m' = set_block (blk p) (l1 ++ None :: l2) (blocks m) → ok () m') →
  spec quiet (T_destroy p) m ok bad.
Proof.
  intros Hb Ho Hok. unfold T_destroy. apply spec_bind.
  apply load_wp with y; [eapply slot_at_middle; eauto|].
  apply spec_bind, fire_noexcept_wp. intros m1 H1.
  eapply kill_wp; [rewrite H1; eauto | eauto |].
  intros m' H'. apply Hok. rewrite H', H1. reflexivity.
Qed.

Lemma T_value_construct_wp p m l1 s l2 (ok : unit → Mem → Prop) (bad : Mem → Prop) :
  blocks m !! blk p = Some (l1 ++ s :: l2) → off p = length l1 →
  (∀ m', blocks m' = set_block (blk p) (l1 ++ Some value_init :: l2) (blocks m) → ok () m') →
  (∀ m', blocks m' = blocks m → bad m') →
  spec quiet (T_value_construct p) m ok bad.
Proof.
  intros Hb Ho Hok Hbad. unfold T_value_construct.
  apply spec_bind, fire_wp; [|exact Hbad]. intros m1 H1.
  eapply place_wp; [rewrite H1; eauto | eauto |].
  intros m' H'. apply Hok. rewrite H', H1. reflexivity.
Qed.

(** Copy construction into another block. *)
Lemma T_copy_construct_wp dst src m x l1 s l2 (ok : unit → Mem → Prop) (bad : Mem → Prop) :
  slot_at src m = Some (Some x) →
  blocks m !! blk dst = Some (l1 ++ s :: l2) → off dst = length l1 →
  (∀ m', blocks m' = set_block (blk dst) (l1 ++ Some x :: l2) (blocks m) → ok () m') →
  (∀ m', blocks m' = blocks m → bad m') →
  spec quiet (T_copy_construct dst src) m ok bad.
Proof.
  intros Hs Hb Ho Hok Hbad. unfold T_copy_construct.
  apply spec_bind, load_wp with x; [exact Hs|].
  apply spec_bind, fire_wp; [|exact Hbad]. intros m1 H1.
  eapply place_wp; [rewrite H1; eauto | eauto |].
  intros m' H'. apply Hok. rewrite H', H1. reflexivity.
Qed.

Lemma snoc_middle {A} (u : list A) a b w : u ++ a :: b :: w = (u ++ [a]) ++ b :: w.
Proof. rewrite <- app_assoc. reflexivity. Qed.

(** Move construction into another block. *)
Lemma T_move_construct_wp dst src m x s1 s2 l1 s l2 (ok : unit → Mem → Prop) (bad : Mem → Prop) :
  blk src ≠ blk dst →
  blocks m !! blk src = Some (s1 ++ Some x :: s2) → off src = length s1 →
  blocks m !! blk dst = Some (l1 ++ s :: l2) → off dst = length l1 →
  (∀ m', blocks m' = set_block (blk src) (s1 ++ Some (moved_from x) :: s2)
                       (set_block (blk dst) (l1 ++ Some x :: l2) (blocks m)) → ok () m') →
  (∀ m', blocks m' = blocks m → bad m') →
  spec quiet (T_move_construct dst src) m ok bad.
Proof.
  intros Hne Hs Hso Hb Ho Hok Hbad. unfold T_move_construct.
  apply spec_bind, load_wp with x; [eapply slot_at_middle; eauto|].
  apply spec_bind, fire_wp; [|exact Hbad]. intros m1 H1.
  apply spec_bind. eapply place_wp; [rewrite H1; eauto | eauto |].
  intros m2 H2. eapply store_wp.
  - rewrite H2, set_block_lookup_ne, H1 by exact Hne. eauto.
  - exact Hso.
  - intros m' H'. apply Hok. rewrite H', H2, H1. reflexivity.
Qed.

(** Move construction of the object at [src] into the next slot. *)
Lemma T_move_construct_next_wp dst src m x l1 s l2 (ok : unit → Mem → Prop) (bad : Mem → Prop) :
  blk dst = blk src →
  blocks m !! blk src = Some (l1 ++ Some x :: s :: l2) →
  off src = length l1 → off dst = S (length l1) →
  (∀ m', blocks m' = set_block (blk src) (l1 ++ Some (moved_from x) :: Some x :: l2) (blocks m) → ok () m') →
  (∀ m', blocks m' = blocks m → bad m') →
  spec quiet (T_move_construct dst src) m ok bad.
Proof.
  intros Hblk Hs Hso Hdo Hok Hbad. unfold T_move_construct.
  apply spec_bind, load_wp with x; [eapply slot_at_middle; eauto|].
  apply spec_bind, fire_wp; [|exact Hbad]. intros m1 H1.
  apply spec_bind. eapply place_wp with (l1 := l1 ++ [Some x]).
  { rewrite H1, Hblk, Hs. rewrite snoc_middle. reflexivity. }
  { rewrite length_app. simpl. lia. }
  intros m2 H2. eapply store_wp.
  - rewrite H2, Hblk, set_block_lookup, H1, Hs. simpl.
    rewrite <- snoc_middle. reflexivity.
  - exact Hso.
  - intros m' H'. apply Hok. rewrite H', H2, Hblk, set_block_twice, H1. reflexivity.
Qed.

(** Copy assignment between blocks. *)
Lemma T_copy_assign_wp dst src m x y l1 l2 (ok : unit → Mem → Prop) (bad : Mem → Prop) :
  slot_at src m = Some (Some x) →
  blocks m !! blk dst = Some (l1 ++ Some y :: l2) → off dst = length l1 →
  (∀ m', blocks m' = set_block (blk dst) (l1 ++ Some x :: l2) (blocks m) → ok () m') →
  (∀ m', blocks m' = blocks m → bad m') →
  spec quiet (T_copy_assign dst src) m ok bad.
Proof.
  intros Hs Hb Ho Hok Hbad. unfold T_copy_assign.
  apply spec_bind, load_wp with x; [exact Hs|].
  apply spec_bind, load_wp with y; [eapply slot_at_middle; eauto|].
  apply spec_bind, fire_wp; [|exact Hbad]. intros m1 H1.
  eapply store_wp; [rewrite H1; eauto | eauto |].
  intros m' H'. apply Hok. rewrite H', H1. reflexivity.
Qed.

(** Move assignment from the next slot (a shift to the left). *)
Lemma T_move_assign_left_wp dst src m x y l1 l2 (ok : unit → Mem → Prop) (bad : Mem → Prop) :
  blk src = blk dst →
  blocks m !! blk dst = Some (l1 ++ Some y :: Some x :: l2) →
  off dst = length l1 → off src = S (length l1) →
  (∀ m', blocks m' = set_block (blk dst) (l1 ++ Some x :: Some (moved_from x) :: l2) (blocks m) → ok () m') →
  (∀ m', blocks m' = blocks m → bad m') →
  spec quiet (T_move_assign dst src) m ok bad.
Proof.
  intros Hblk Hb Hdo Hso Hok Hbad. unfold T_move_assign.
  apply spec_bind, load_wp with x.
  { eapply slot_at_middle with (l1 := l1 ++ [Some y]).
    - rewrite Hblk, Hb, snoc_middle. reflexivity.
    - rewrite length_app. simpl. lia. }
  apply spec_bind, load_wp with y; [eapply slot_at_middle; eauto|].
  apply spec_bind, fire_wp; [|exact Hbad]. intros m1 H1.
  apply spec_bind. eapply store_wp; [rewrite H1; eauto | eauto |].
  intros m2 H2. eapply store_wp with (l1 := l1 ++ [Some x]).
  - rewrite H2, Hblk, set_block_lookup, H1, Hb. simpl.
    rewrite snoc_middle. reflexivity.
  - rewrite length_app. simpl. lia.
  - intros m' H'. apply Hok.
    rewrite H', H2, Hblk, set_block_twice, H1, <- snoc_middle. reflexivity.
Qed.

(** Copy assignment from the next slot. *)
Lemma T_copy_assign_left_wp dst src m x y l1 l2 (ok : unit → Mem → Prop) (bad : Mem → Prop) :
  blk src = blk dst →
  blocks m !! blk dst = Some (l1 ++ Some y :: Some x :: l2) →
  off dst = length l1 → off src = S (length l1) →
  (∀ m', blocks m' = set_block (blk dst) (l1 ++ Some x :: Some x :: l2) (blocks m) → ok () m') →
  (∀ m', blocks m' = blocks m → bad m') →
  spec quiet (T_copy_assign dst src) m ok bad.
Proof.
  intros Hblk Hb Hdo Hso Hok Hbad.
  eapply T_copy_assign_wp; eauto.
  eapply slot_at_middle with (l1 := l1 ++ [Some y]).
  - rewrite Hblk, Hb, snoc_middle. reflexivity.
  - rewrite length_app. simpl. lia.
Qed.

(** Move assignment from the previous slot (a shift to the right). *)
Lemma T_move_assign_right_wp dst src m x y l1 l2 (ok : unit → Mem → Prop) (bad : Mem → Prop) :
  blk src = blk dst →
  blocks m !! blk dst = Some (l1 ++ Some x :: Some y :: l2) →
  off src = length l1 → off dst = S (length l1) →
  (∀ m', blocks m' = set_block (blk dst) (l1 ++ Some (moved_from x) :: Some x :: l2) (blocks m) → ok () m') →
  (∀ m', blocks m' = blocks m → bad m') →
  spec quiet (T_move_assign dst src) m ok bad.
Proof.
  intros Hblk Hb Hso Hdo Hok Hbad. unfold T_move_assign.
  apply spec_bind, load_wp with x.
  { eapply slot_at_middle; [rewrite Hblk; eauto | eauto]. }
  apply spec_bind, load_wp with y.
  { eapply slot_at_middle with (l1 := l1 ++ [Some x]).
    - rewrite Hb, snoc_middle. reflexivity.
    - rewrite length_app. simpl. lia. }
  apply spec_bind, fire_wp; [|exact Hbad]. intros m1 H1.
  apply spec_bind. eapply store_wp with (l1 := l1 ++ [Some x]).
  { rewrite H1, Hb, snoc_middle. reflexivity. }
  { rewrite length_app. simpl. lia. }
  intros m2 H2. eapply store_wp.
  - rewrite H2, Hblk, set_block_lookup, H1, Hb. simpl.
    rewrite <- snoc_middle. reflexivity.
  - exact Hso.
  - intros m' H'. apply Hok.
    rewrite H', H2, Hblk, set_block_twice, H1. reflexivity.
Qed.

Lemma T_move_assign_local_wp dst x m y l1 l2 (ok : unit → Mem → Prop) (bad : Mem → Prop) :
  blocks m !! blk dst = Some (l1 ++ Some y :: l2) → off dst = length l1 →
  (∀ m', blocks m' = set_block (blk dst) (l1 ++ Some x :: l2) (blocks m) → ok () m') →
  (∀ m', blocks m' = blocks m → bad m') →
  spec quiet (T_move_assign_local dst x) m ok bad.
Proof.
  intros Hb Ho Hok Hbad. unfold T_move_assign_local.
  apply spec_bind, load_wp with y; [eapply slot_at_middle; eauto|].
  apply spec_bind, fire_wp; [|exact Hbad]. intros m1 H1.
  eapply store_wp; [rewrite H1; eauto | eauto |].
  intros m' H'. apply Hok. rewrite H', H1. reflexivity.
Qed.

End MemLogic.

Section DestroyLoop.
Context {E : ElemType} {Q : Quiet}.
Implicit Types (B : gmap nat (list slot)) (l : list slot) (m : Mem) (p : ptr).

Lemma ptr_diff_wp p q m (ok : nat → Mem → Prop) (bad : Mem → Prop) :
  blk p = blk q → off q ≤ off p → ok (off p - off q) m →
  spec quiet (ptr_diff p q) m ok bad.
Proof.
  intros Hb Ho Hok. unfold ptr_diff.
  destruct (decide _) as [_|Hn]; [apply spec_ret, Hok | tauto].
Qed.

Lemma ptr_back_wp p k m (ok : ptr → Mem → Prop) (bad : Mem → Prop) :
  k ≤ off p → ok (Ptr (blk p) (off p - k)) m →
  spec quiet (ptr_back p k) m ok bad.
Proof.
  intros Ho Hok. unfold ptr_back.
  destruct (decide _) as [_|Hn]; [apply spec_ret, Hok | tauto].
Qed.

Lemma destroy_n_wp xs : ∀ n b i l1 l2 m (ok : unit → Mem → Prop) (bad : Mem → Prop),
  n = length xs →
  block_of b m = l1 ++ (Some <$> xs) ++ l2 → i = length l1 →
  (∀ m', blocks m' = set_block b (l1 ++ replicate n None ++ l2) (blocks m) → ok () m') →
  spec quiet (destroy_n (Ptr b i) n) m ok bad.
Proof.
  induction xs as [|x xs IH]; intros n b i l1 l2 m ok bad -> Hb -> Hok; simpl.
  - apply spec_ret, Hok. symmetry. apply set_block_block_of. exact Hb.
  - apply spec_bind. simpl in Hb. pose proof (block_of_middle _ _ _ _ _ Hb) as Hb'.
    eapply T_destroy_wp; [exact Hb' | reflexivity |]. simpl.
    intros m1 H1. eapply (IH _ _ _ (l1 ++ [None])); [reflexivity | | |].
    + erewrite block_of_set; [|exact H1|eauto]. rewrite <- app_assoc. reflexivity.
    + rewrite length_app. simpl. reflexivity.
    + intros m' H'. apply Hok. rewrite H', H1, set_block_twice.
      rewrite <- app_assoc. reflexivity.
Qed.


End DestroyLoop.

Section UninitializedLoops.
Context {E : ElemType} {Q : Quiet}.
Implicit Types (B : gmap nat (list slot)) (l : list slot) (m : Mem) (p : ptr).

Lemma uninitialized_copy_loop_wp xs :
  ∀ n bs i s1 s2 bd j d1 ys hole d2 k m (ok : unit → Mem → Prop) (bad : Mem → Prop),
  n = length xs → bs ≠ bd →
  block_of bs m = s1 ++ (Some <$> xs) ++ s2 → i = length s1 →
  block_of bd m = d1 ++ (Some <$> ys) ++ hole ++ d2 →
  j = length d1 → k = length ys → length hole = n →
  (∀ m', blocks m' = set_block bd (d1 ++ (Some <$> ys ++ xs) ++ d2) (blocks m) → ok () m') →
  (∀ m' ws, length ws = k + n →
     blocks m' = set_block bd (d1 ++ ws ++ d2) (blocks m) → bad m') →
  spec quiet (uninitialized_copy_loop (Ptr bs i) n (Ptr bd j) k) m ok bad.
Proof.
  induction xs as [|x xs IH];
    intros n bs i s1 s2 bd j d1 ys hole d2 k m ok bad -> Hne Hs -> Hd -> -> Hh Hok Hbad;
    simpl.
  - apply spec_ret, Hok. symmetry. apply set_block_block_of.
    destruct hole; [|discriminate]. rewrite app_nil_r. exact Hd.
  - destruct hole as [|h hole]; [discriminate|]. simpl in Hh.
    simpl in Hs. pose proof (block_of_middle _ _ _ _ _ Hs) as Hs'.
    assert (Hd2 : block_of bd m = (d1 ++ (Some <$> ys)) ++ h :: hole ++ d2).
    { rewrite Hd, <- app_assoc. reflexivity. }
    pose proof (block_of_middle _ _ _ _ _ Hd2) as Hd'.
    apply spec_bind, spec_on_throw.
    eapply T_copy_construct_wp.
    + eapply slot_at_middle; [exact Hs' | reflexivity].
    + exact Hd'.
    + unfold ptr_add. simpl. rewrite length_app, length_fmap. reflexivity.
    + simpl. intros m1 H1.
      eapply (IH _ _ _ (s1 ++ [Some x]) s2 _ _ d1 (ys ++ [x]) hole d2);
        cbn [blk off]; [reflexivity | exact Hne | | | | reflexivity | | | |].
      * erewrite block_of_set_ne; [|exact H1|exact Hne].
        rewrite Hs, <- app_assoc. reflexivity.
      * rewrite length_app. simpl. reflexivity.
      * erewrite block_of_set; [|exact H1|eauto].
        rewrite fmap_app, <- !app_assoc. reflexivity.
      * rewrite length_app. simpl. lia.
      * lia.
      * intros m' H'. apply Hok. rewrite H', H1, set_block_twice.
        rewrite <- !app_assoc. reflexivity.
      * intros m' ws Hw H'. apply (Hbad m' ws); [simpl; lia|].
        rewrite H', H1, set_block_twice. reflexivity.
    + intros m1 H1.
      eapply (destroy_n_wp ys _ _ _ d1 (h :: hole ++ d2)); [reflexivity | | reflexivity |].
      * unfold block_of. rewrite H1. exact Hd.
      * intros m' H'. apply (Hbad m' (replicate (length ys) None ++ h :: hole)).
        { rewrite length_app, length_replicate. simpl. lia. }
        rewrite H', H1, <- !app_assoc. reflexivity.
Qed.

Lemma uninitialized_copy_n_wp xs n bs i s1 s2 bd j d1 hole d2 m
    (ok : unit → Mem → Prop) (bad : Mem → Prop) :
  n = length xs → bs ≠ bd →
  block_of bs m = s1 ++ (Some <$> xs) ++ s2 → i = length s1 →
  block_of bd m = d1 ++ hole ++ d2 → j = length d1 → length hole = n →
  (∀ m', blocks m' = set_block bd (d1 ++ (Some <$> xs) ++ d2) (blocks m) → ok () m') →
  (∀ m' ws, length ws = n →
     blocks m' = set_block bd (d1 ++ ws ++ d2) (blocks m) → bad m') →
  spec quiet (uninitialized_copy_n (Ptr bs i) n (Ptr bd j)) m ok bad.
Proof.
  intros Hn Hne Hs Hi Hd Hj Hh Hok Hbad. unfold uninitialized_copy_n.
  eapply (uninitialized_copy_loop_wp xs _ _ _ s1 s2 _ _ d1 [] hole d2); eauto.
Qed.

Lemma uninitialized_move_loop_wp xs :
  ∀ n bs i s1 s2 bd j d1 ys hole d2 k m (ok : unit → Mem → Prop) (bad : Mem → Prop),
  n = length xs → bs ≠ bd →
  block_of bs m = s1 ++ (Some <$> xs) ++ s2 → i = length s1 →
  block_of bd m = d1 ++ (Some <$> ys) ++ hole ++ d2 →
  j = length d1 → k = length ys → length hole = n →
  (∀ m', blocks m' = set_block bs (s1 ++ (Some <$> (moved_from <$> xs)) ++ s2)
                      (set_block bd (d1 ++ (Some <$> ys ++ xs) ++ d2) (blocks m)) →
         ok () m') →
  (∀ m' zs ws, length zs = n → length ws = k + n →
     blocks m' = set_block bs (s1 ++ (Some <$> zs) ++ s2)
                   (set_block bd (d1 ++ ws ++ d2) (blocks m)) → bad m') →
  spec quiet (uninitialized_move_loop (Ptr bs i) n (Ptr bd j) k) m ok bad.
Proof.
  induction xs as [|x xs IH];
    intros n bs i s1 s2 bd j d1 ys hole d2 k m ok bad -> Hne Hs -> Hd -> -> Hh Hok Hbad;
    simpl.
  - apply spec_ret, Hok. symmetry.
    destruct hole; [|discriminate]. rewrite app_nil_r.
    rewrite (set_block_same bd); [|exact Hd]. apply set_block_block_of. exact Hs.
  - destruct hole as [|h hole]; [discriminate|]. simpl in Hh.
    simpl in Hs. pose proof (block_of_middle _ _ _ _ _ Hs) as Hs'.
    assert (Hd2 : block_of bd m = (d1 ++ (Some <$> ys)) ++ h :: hole ++ d2).
    { rewrite Hd, <- app_assoc. reflexivity. }
    pose proof (block_of_middle _ _ _ _ _ Hd2) as Hd'.
    apply spec_bind, spec_on_throw.
    eapply T_move_construct_wp.
    + exact Hne.
    + exact Hs'.
    + reflexivity.
    + exact Hd'.
    + unfold ptr_add. simpl. rewrite length_app, length_fmap. reflexivity.
    + simpl. intros m1 H1.
      eapply (IH _ _ _ (s1 ++ [Some (moved_from x)]) s2 _ _ d1 (ys ++ [x]) hole d2);
        cbn [blk off]; [reflexivity | exact Hne | | | | reflexivity | | | |].
      * unfold block_of. rewrite H1, set_block_lookup.
        rewrite set_block_lookup_ne, Hs' by exact Hne. simpl.
        rewrite <- app_assoc. reflexivity.
      * rewrite length_app. simpl. reflexivity.
      * unfold block_of. rewrite H1, set_block_lookup_ne by congruence.
        rewrite set_block_lookup, Hd'. simpl.
        rewrite fmap_app, <- !app_assoc. reflexivity.
      * rewrite length_app. simpl. lia.
      * lia.
      * intros m' H'. apply Hok. rewrite H', H1.
        rewrite fmap_cons, fmap_app. blocks_eq2 bs bd.
      * intros m' zs ws Hz Hw H'.
        apply (Hbad m' (moved_from x :: zs) ws); [simpl; lia | simpl; lia |].
        rewrite H', H1. blocks_eq2 bs bd.
    + intros m1 H1.
      eapply (destroy_n_wp ys _ _ _ d1 (h :: hole ++ d2)); [reflexivity | | reflexivity |].
      * unfold block_of. rewrite H1. exact Hd.
      * intros m' H'.
        apply (Hbad m' (x :: xs) (replicate (length ys) None ++ h :: hole)).
        { reflexivity. }
        { rewrite length_app, length_replicate. simpl. lia. }
        rewrite H', H1, <- !app_assoc.
        rewrite (set_block_same bs).
        { reflexivity. }
        rewrite set_block_lookup_ne by exact Hne. exact Hs.
Qed.

Lemma uninitialized_move_n_wp xs n bs i s1 s2 bd j d1 hole d2 m
    (ok : unit → Mem → Prop) (bad : Mem → Prop) :
  n = length xs → bs ≠ bd →
  block_of bs m = s1 ++ (Some <$> xs) ++ s2 → i = length s1 →
  block_of bd m = d1 ++ hole ++ d2 → j = length d1 → length hole = n →
  (∀ m', blocks m' = set_block bs (s1 ++ (Some <$> (moved_from <$> xs)) ++ s2)
                      (set_block bd (d1 ++ (Some <$> xs) ++ d2) (blocks m)) →
         ok () m') →
  (∀ m' zs ws, length zs = n → length ws = n →
     blocks m' = set_block bs (s1 ++ (Some <$> zs) ++ s2)
                   (set_block bd (d1 ++ ws ++ d2) (blocks m)) → bad m') →
  spec quiet (uninitialized_move_n (Ptr bs i) n (Ptr bd j)) m ok bad.
Proof.
  intros Hn Hne Hs Hi Hd Hj Hh Hok Hbad. unfold uninitialized_move_n.
  eapply (uninitialized_move_loop_wp xs _ _ _ s1 s2 _ _ d1 [] hole d2); eauto.
Qed.

End UninitializedLoops.

Section Algorithms.
Context {E : ElemType} {Q : Quiet}.
Implicit Types (B : gmap nat (list slot)) (l : list slot) (m : Mem) (p : ptr).

Lemma uninitialized_value_construct_loop_wp n :
  ∀ b j d1 ys hole d2 k m (ok : unit → Mem → Prop) (bad : Mem → Prop),
  block_of b m = d1 ++ (Some <$> ys) ++ hole ++ d2 →
  j = length d1 → k = length ys → length hole = n →
  (∀ m', blocks m' = set_block b (d1 ++ (Some <$> ys ++ replicate n value_init) ++ d2)
                       (blocks m) → ok () m') →
  (∀ m' ws, length ws = k + n →
     blocks m' = set_block b (d1 ++ ws ++ d2) (blocks m) → bad m') →
  spec quiet (uninitialized_value_construct_loop (Ptr b j) n k) m ok bad.
Proof.
  induction n as [|n IH];
    intros b j d1 ys hole d2 k m ok bad Hd -> -> Hh Hok Hbad; simpl.
  - apply spec_ret, Hok. symmetry. apply set_block_block_of.
    destruct hole; [|discriminate].
    rewrite Hd. same_list.
  - destruct hole as [|h hole]; [discriminate|]. simpl in Hh.
    assert (Hd2 : block_of b m = (d1 ++ (Some <$> ys)) ++ h :: hole ++ d2).
    { rewrite Hd, <- app_assoc. reflexivity. }
    pose proof (block_of_middle _ _ _ _ _ Hd2) as Hd'.
    apply spec_bind, spec_on_throw.
    eapply T_value_construct_wp.
    + exact Hd'.
    + unfold ptr_add. simpl. rewrite length_app, length_fmap. reflexivity.
    + simpl. intros m1 H1.
      eapply (IH _ _ d1 (ys ++ [value_init]) hole d2);
        cbn [blk off]; [ | reflexivity | | | |].
      * erewrite block_of_set; [|exact H1|eauto]. same_list.
      * rewrite length_app. simpl. lia.
      * lia.
      * intros m' H'. apply Hok. rewrite H', H1, set_block_twice.
        f_equal. same_list.
      * intros m' ws Hw H'. apply (Hbad m' ws); [simpl; lia|].
        rewrite H', H1, set_block_twice. reflexivity.
    + intros m1 H1.
      eapply (destroy_n_wp ys _ _ _ d1 (h :: hole ++ d2)); [reflexivity | | reflexivity |].
      * unfold block_of. rewrite H1. exact Hd.
      * intros m' H'. apply (Hbad m' (replicate (length ys) None ++ h :: hole)).
        { rewrite length_app, length_replicate. simpl. lia. }
        rewrite H', H1. f_equal. same_list.
Qed.

Lemma uninitialized_value_construct_n_wp n b j d1 hole d2 m
    (ok : unit → Mem → Prop) (bad : Mem → Prop) :
  block_of b m = d1 ++ hole ++ d2 → j = length d1 → length hole = n →
  (∀ m', blocks m' = set_block b (d1 ++ (Some <$> replicate n value_init) ++ d2)
                       (blocks m) → ok () m') →
  (∀ m' ws, length ws = n →
     blocks m' = set_block b (d1 ++ ws ++ d2) (blocks m) → bad m') →
  spec quiet (uninitialized_value_construct_n (Ptr b j) n) m ok bad.
Proof.
  intros Hd Hj Hh Hok Hbad. unfold uninitialized_value_construct_n.
  eapply (uninitialized_value_construct_loop_wp n _ _ d1 [] hole d2); eauto.
Qed.

(** [copy_n] between two blocks. *)
Lemma copy_n_wp xs :
  ∀ n bs i s1 s2 bd j d1 old d2 m (ok : unit → Mem → Prop) (bad : Mem → Prop),
  n = length xs → bs ≠ bd →
  block_of bs m = s1 ++ (Some <$> xs) ++ s2 → i = length s1 →
  block_of bd m = d1 ++ (Some <$> old) ++ d2 → j = length d1 → length old = n →
  (∀ m', blocks m' = set_block bd (d1 ++ (Some <$> xs) ++ d2) (blocks m) → ok () m') →
  (∀ m' zs, length zs = n →
     blocks m' = set_block bd (d1 ++ (Some <$> zs) ++ d2) (blocks m) → bad m') →
  spec quiet (copy_n (Ptr bs i) n (Ptr bd j)) m ok bad.
Proof.
  induction xs as [|x xs IH];
    intros n bs i s1 s2 bd j d1 old d2 m ok bad -> Hne Hs -> Hd -> Hh Hok Hbad; simpl.
  - apply spec_ret, Hok. symmetry. apply set_block_block_of.
    destruct old; [|discriminate]. exact Hd.
  - destruct old as [|y old]; [discriminate|]. simpl in Hh.
    simpl in Hs. pose proof (block_of_middle _ _ _ _ _ Hs) as Hs'.
    simpl in Hd. pose proof (block_of_middle _ _ _ _ _ Hd) as Hd'.
    apply spec_bind.
    eapply T_copy_assign_wp.
    + eapply slot_at_middle; [exact Hs' | reflexivity].
    + exact Hd'.
    + reflexivity.
    + simpl. intros m1 H1.
      eapply (IH _ _ _ (s1 ++ [Some x]) s2 _ _ (d1 ++ [Some x]) old d2);
        cbn [blk off]; [reflexivity | exact Hne | | | | | | |].
      * erewrite block_of_set_ne; [|exact H1|exact Hne].
        rewrite Hs. same_list.
      * rewrite length_app. simpl. reflexivity.
      * erewrite block_of_set; [|exact H1|eauto]. same_list.
      * rewrite length_app. simpl. reflexivity.
      * lia.
      * intros m' H'. apply Hok. rewrite H', H1, set_block_twice.
        f_equal. same_list.
      * intros m' zs Hz H'. apply (Hbad m' (x :: zs)); [simpl; lia|].
        rewrite H', H1, set_block_twice. f_equal. same_list.
    + intros m1 H1. apply (Hbad m1 (y :: old)); [simpl; lia|].
      rewrite H1. symmetry. apply set_block_block_of. exact Hd.
Qed.

(** [copy_n] from the next slot on: a shift to the left by copies. *)
Lemma copy_n_left_wp xs :
  ∀ n b i j l1 y l2 m (ok : unit → Mem → Prop) (bad : Mem → Prop),
  n = length xs →
  block_of b m = l1 ++ Some y :: (Some <$> xs) ++ l2 →
  j = length l1 → i = S j →
  (∀ m' z, blocks m' = set_block b (l1 ++ (Some <$> xs) ++ Some z :: l2) (blocks m) →
           ok () m') →
  (∀ m' zs, length zs = S n →
     blocks m' = set_block b (l1 ++ (Some <$> zs) ++ l2) (blocks m) → bad m') →
  spec quiet (copy_n (Ptr b i) n (Ptr b j)) m ok bad.
Proof.
  induction xs as [|x xs IH];
    intros n b i j l1 y l2 m ok bad -> Hb -> -> Hok Hbad; simpl.
  - apply spec_ret, (Hok m y). symmetry. apply set_block_block_of. exact Hb.
  - simpl in Hb. pose proof (block_of_middle _ _ _ _ _ Hb) as Hb'.
    apply spec_bind.
    eapply T_copy_assign_left_wp.
    + reflexivity.
    + exact Hb'.
    + reflexivity.
    + reflexivity.
    + simpl. intros m1 H1.
      eapply (IH _ _ _ _ (l1 ++ [Some x]) x l2);
        cbn [blk off]; [reflexivity | | | | |].
      * erewrite block_of_set; [|exact H1|eauto]. same_list.
      * rewrite ?length_app. simpl. lia.
      * rewrite ?length_app. simpl. lia.
      * intros m' z H'. apply (Hok m' z). rewrite H', H1, set_block_twice.
        f_equal. same_list.
      * intros m' zs Hz H'. apply (Hbad m' (x :: zs)); [simpl; lia|].
        rewrite H', H1, set_block_twice. f_equal. same_list.
    + intros m1 H1. apply (Hbad m1 (y :: x :: xs)); [simpl; lia|].
      rewrite H1. symmetry. apply set_block_block_of. rewrite Hb. same_list.
Qed.

(** [move_n] from the next slot on: a shift to the left by moves. *)
Lemma move_n_left_wp xs :
  ∀ n b i j l1 y l2 m (ok : unit → Mem → Prop) (bad : Mem → Prop),
  n = length xs →
  block_of b m = l1 ++ Some y :: (Some <$> xs) ++ l2 →
  j = length l1 → i = S j →
  (∀ m' z, blocks m' = set_block b (l1 ++ (Some <$> xs) ++ Some z :: l2) (blocks m) →
           ok () m') →
  (∀ m' zs, length zs = S n →
     blocks m' = set_block b (l1 ++ (Some <$> zs) ++ l2) (blocks m) → bad m') →
  spec quiet (move_n (Ptr b i) n (Ptr b j)) m ok bad.
Proof.
  induction xs as [|x xs IH];
    intros n b i j l1 y l2 m ok bad -> Hb -> -> Hok Hbad; simpl.
  - apply spec_ret, (Hok m y). symmetry. apply set_block_block_of. exact Hb.
  - simpl in Hb. pose proof (block_of_middle _ _ _ _ _ Hb) as Hb'.
    apply spec_bind.
    eapply T_move_assign_left_wp.
    + reflexivity.
    + exact Hb'.
    + reflexivity.
    + reflexivity.
    + simpl. intros m1 H1.
      eapply (IH _ _ _ _ (l1 ++ [Some x]) (moved_from x) l2);
        cbn [blk off]; [reflexivity | | | | |].
      * erewrite block_of_set; [|exact H1|eauto]. same_list.
      * rewrite ?length_app. simpl. lia.
      * rewrite ?length_app. simpl. lia.
      * intros m' z H'. apply (Hok m' z). rewrite H', H1, set_block_twice.
        f_equal. same_list.
      * intros m' zs Hz H'. apply (Hbad m' (x :: zs)); [simpl; lia|].
        rewrite H', H1, set_block_twice. f_equal. same_list.
    + intros m1 H1. apply (Hbad m1 (y :: x :: xs)); [simpl; lia|].
      rewrite H1. symmetry. apply set_block_block_of. rewrite Hb. same_list.
Qed.

(** [move_backward_n]: a shift to the right by moves, last element first. *)
Lemma move_backward_n_wp xs :
  ∀ n b i j l1 y l2 m (ok : unit → Mem → Prop) (bad : Mem → Prop),
  n = length xs →
  block_of b m = l1 ++ (Some <$> xs) ++ Some y :: l2 →
  i = length l1 + n → j = S i →
  (∀ m' z, blocks m' = set_block b (l1 ++ Some z :: (Some <$> xs) ++ l2) (blocks m) →
           ok () m') →
  (∀ m' zs, length zs = S n →
     blocks m' = set_block b (l1 ++ (Some <$> zs) ++ l2) (blocks m) → bad m') →
  spec quiet (move_backward_n n (Ptr b i) (Ptr b j)) m ok bad.
Proof.
  induction xs as [|x xs IH] using rev_ind;
    intros n b i j l1 y l2 m ok bad -> Hb -> -> Hok Hbad.
  - simpl. apply spec_ret, (Hok m y). symmetry. apply set_block_block_of. exact Hb.
  - rewrite length_app. simpl. replace (length xs + 1) with (S (length xs)) by lia.
    simpl.
    assert (Hb2 : block_of b m = (l1 ++ (Some <$> xs)) ++ Some x :: Some y :: l2).
    { rewrite Hb. same_list. }
    pose proof (block_of_middle _ _ _ _ _ Hb2) as Hb'.
    apply spec_bind, ptr_back_wp; [simpl; lia|].
    apply spec_bind, ptr_back_wp; [simpl; lia|].
    apply spec_bind. cbn [blk off].
    eapply T_move_assign_right_wp.
    + reflexivity.
    + exact Hb'.
    + simpl. rewrite length_app, length_fmap. lia.
    + simpl. rewrite length_app, length_fmap. lia.
    + simpl. intros m1 H1.
      eapply (IH _ _ _ _ l1 (moved_from x) (Some x :: l2));
        [reflexivity | | | | |].
      * erewrite block_of_set; [|exact H1|eauto]. same_list.
      * lia.
      * lia.
      * intros m' z H'. apply (Hok m' z). rewrite H', H1, set_block_twice.
        f_equal. same_list.
      * intros m' zs Hz H'.
        destruct (decide (zs = [])) as [->|Hnil]; [discriminate|].
        apply (Hbad m' (zs ++ [x])); [rewrite !length_app; simpl; lia|].
        rewrite H', H1, set_block_twice. f_equal. same_list.
    + intros m1 H1. apply (Hbad m1 (xs ++ [x; y])); [rewrite !length_app; simpl; lia|].
      rewrite H1. symmetry. apply set_block_block_of. rewrite Hb. same_list.
Qed.

(** The iterator-pair forms. *)
Lemma uninitialized_copy_wp xs n bs i i' s1 s2 bd j d1 hole d2 m
    (ok : unit → Mem → Prop) (bad : Mem → Prop) :
  n = length xs → bs ≠ bd → i' = i + n →
  block_of bs m = s1 ++ (Some <$> xs) ++ s2 → i = length s1 →
  block_of bd m = d1 ++ hole ++ d2 → j = length d1 → length hole = n →
  (∀ m', blocks m' = set_block bd (d1 ++ (Some <$> xs) ++ d2) (blocks m) → ok () m') →
  (∀ m' ws, length ws = n →
     blocks m' = set_block bd (d1 ++ ws ++ d2) (blocks m) → bad m') →
  spec quiet (uninitialized_copy (Ptr bs i) (Ptr bs i') (Ptr bd j)) m ok bad.
Proof.
  intros Hn Hne -> Hs Hi Hd Hj Hh Hok Hbad. unfold uninitialized_copy.
  apply spec_bind, ptr_diff_wp; [reflexivity | simpl; lia |]. simpl.
  replace (i + n - i) with n by lia.
  eapply uninitialized_copy_n_wp; eauto.
Qed.

Lemma uninitialized_move_wp xs n bs i i' s1 s2 bd j d1 hole d2 m
    (ok : unit → Mem → Prop) (bad : Mem → Prop) :
  n = length xs → bs ≠ bd → i' = i + n →
  block_of bs m = s1 ++ (Some <$> xs) ++ s2 → i = length s1 →
  block_of bd m = d1 ++ hole ++ d2 → j = length d1 → length hole = n →
  (∀ m', blocks m' = set_block bs (s1 ++ (Some <$> (moved_from <$> xs)) ++ s2)
                      (set_block bd (d1 ++ (Some <$> xs) ++ d2) (blocks m)) →
         ok () m') →
  (∀ m' zs ws, length zs = n → length ws = n →
     blocks m' = set_block bs (s1 ++ (Some <$> zs) ++ s2)
                   (set_block bd (d1 ++ ws ++ d2) (blocks m)) → bad m') →
  spec quiet (uninitialized_move (Ptr bs i) (Ptr bs i') (Ptr bd j)) m ok bad.
Proof.
  intros Hn Hne -> Hs Hi Hd Hj Hh Hok Hbad. unfold uninitialized_move.
  apply spec_bind, ptr_diff_wp; [reflexivity | simpl; lia |]. simpl.
  replace (i + n - i) with n by lia.
  eapply uninitialized_move_n_wp; eauto.
Qed.

Lemma std_copy_left_wp xs n b i i' j l1 y l2 m
    (ok : unit → Mem → Prop) (bad : Mem → Prop) :
  n = length xs → i' = i + n →
  block_of b m = l1 ++ Some y :: (Some <$> xs) ++ l2 →
  j = length l1 → i = S j →
  (∀ m' z, blocks m' = set_block b (l1 ++ (Some <$> xs) ++ Some z :: l2) (blocks m) →
           ok () m') →
  (∀ m' zs, length zs = S n →
     blocks m' = set_block b (l1 ++ (Some <$> zs) ++ l2) (blocks m) → bad m') →
  spec quiet (std_copy (Ptr b i) (Ptr b i') (Ptr b j)) m ok bad.
Proof.
  intros Hn -> Hb Hj Hi Hok Hbad. unfold std_copy.
  apply spec_bind, ptr_diff_wp; [reflexivity | simpl; lia |]. simpl.
  replace (i + n - i) with n by lia.
  eapply copy_n_left_wp; eauto.
Qed.

Lemma std_move_left_wp xs n b i i' j l1 y l2 m
    (ok : unit → Mem → Prop) (bad : Mem → Prop) :
  n = length xs → i' = i + n →
  block_of b m = l1 ++ Some y :: (Some <$> xs) ++ l2 →
  j = length l1 → i = S j →
  (∀ m' z, blocks m' = set_block b (l1 ++ (Some <$> xs) ++ Some z :: l2) (blocks m) →
           ok () m') →
  (∀ m' zs, length zs = S n →
     blocks m' = set_block b (l1 ++ (Some <$> zs) ++ l2) (blocks m) → bad m') →
  spec quiet (std_move (Ptr b i) (Ptr b i') (Ptr b j)) m ok bad.
Proof.
  intros Hn -> Hb Hj Hi Hok Hbad. unfold std_move.
  apply spec_bind, ptr_diff_wp; [reflexivity | simpl; lia |]. simpl.
  replace (i + n - i) with n by lia.
  eapply move_n_left_wp; eauto.
Qed.

Lemma move_backward_wp xs n b i0 i j l1 y l2 m
    (ok : unit → Mem → Prop) (bad : Mem → Prop) :
  n = length xs →
  block_of b m = l1 ++ (Some <$> xs) ++ Some y :: l2 →
  i0 = length l1 → i = i0 + n → j = S i →
  (∀ m' z, blocks m' = set_block b (l1 ++ Some z :: (Some <$> xs) ++ l2) (blocks m) →
           ok () m') →
  (∀ m' zs, length zs = S n →
     blocks m' = set_block b (l1 ++ (Some <$> zs) ++ l2) (blocks m) → bad m') →
  spec quiet (move_backward (Ptr b i0) (Ptr b i) (Ptr b j)) m ok bad.
Proof.
  intros Hn Hb -> -> -> Hok Hbad. unfold move_backward.
  apply spec_bind, ptr_diff_wp; [reflexivity | simpl; lia |]. simpl.
  replace (length l1 + n - length l1) with n by lia.
  eapply move_backward_n_wp; eauto.
Qed.

End Algorithms.

Section RawBuffers.
Context {E : ElemType} {Q : Quiet}.
Implicit Types (B : gmap nat (list slot)) (l : list slot) (m : Mem) (p : ptr).

Lemma new_block_fresh m :
  let a := fresh (dom (blocks m) ∪ {[0]}) in
  a ≠ 0 ∧ blocks m !! a = None.
Proof.
  intros a. pose proof (is_fresh (dom (blocks m) ∪ {[0]})) as Hf.
  fold a in Hf. split.
  - intros H0. apply Hf. rewrite H0. set_solver.
  - apply not_elem_of_dom. set_solver.
Qed.

Lemma RawMemory_new_wp capacity m (ok : RawMemory → Mem → Prop) (bad : Mem → Prop) :
  capacity ≠ 0 →
  (∀ a m', a ≠ 0 → blocks m !! a = None →
     blocks m' = <[a := replicate capacity None]> (blocks m) →
     ok (MkRaw a capacity) m') →
  (∀ m', blocks m' = blocks m → bad m') →
  spec quiet (RawMemory_new capacity) m ok bad.
Proof.
  intros Hc Hok Hbad. unfold RawMemory_new, Allocate.
  destruct (decide _) as [_|]; [|tauto].
  apply spec_bind, spec_bind, fire_wp; [|exact Hbad].
  intros m1 H1. unfold spec, new_block. simpl. split; [|tauto].
  destruct (new_block_fresh m1) as [H0 Hf].
  apply spec_ret with (q := quiet) (bad := bad).
  apply Hok; simpl; rewrite <- ?H1; auto.
Qed.

Lemma RawMemory_new_0_wp m (ok : RawMemory → Mem → Prop) (bad : Mem → Prop) :
  ok (MkRaw 0 0) m → spec quiet (RawMemory_new 0) m ok bad.
Proof. intros H. unfold spec. simpl. split; [exact H | tauto]. Qed.

Lemma Deallocate_wp buf m (ok : unit → Mem → Prop) (bad : Mem → Prop) :
  wf_mem m → buf = 0 ∨ is_Some (blocks m !! buf) →
  (∀ m', blocks m' = delete buf (blocks m) → ok () m') →
  spec quiet (Deallocate buf) m ok bad.
Proof.
  intros Hw Hb Hok. unfold spec, Deallocate.
  destruct (decide (buf = 0)) as [->|Hne].
  - split; [|tauto]. apply Hok. symmetry. apply delete_id. exact Hw.
  - destruct Hb as [?|[l Hl]]; [tauto|]. rewrite Hl. simpl.
    split; [|tauto]. apply Hok. reflexivity.
Qed.

Lemma RawMemory_delete_wp r m (ok : unit → Mem → Prop) (bad : Mem → Prop) :
  wf_mem m → buffer_ r = 0 ∨ is_Some (blocks m !! buffer_ r) →
  (∀ m', blocks m' = delete (buffer_ r) (blocks m) → ok () m') →
  spec quiet (RawMemory_delete r) m ok bad.
Proof. apply Deallocate_wp. Qed.

Lemma RawMemory_plus_wp r offset m (ok : ptr → Mem → Prop) (bad : Mem → Prop) :
  offset ≤ capacity_ r → ok (Ptr (buffer_ r) offset) m →
  spec quiet (RawMemory_plus r offset) m ok bad.
Proof.
  intros Ho Hok. unfold RawMemory_plus.
  apply spec_bind, spec_assert; [apply bool_decide_eq_true_2, Ho|].
  apply spec_ret, Hok.
Qed.

Lemma RawMemory_at_wp r index m (ok : ptr → Mem → Prop) (bad : Mem → Prop) :
  index < capacity_ r → ok (Ptr (buffer_ r) index) m →
  spec quiet (RawMemory_at r index) m ok bad.
Proof.
  intros Ho Hok. unfold RawMemory_at.
  apply spec_bind, spec_assert; [apply bool_decide_eq_true_2, Ho|].
  apply spec_ret, Hok.
Qed.

Lemma T_make_wp vs x m (ok : T → Mem → Prop) (bad : Mem → Prop) :
  arg_value vs m = Some x →
  (∀ m', blocks m' = blocks m → ok x m') →
  (∀ m', blocks m' = blocks m → bad m') →
  spec quiet (T_make vs) m ok bad.
Proof.
  intros Hv Hok Hbad. destruct vs as [a|p|y]; simpl in *.
  - injection Hv as <-. apply spec_bind, fire_wp; [|exact Hbad].
    intros m1 H1. apply spec_ret, Hok, H1.
  - apply spec_bind, load_wp with x.
    { destruct (slot_at p m) as [[y|]|]; simpl in Hv; congruence. }
    apply spec_bind, fire_wp; [|exact Hbad].
    intros m1 H1. apply spec_ret, Hok, H1.
  - injection Hv as <-. apply spec_bind, fire_wp; [|exact Hbad].
    intros m1 H1. apply spec_ret, Hok, H1.
Qed.

Lemma arg_value_blocks vs m m' :
  blocks m' = blocks m → arg_value vs m' = arg_value vs m.
Proof.
  intros H. destruct vs; simpl; try reflexivity.
  unfold slot_at. rewrite H. reflexivity.
Qed.

Lemma T_construct_wp dst vs x m l1 s l2 (ok : unit → Mem → Prop) (bad : Mem → Prop) :
  arg_value vs m = Some x →
  blocks m !! blk dst = Some (l1 ++ s :: l2) → off dst = length l1 →
  (∀ m', blocks m' = set_block (blk dst) (l1 ++ Some x :: l2) (blocks m) → ok () m') →
  (∀ m', blocks m' = blocks m → bad m') →
  spec quiet (T_construct dst vs) m ok bad.
Proof.
  intros Hv Hb Ho Hok Hbad. unfold T_construct.
  apply spec_bind. eapply T_make_wp; [exact Hv| |exact Hbad].
  intros m1 H1. eapply place_wp; [rewrite H1; eauto | eauto |].
  intros m' H'. apply Hok. rewrite H', H1. reflexivity.
Qed.

(** *** Member functions: the plumbing *)

Implicit Types (v : Vector).

Lemma lift_wp {A} (c : M A) v m (ok : A → Vector * Mem → Prop) (bad : Vector * Mem → Prop) :
  spec quiet c m (λ a m', ok a (v, m')) (λ m', bad (v, m')) →
  spec quiet (lift c) (v, m) ok bad.
Proof.
  unfold spec, lift. simpl. destruct (c m) as [[a| |] m']; simpl; auto.
Qed.

Lemma get_this_wp v m (ok : Vector → Vector * Mem → Prop) (bad : Vector * Mem → Prop) :
  ok v (v, m) → spec quiet get_this (v, m) ok bad.
Proof. intros H. unfold spec, get_this. simpl. split; [exact H | tauto]. Qed.

Lemma set_data_wp d v m (ok : unit → Vector * Mem → Prop) (bad : Vector * Mem → Prop) :
  ok () (MkVector d (size_ v), m) → spec quiet (set_data d) (v, m) ok bad.
Proof. intros H. unfold spec, set_data. simpl. split; [exact H | tauto]. Qed.

Lemma set_size_wp n v m (ok : unit → Vector * Mem → Prop) (bad : Vector * Mem → Prop) :
  ok () (MkVector (data_ v) n, m) → spec quiet (set_size n) (v, m) ok bad.
Proof. intros H. unfold spec, set_size. simpl. split; [exact H | tauto]. Qed.

Lemma Vector_begin_wp v m (ok : ptr → Vector * Mem → Prop) (bad : Vector * Mem → Prop) :
  ok (Ptr (buffer_ (data_ v)) 0) (v, m) → spec quiet Vector_begin (v, m) ok bad.
Proof.
  intros H. unfold Vector_begin. apply spec_bind, get_this_wp, spec_ret, H.
Qed.

Lemma Vector_end_wp v m (ok : ptr → Vector * Mem → Prop) (bad : Vector * Mem → Prop) :
  size_ v ≤ capacity_ (data_ v) →
  ok (Ptr (buffer_ (data_ v)) (size_ v)) (v, m) → spec quiet Vector_end (v, m) ok bad.
Proof.
  intros Hle H. unfold Vector_end. apply spec_bind, get_this_wp.
  apply lift_wp, RawMemory_plus_wp; [exact Hle | exact H].
Qed.

End RawBuffers.

Ltac blocks_simpl :=
  repeat first
    [ progress set_blocks_norm
    | match goal with
      | H : ?B !! ?k = _ |- context [?B !! ?k] => rewrite H
      end
    | progress simpl ].

Section AppendMember.
Context {E : ElemType} {Q : Quiet}.
Implicit Types (B : gmap nat (list slot)) (l : list slot) (m : Mem) (p : ptr) (v : Vector).

Lemma grown_pos n : grown n ≠ 0.
Proof. unfold grown. destruct (decide _); lia. Qed.

Lemma grown_gt n : n < grown n.
Proof. unfold grown. destruct (decide _); lia. Qed.

Lemma replicate_split {A} (x : A) (i n : nat) :
  i < n → replicate n x = replicate i x ++ x :: replicate (n - S i) x.
Proof.
  intros H. replace n with (i + S (n - S i)) at 1 by lia.
  rewrite replicate_add. reflexivity.
Qed.


Lemma holds_blocks v m m' xs rest :
  holds v m xs rest → blocks m' = blocks m → holds v m' xs rest.
Proof.
  intros (Hb & Hl & Hc & Hbuf) H. unfold holds, block_of in *. rewrite H. auto.
Qed.

Lemma safe_same v m m' xs rest :
  holds v m' xs rest → wf_mem m' →
  (∀ a, a ≠ buffer_ (data_ v) → is_Some (blocks m !! a) →
        blocks m' !! a = blocks m !! a) →
  safe v m v m'.
Proof.
  intros Hh Hw Hf. repeat split; eauto.
  - exists xs, rest. exact Hh.
Qed.

Lemma safe_blocks v m m' xs rest :
  holds v m xs rest → wf_mem m → blocks m' = blocks m → safe v m v m'.
Proof.
  intros Hh Hw H. eapply safe_same.
  - eapply holds_blocks; eauto.
  - unfold wf_mem. rewrite H. exact Hw.
  - intros a _ _. rewrite H. reflexivity.
Qed.

(** An argument that can be read stays readable, with the same value, when
    a block is added at an unused address. *)
Lemma arg_value_fresh vs m m' a L x :
  arg_value vs m = Some x → blocks m !! a = None →
  blocks m' = <[a := L]> (blocks m) →
  arg_value vs m' = Some x.
Proof.
  intros Hv Hf H. destruct vs as [c|p|y]; simpl in *; try exact Hv.
  unfold slot_at in *. rewrite H.
  destruct (decide (blk p = a)) as [<-|Hne].
  - rewrite Hf in Hv. discriminate.
  - rewrite lookup_insert_ne by congruence. exact Hv.
Qed.

(** The end of every reallocation: destroy the old elements, exchange the
    buffers, release the old block. *)
Lemma swap_in_wp {A} buf n a cap' zs sz m (k : unit → VM A)
    (ok : A → Vector * Mem → Prop) (bad : Vector * Mem → Prop) :
  wf_mem m → buf = 0 ∨ is_Some (blocks m !! buf) →
  block_of buf m = Some <$> zs → length zs = n →
  (∀ m', blocks m' = delete buf (blocks m) →
         spec quiet (k ()) (MkVector (MkRaw a cap') sz, m') ok bad) →
  spec quiet
    (lift (destroy_n (Ptr buf 0) n) ≫= λ _,
     set_data (MkRaw a cap') ≫= λ _,
     lift (RawMemory_delete (MkRaw buf n)) ≫= k)
    (MkVector (MkRaw buf n) sz, m) ok bad.
Proof.
  intros Hw Hbuf Hb Hl Hk.
  apply spec_bind, lift_wp.
  eapply (destroy_n_wp zs n buf 0 [] []); [congruence | | reflexivity |].
  { rewrite app_nil_r. exact Hb. }
  simpl. intros m1 H1. apply spec_bind, set_data_wp. simpl.
  apply spec_bind, lift_wp, RawMemory_delete_wp.
  - unfold wf_mem. rewrite H1.
    destruct (decide (buf = 0)) as [->|Hne].
    + rewrite set_block_lookup, Hw. reflexivity.
    + rewrite set_block_lookup_ne by congruence. exact Hw.
  - simpl. destruct Hbuf as [?|[l Hs]]; [tauto|]. right.
    rewrite H1, set_block_lookup, Hs. simpl. eauto.
  - simpl. intros m2 H2. apply Hk. rewrite H2, H1.
    blocks_eq1 buf.
Qed.

(** The state after a reallocation into the fresh block at [a]. *)
Lemma grow_done buf n sz a cap' sz' m m' xs' rest' :
  wf_mem m → a ≠ 0 → blocks m !! a = None →
  buf = 0 ∨ is_Some (blocks m !! buf) →
  blocks m' = delete buf (<[a := (Some <$> xs') ++ rest']> (blocks m)) →
  length xs' = sz' → sz' + length rest' = cap' → n ≤ cap' →
  safe (MkVector (MkRaw buf n) sz) m (MkVector (MkRaw a cap') sz') m' ∧
  holds (MkVector (MkRaw a cap') sz') m' xs' rest'.
Proof.
  intros Hw Ha0 Hf Hbuf H' Hl Hc Hle.
  assert (Hab : buf ≠ a).
  { intros ->. destruct Hbuf as [?|[? Hs]]; [tauto|]. rewrite Hf in Hs. discriminate. }
  assert (Hh : holds (MkVector (MkRaw a cap') sz') m' xs' rest').
  { unfold holds, block_of. simpl. rewrite H'.
    rewrite lookup_delete_ne, lookup_insert_eq by congruence. simpl.
    repeat split; eauto. }
  split; [|exact Hh]. repeat split; simpl.
  - exists xs', rest'. exact Hh.
  - unfold wf_mem. rewrite H'.
    destruct (decide (buf = 0)) as [->|Hne].
    + apply lookup_delete_eq.
    + rewrite lookup_delete_ne, lookup_insert_ne by congruence. exact Hw.
  - intros k Hk [l Hs]. rewrite H'.
    rewrite lookup_delete_ne, lookup_insert_ne by congruence. reflexivity.
  - right. exact Hf.
  - exact Hle.
Qed.

Lemma EmplaceBack_wp vs x v m xs rest
    (ok : ptr → Vector * Mem → Prop) (bad : Vector * Mem → Prop) :
  wf_mem m → holds v m xs rest → arg_value vs m = Some x →
  (∀ v' m' rest',
     safe v m v' m' → holds v' m' (xs ++ [x]) rest' →
     capacity_ (data_ v') =
       (if decide (size_ v = capacity_ (data_ v)) then grown (size_ v)
        else capacity_ (data_ v)) →
     ok (Ptr (buffer_ (data_ v')) (length xs)) (v', m')) →
  (∀ m' xs',
     safe v m v m' → holds v m' xs' rest →
     (relocate_by_move = false → blocks m' = blocks m) →
     bad (v, m')) →
  spec quiet (EmplaceBack vs) (v, m) ok bad.
Proof.
  intros Hwm Hh Hv Hok Hbad.
  assert (Hbad0 : ∀ m', blocks m' = blocks m → bad (v, m')).
  { intros m' H'. apply (Hbad m' xs); [eapply safe_blocks | eapply holds_blocks |]; eauto. }
  destruct Hh as (Hblk & Hlen & Hcap & Hbuf).
  destruct v as [[buf cap] n]. simpl in *.
  unfold EmplaceBack. apply spec_bind, get_this_wp. simpl.
  apply spec_bind. destruct (decide (n = cap)) as [Hfull|Hroom].
  - (* the buffer is full *)
    assert (rest = []) as -> by (destruct rest; [reflexivity|simpl in Hcap; lia]).
    clear Hcap. subst cap. rewrite app_nil_r in Hblk.
    apply spec_bind, lift_wp, RawMemory_new_wp; [apply grown_pos| |exact Hbad0].
    intros a m1 Ha0 Hfresh H1. simpl.
    assert (Hab : buf ≠ a).
    { intros ->. destruct Hbuf as [?|[? Hs]]; [tauto|]. rewrite Hfresh in Hs. discriminate. }
    pose proof (grown_gt n) as Hgt.
    apply spec_bind, lift_wp, spec_on_throw.
    apply spec_bind, RawMemory_plus_wp; [simpl; lia|]. simpl.
    apply spec_bind.
    eapply (T_construct_wp _ _ x _ (replicate n None) None (replicate (grown n - S n) None)).
    { eapply arg_value_fresh; eauto. }
    { simpl. rewrite H1, lookup_insert_eq. f_equal. apply replicate_split. exact Hgt. }
    { simpl. rewrite length_replicate. reflexivity. }
    2:{ (* the constructor of the new element throws *)
      intros m2 H2. eapply (RawMemory_delete_wp (Q := Loud)).
      - unfold wf_mem. rewrite H2, H1, lookup_insert_ne by exact Ha0. exact Hwm.
      - right. simpl. rewrite H2, H1, lookup_insert_eq. eauto.
      - simpl. intros m3 H3. apply Hbad0. rewrite H3, H2, H1.
        apply delete_insert_id. exact Hfresh. }
    simpl. intros m2 H2. rewrite H1 in H2. rewrite <- (set_block_insert a _ (replicate (grown n) None)) in H2
      by apply lookup_insert_eq.
    rewrite insert_insert_eq in H2.
    apply spec_bind.
    destruct relocate_by_move eqn:Hmode.
    + (* relocation by move *)
      eapply (uninitialized_move_n_wp xs n buf 0 [] [] a 0 [] (replicate n None)
                (Some x :: replicate (grown n - S n) None)).
      { symmetry. exact Hlen. }
      { exact Hab. }
      { unfold block_of. rewrite H2, lookup_insert_ne by congruence.
        rewrite app_nil_r. exact Hblk. }
      { reflexivity. }
      { unfold block_of. rewrite H2, lookup_insert_eq. reflexivity. }
      { reflexivity. }
      { apply length_replicate. }
      * simpl. intros m3 H3. rewrite H2 in H3. apply spec_ret.
        eapply (swap_in_wp buf n a (grown n) (moved_from <$> xs)).
        { unfold wf_mem. rewrite H3. blocks_simpl.
          destruct (decide (buf = 0)) as [->|Hne]; blocks_simpl; [rewrite Hwm|]; auto. }
        { destruct Hbuf as [?|[l Hs]]; [tauto|]. right. rewrite H3. blocks_simpl. eauto. }
        { unfold block_of. rewrite H3. blocks_simpl.
          unfold block_of in Hblk. destruct (blocks m !! buf); simpl in *.
          - rewrite app_nil_r. reflexivity.
          - destruct xs; [reflexivity|discriminate]. }
        { rewrite length_fmap. exact Hlen. }
        intros m4 H4. apply spec_ret. apply spec_bind, get_this_wp.
        apply spec_bind, set_size_wp, spec_ret. simpl.
        destruct (grow_done buf n n a (grown n) (S n) m m4 (xs ++ [x])
                    (replicate (grown n - S n) None)) as [Hsafe Hholds]; auto.
        { rewrite H4, H3. blocks_eq2 a buf. }
        { rewrite length_app. simpl. lia. }
        { rewrite length_replicate. lia. }
        { lia. }
        rewrite <- Hlen.
        apply (Hok (MkVector (MkRaw a (grown (length xs))) (S (length xs))) m4
                   (replicate (grown n - S n) None)); subst n; auto.
      * (* a move constructor throws *)
        intros m3 zs ws Hz Hws H3. rewrite H2 in H3.
        eapply (RawMemory_delete_wp (Q := Loud)).
        { unfold wf_mem. rewrite H3.
          destruct (decide (buf = 0)) as [->|Hne]; blocks_simpl; [rewrite Hwm|]; auto. }
        { right. simpl. rewrite H3. blocks_simpl. eauto. }
        simpl. intros m4 H4.
        assert (H4' : blocks m4 = set_block buf (Some <$> zs) (blocks m)).
        { rewrite H4, H3. rewrite app_nil_r. blocks_eq2 a buf. }
        assert (Hh4 : holds (MkVector (MkRaw buf n) n) m4 zs []).
        { unfold holds, block_of. simpl. rewrite H4', set_block_lookup.
          unfold block_of in Hblk.
          destruct Hbuf as [->|[l Hs]].
          - rewrite Hwm in *. simpl in *. repeat split; auto; try lia.
            destruct xs; [|discriminate]. simpl in *. subst n.
            destruct zs; [reflexivity|discriminate].
          - rewrite Hs. simpl. rewrite app_nil_r. repeat split; eauto; lia. }
        apply (Hbad m4 zs); [|exact Hh4|discriminate].
        eapply safe_same; [exact Hh4| |].
        { unfold wf_mem. rewrite H4'.
          destruct (decide (buf = 0)) as [->|Hne]; blocks_simpl; [rewrite Hwm|]; auto. }
        { intros k Hk _. rewrite H4', set_block_lookup_ne by exact Hk. reflexivity. }
    + (* relocation by copy *)
      eapply (uninitialized_copy_n_wp xs n buf 0 [] [] a 0 [] (replicate n None)
                (Some x :: replicate (grown n - S n) None)).
      { symmetry. exact Hlen. }
      { exact Hab. }
      { unfold block_of. rewrite H2, lookup_insert_ne by congruence.
        rewrite app_nil_r. exact Hblk. }
      { reflexivity. }
      { unfold block_of. rewrite H2, lookup_insert_eq. reflexivity. }
      { reflexivity. }
      { apply length_replicate. }
      * simpl. intros m3 H3. rewrite H2 in H3. apply spec_ret.
        eapply (swap_in_wp buf n a (grown n) xs).
        { unfold wf_mem. rewrite H3. blocks_simpl. auto. }
        { destruct Hbuf as [?|[l Hs]]; [tauto|]. right. rewrite H3. blocks_simpl. eauto. }
        { unfold block_of. rewrite H3. blocks_simpl. exact Hblk. }
        { exact Hlen. }
        intros m4 H4. apply spec_ret. apply spec_bind, get_this_wp.
        apply spec_bind, set_size_wp, spec_ret. simpl.
        destruct (grow_done buf n n a (grown n) (S n) m m4 (xs ++ [x])
                    (replicate (grown n - S n) None)) as [Hsafe Hholds]; auto.
        { rewrite H4, H3. blocks_eq2 a buf. }
        { rewrite length_app. simpl. lia. }
        { rewrite length_replicate. lia. }
        { lia. }
        rewrite <- Hlen.
        apply (Hok (MkVector (MkRaw a (grown (length xs))) (S (length xs))) m4
                   (replicate (grown n - S n) None)); subst n; auto.
      * (* a copy constructor throws *)
        intros m3 ws Hws H3. rewrite H2 in H3.
        eapply (RawMemory_delete_wp (Q := Loud)).
        { unfold wf_mem. rewrite H3. blocks_simpl. auto. }
        { right. simpl. rewrite H3. blocks_simpl. eauto. }
        simpl. intros m4 H4. apply Hbad0. rewrite H4, H3. blocks_eq1 a.
  - (* there is room *)
    destruct rest as [|s rest]; [simpl in Hcap; lia|].
    pose proof (block_of_middle _ _ _ _ _ Hblk) as Hblk'.
    apply spec_bind, lift_wp, RawMemory_plus_wp; [simpl; lia|]. simpl.
    apply spec_bind, lift_wp.
    eapply T_construct_wp; [exact Hv | exact Hblk' | simpl; rewrite length_fmap; auto | |].
    2:{ intros m1 H1. apply Hbad0, H1. }
    simpl. intros m1 H1. apply spec_ret. apply spec_bind, get_this_wp.
    apply spec_bind, set_size_wp, spec_ret. simpl.
    assert (Hh1 : holds (MkVector (MkRaw buf cap) (S n)) m1 (xs ++ [x]) rest).
    { unfold holds, block_of. simpl. rewrite H1. blocks_simpl.
      repeat split.
      - same_list.
      - rewrite length_app. simpl. lia.
      - simpl in Hcap. lia.
      - right. blocks_simpl. eauto. }
    rewrite <- Hlen.
    apply (Hok (MkVector (MkRaw buf cap) (S (length xs))) m1 rest); subst n; auto.
    repeat split; simpl; auto.
    + exists (xs ++ [x]), rest. exact Hh1.
    + unfold wf_mem. rewrite H1.
      destruct (decide (buf = 0)) as [->|Hne]; blocks_simpl; [rewrite Hwm in Hblk'; discriminate|auto].
    + intros k Hk _. rewrite H1. blocks_simpl. reflexivity.
Qed.

End AppendMember.

Section EmplaceMember.
Context {E : ElemType} {Q : Quiet}.
Implicit Types (B : gmap nat (list slot)) (l : list slot) (m : Mem) (p : ptr) (v : Vector).

Lemma wf_mem_set_block b L m m' :
  wf_mem m → blocks m' = set_block b L (blocks m) → wf_mem m'.
Proof.
  unfold wf_mem. intros Hw ->. destruct (decide (b = 0)) as [->|Hne].
  - rewrite set_block_lookup, Hw. reflexivity.
  - rewrite set_block_lookup_ne by congruence. exact Hw.
Qed.

(** After the last element has been moved one slot to the right, an
    argument that could be read can still be read; it reads the same value
    unless it refers to the vector's own buffer. *)
Lemma arg_value_shifted vs x b l1 y s l2 m m' :
  arg_value vs m = Some x →
  blocks m !! b = Some (l1 ++ Some y :: s :: l2) →
  blocks m' = set_block b (l1 ++ Some (moved_from y) :: Some y :: l2) (blocks m) →
  ∃ x', arg_value vs m' = Some x' ∧
        (match vs with ByLvalue q => blk q ≠ b | _ => True end → x' = x).
Proof.
  intros Hv Hb H'. destruct vs as [c|q|z]; simpl in *; eauto.
  unfold slot_at in *. rewrite H'.
  destruct (decide (blk q = b)) as [Heq|Hne].
  - rewrite Heq, set_block_lookup, Hb in *. simpl in *.
    destruct (decide (off q < length l1)) as [Hlt|Hge].
    + rewrite lookup_app_l in * by exact Hlt. exists x. split; [exact Hv | tauto].
    + rewrite lookup_app_r in * by lia.
      destruct (off q - length l1) as [|[|k]] eqn:Hk; simpl in *.
      * exists (moved_from y). split; [reflexivity | tauto].
      * exists y. split; [reflexivity | tauto].
      * exists x. split; [exact Hv | tauto].
  - rewrite set_block_lookup_ne by exact Hne. exists x. split; [exact Hv | tauto].
Qed.


(** Rewriting the vector's own block, slot for slot. *)
Lemma holds_set_own v m m' xs rest zs rest' :
  holds v m xs rest → length zs = length xs → length rest' = length rest →
  blocks m' = set_block (buffer_ (data_ v)) ((Some <$> zs) ++ rest') (blocks m) →
  holds v m' zs rest'.
Proof.
  intros (Hb & Hl & Hc & Hbuf) Hz Hr H'. unfold holds, block_of in *.
  rewrite H', set_block_lookup. repeat split; try lia.
  - destruct (blocks m !! buffer_ (data_ v)); simpl in *; [reflexivity|].
    destruct xs; [|discriminate]. destruct rest; [|discriminate].
    destruct zs; [|discriminate]. destruct rest'; [|discriminate]. reflexivity.
  - destruct Hbuf as [?|[l Hs]]; [tauto|]. right. rewrite Hs. simpl. eauto.
Qed.

Lemma safe_set_own v m m' xs rest zs rest' :
  wf_mem m →
  holds v m xs rest → length zs = length xs → length rest' = length rest →
  blocks m' = set_block (buffer_ (data_ v)) ((Some <$> zs) ++ rest') (blocks m) →
  safe v m v m'.
Proof.
  intros Hw Hh Hz Hr H'. eapply safe_same.
  - eapply holds_set_own; eauto.
  - eapply wf_mem_set_block; eauto.
  - intros a Ha _. rewrite H', set_block_lookup_ne by exact Ha. reflexivity.
Qed.

Lemma Emplace_wp vs x v m xs1 xs2 rest
    (ok : ptr → Vector * Mem → Prop) (bad : Vector * Mem → Prop) :
  wf_mem m → holds v m (xs1 ++ xs2) rest → arg_value vs m = Some x →
  (∀ v' m' rest' x',
     safe v m v' m' → holds v' m' (xs1 ++ x' :: xs2) rest' →
     capacity_ (data_ v') =
       (if decide (size_ v = capacity_ (data_ v)) then grown (size_ v)
        else capacity_ (data_ v)) →
     (arg_outside vs v → x' = x) →
     ok (Ptr (buffer_ (data_ v')) (length xs1)) (v', m')) →
  (∀ m' xs' rest', safe v m v m' → holds v m' xs' rest' → bad (v, m')) →
  spec quiet (Emplace (Ptr (buffer_ (data_ v)) (length xs1)) vs) (v, m) ok bad.
Proof.
  intros Hwm Hh Hv Hok Hbad.
  assert (Hbad0 : ∀ m', blocks m' = blocks m → bad (v, m')).
  { intros m' H'. apply (Hbad m' (xs1 ++ xs2) rest);
      [eapply safe_blocks | eapply holds_blocks]; eauto. }
  assert (Hown : ∀ m' zs rest', length zs = length (xs1 ++ xs2) →
            length rest' = length rest →
            blocks m' = set_block (buffer_ (data_ v)) ((Some <$> zs) ++ rest') (blocks m) →
            bad (v, m')).
  { intros m' zs rest' Hz Hr H'. apply (Hbad m' zs rest').
    - eapply safe_set_own; eauto.
    - eapply holds_set_own; eauto. }
  pose proof Hh as (Hblk & Hlen & Hcap & Hbuf).
  destruct v as [[buf cap] n]. simpl in *.
  unfold Emplace.
  apply spec_bind, Vector_begin_wp.
  apply spec_bind, Vector_end_wp; [simpl; lia|]. simpl.
  apply spec_bind, spec_assert.
  { unfold ptr_le. simpl. rewrite !bool_decide_eq_true_2; auto; try lia.
    rewrite <- Hlen, length_app. lia. }
  destruct (decide (Ptr buf (length xs1) = Ptr buf n)) as [Hend|Hmid].
  { (* insertion at the end *)
    assert (xs2 = []) as ->.
    { injection Hend as Hend. rewrite <- Hlen, length_app in Hend.
      destruct xs2; [reflexivity | simpl in Hend; lia]. }
    rewrite app_nil_r in *.
    eapply EmplaceBack_wp; eauto. }
  assert (Hne2 : xs2 ≠ []).
  { intros ->. apply Hmid. rewrite app_nil_r in Hlen. rewrite Hlen. reflexivity. }
  apply spec_bind, lift_wp, ptr_diff_wp; [reflexivity | simpl; lia |].
  cbn [off]. rewrite Nat.sub_0_r.
  apply spec_bind, get_this_wp. simpl.
  apply spec_bind. destruct (decide (n = cap)) as [Hfull|Hroom].
  - (* the buffer is full *)
    assert (rest = []) as -> by (destruct rest; [reflexivity|simpl in Hcap; lia]).
    clear Hcap. subst cap. rewrite app_nil_r in Hblk.
    apply spec_bind, lift_wp, RawMemory_new_wp; [apply grown_pos| |exact Hbad0].
    intros a m1 Ha0 Hfresh H1. simpl.
    assert (Hab : buf ≠ a).
    { intros ->. destruct Hbuf as [?|[? Hs]]; [tauto|]. rewrite Hfresh in Hs. discriminate. }
    pose proof (grown_gt n) as Hgt.
    rewrite length_app in Hlen.
    assert (Hl2 : 0 < length xs2) by (destruct xs2; [tauto | simpl; lia]).
    apply spec_bind, lift_wp, spec_on_throw.
    apply spec_bind, RawMemory_plus_wp; [simpl; lia|]. simpl.
    apply spec_bind.
    eapply (T_construct_wp _ _ x _ (replicate (length xs1) None) None
              (replicate (grown n - S (length xs1)) None)).
    { eapply arg_value_fresh; eauto. }
    { simpl. rewrite H1, lookup_insert_eq. f_equal. apply replicate_split. lia. }
    { simpl. rewrite length_replicate. reflexivity. }
    2:{ (* the constructor of the new element throws *)
      intros m2 H2. eapply (RawMemory_delete_wp (Q := Loud)).
      - unfold wf_mem. rewrite H2, H1, lookup_insert_ne by exact Ha0. exact Hwm.
      - right. simpl. rewrite H2, H1, lookup_insert_eq. eauto.
      - simpl. intros m3 H3. apply Hbad0. rewrite H3, H2, H1.
        apply delete_insert_id. exact Hfresh. }
    simpl. intros m2 H2. rewrite H1 in H2.
    rewrite <- (set_block_insert a _ (replicate (grown n) None)) in H2
      by apply lookup_insert_eq.
    rewrite insert_insert_eq in H2.
    replace (replicate (grown n - S (length xs1)) None)
      with (replicate (length xs2) (@None T) ++ replicate (grown n - S n) None) in H2
      by (rewrite <- replicate_add; f_equal; lia).
    apply spec_bind.
    destruct relocate_by_move eqn:Hmode.
    + (* relocation by move *)
      apply spec_bind.
      eapply (uninitialized_move_wp xs1 (length xs1) buf 0 _ [] (Some <$> xs2)
                a 0 [] (replicate (length xs1) None)
                (Some x :: replicate (length xs2) None ++ replicate (grown n - S n) None)).
      { reflexivity. }
      { exact Hab. }
      { unfold ptr_add. simpl. reflexivity. }
      { unfold block_of. rewrite H2, lookup_insert_ne by congruence.
        fold (block_of buf m). rewrite Hblk. same_list. }
      { reflexivity. }
      { unfold block_of. rewrite H2, lookup_insert_eq. reflexivity. }
      { reflexivity. }
      { apply length_replicate. }
      * simpl. intros m3 H3. rewrite H2 in H3.
        eapply (uninitialized_move_wp xs2 (length xs2) buf _ _
                  (Some <$> (moved_from <$> xs1)) []
                  a _ ((Some <$> xs1) ++ [Some x])
                  (replicate (length xs2) None)
                  (replicate (grown n - S n) None)).
        { reflexivity. }
        { exact Hab. }
        { simpl. lia. }
        { unfold block_of. rewrite H3. blocks_simpl.
          unfold block_of in Hblk. destruct (blocks m !! buf); simpl in *.
          - same_list.
          - destruct xs1; [|discriminate]. destruct xs2; [tauto|discriminate]. }
        { simpl. rewrite !length_fmap. reflexivity. }
        { unfold block_of. rewrite H3. blocks_simpl. same_list. }
        { simpl. rewrite length_app, length_fmap. simpl. lia. }
        { apply length_replicate. }
        -- simpl. intros m4 H4. rewrite H3 in H4. apply spec_ret.
           eapply (swap_in_wp buf n a (grown n) ((moved_from <$> xs1) ++ (moved_from <$> xs2))).
           { unfold wf_mem. rewrite H4.
             destruct (decide (buf = 0)) as [->|Hne]; blocks_simpl; [rewrite Hwm|]; auto. }
           { destruct Hbuf as [?|[l Hs]]; [tauto|]. right. rewrite H4. blocks_simpl. eauto. }
           { unfold block_of. rewrite H4. blocks_simpl.
             unfold block_of in Hblk. destruct (blocks m !! buf); simpl in *.
             - same_list.
             - destruct xs1; [|discriminate]. destruct xs2; [tauto|discriminate]. }
           { rewrite length_app, !length_fmap. exact Hlen. }
           intros m5 H5. apply spec_ret. apply spec_bind, get_this_wp.
           apply spec_bind, set_size_wp, spec_ret. simpl.
           destruct (grow_done buf n n a (grown n) (S n) m m5 (xs1 ++ x :: xs2)
                       (replicate (grown n - S n) None)) as [Hsafe Hholds]; auto.
           { rewrite H5, H4. blocks_eq2 a buf. }
           { rewrite length_app. simpl. lia. }
           { rewrite length_replicate. lia. }
           { lia. }
           apply (Hok (MkVector (MkRaw a (grown n)) (S n)) m5
                      (replicate (grown n - S n) None) x); auto.
        -- (* a move constructor throws in the second half *)
           intros m4 zs ws Hz Hws H4. rewrite H3 in H4.
           eapply (RawMemory_delete_wp (Q := Loud)).
           { unfold wf_mem. rewrite H4.
             destruct (decide (buf = 0)) as [->|Hne]; blocks_simpl; [rewrite Hwm|]; auto. }
           { right. simpl. rewrite H4. blocks_simpl. eauto. }
           simpl. intros m5 H5.
           apply (Hown m5 ((moved_from <$> xs1) ++ zs) []).
           { rewrite !length_app, length_fmap. lia. }
           { reflexivity. }
           rewrite H5, H4. blocks_eq2 a buf.
      * (* a move constructor throws in the first half *)
        intros m3 zs ws Hz Hws H3. rewrite H2 in H3.
        eapply (RawMemory_delete_wp (Q := Loud)).
        { unfold wf_mem. rewrite H3.
          destruct (decide (buf = 0)) as [->|Hne]; blocks_simpl; [rewrite Hwm|]; auto. }
        { right. simpl. rewrite H3. blocks_simpl. eauto. }
        simpl. intros m4 H4.
        apply (Hown m4 (zs ++ xs2) []).
        { rewrite !length_app. lia. }
        { reflexivity. }
        rewrite H4, H3. blocks_eq2 a buf.
    + (* relocation by copy *)
      apply spec_bind, spec_on_throw.
      eapply (uninitialized_copy_wp xs1 (length xs1) buf 0 _ [] (Some <$> xs2)
                a 0 [] (replicate (length xs1) None)
                (Some x :: replicate (length xs2) None ++ replicate (grown n - S n) None)).
      { reflexivity. }
      { exact Hab. }
      { unfold ptr_add. simpl. reflexivity. }
      { unfold block_of. rewrite H2, lookup_insert_ne by congruence.
        fold (block_of buf m). rewrite Hblk. same_list. }
      { reflexivity. }
      { unfold block_of. rewrite H2, lookup_insert_eq. reflexivity. }
      { reflexivity. }
      { apply length_replicate. }
      * simpl. intros m3 H3. rewrite H2 in H3. apply spec_on_throw.
        eapply (uninitialized_copy_wp xs2 (length xs2) buf _ _
                  (Some <$> xs1) []
                  a _ ((Some <$> xs1) ++ [Some x])
                  (replicate (length xs2) None)
                  (replicate (grown n - S n) None)).
        { reflexivity. }
        { exact Hab. }
        { simpl. lia. }
        { unfold block_of. rewrite H3. blocks_simpl.
          fold (block_of buf m). rewrite Hblk. same_list. }
        { simpl. rewrite !length_fmap. reflexivity. }
        { unfold block_of. rewrite H3. blocks_simpl. same_list. }
        { simpl. rewrite length_app, length_fmap. simpl. lia. }
        { apply length_replicate. }
        -- simpl. intros m4 H4. rewrite H3 in H4. apply spec_ret.
           eapply (swap_in_wp buf n a (grown n) (xs1 ++ xs2)).
           { unfold wf_mem. rewrite H4. blocks_simpl. auto. }
           { destruct Hbuf as [?|[l Hs]]; [tauto|]. right. rewrite H4. blocks_simpl. eauto. }
           { unfold block_of. rewrite H4. blocks_simpl. exact Hblk. }
           { rewrite length_app. exact Hlen. }
           intros m5 H5. apply spec_ret. apply spec_bind, get_this_wp.
           apply spec_bind, set_size_wp, spec_ret. simpl.
           destruct (grow_done buf n n a (grown n) (S n) m m5 (xs1 ++ x :: xs2)
                       (replicate (grown n - S n) None)) as [Hsafe Hholds]; auto.
           { rewrite H5, H4. blocks_eq2 a buf. }
           { rewrite length_app. simpl. lia. }
           { rewrite length_replicate. lia. }
           { lia. }
           apply (Hok (MkVector (MkRaw a (grown n)) (S n)) m5
                      (replicate (grown n - S n) None) x); auto.
        -- (* a copy constructor throws in the second half *)
           intros m4 ws Hws H4. rewrite H3 in H4.
           eapply (destroy_n_wp (Q := Loud) (xs1 ++ [x]) _ a 0 []
                     (ws ++ replicate (grown n - S n) None)).
           { rewrite length_app. simpl. reflexivity. }
           { unfold block_of. rewrite H4. blocks_simpl. same_list. }
           { reflexivity. }
           simpl. intros m5 H5. rewrite H4 in H5.
           eapply (RawMemory_delete_wp (Q := Loud)).
           { unfold wf_mem. rewrite H5. blocks_simpl. auto. }
           { right. simpl. rewrite H5. blocks_simpl. eauto. }
           simpl. intros m6 H6. apply Hbad0. rewrite H6, H5. blocks_eq1 a.
      * (* a copy constructor throws in the first half *)
        intros m3 ws Hws H3. rewrite H2 in H3.
        eapply (T_destroy_wp (Q := Loud) _ _ ws x
                  (replicate (length xs2) None ++ replicate (grown n - S n) None)).
        { simpl. rewrite H3. blocks_simpl. reflexivity. }
        { simpl. lia. }
        simpl. intros m4 H4. rewrite H3 in H4.
        eapply (RawMemory_delete_wp (Q := Loud)).
        { unfold wf_mem. rewrite H4. blocks_simpl. auto. }
        { right. simpl. rewrite H4. blocks_simpl. eauto. }
        simpl. intros m5 H5. apply Hbad0. rewrite H5, H4. blocks_eq1 a.
  - (* there is room: shift the tail one slot to the right *)
    destruct rest as [|s rest]; [simpl in Hcap; lia|].
    destruct xs2 as [|y mid _] using rev_ind; [tauto|]. clear Hne2.
    rewrite !length_app in Hlen. simpl in Hlen, Hcap.
    assert (Hblk1 : block_of buf m =
              (Some <$> xs1 ++ mid) ++ Some y :: s :: rest).
    { rewrite Hblk. same_list. }
    pose proof (block_of_middle _ _ _ _ _ Hblk1) as Hblk'.
    apply lift_wp.
    apply spec_bind, RawMemory_plus_wp; [simpl; lia|]. simpl.
    apply spec_bind, ptr_back_wp; [simpl; lia|]. simpl.
    apply spec_bind.
    eapply T_move_construct_next_wp; [reflexivity | exact Hblk' | | | |exact Hbad0].
    { simpl. rewrite length_fmap, length_app. lia. }
    { simpl. rewrite length_fmap, length_app. lia. }
    simpl. intros m1 H1.
    destruct (arg_value_shifted vs x buf _ _ _ _ m m1 Hv Hblk' H1) as (x' & Hv' & Hx').
    assert (Hown1 : ∀ m' zs, length zs = S (length mid) →
              blocks m' = set_block buf ((Some <$> xs1) ++ (Some <$> zs) ++ Some y :: rest)
                            (blocks m) →
              bad (MkVector (MkRaw buf cap) n, m')).
    { intros m' zs Hz H'. apply (Hown m' (xs1 ++ zs) (Some y :: rest)).
      - rewrite !length_app. simpl. lia.
      - reflexivity.
      - rewrite H'. f_equal. same_list. }
    apply spec_bind.
    eapply T_make_wp; [exact Hv'| |].
    2:{ intros m2 H2. apply (Hown1 m2 (mid ++ [moved_from y])).
        - rewrite length_app. simpl. lia.
        - rewrite H2, H1. f_equal. same_list. }
    simpl. intros m2 H2. rewrite H1 in H2.
    apply spec_bind, spec_on_throw.
    eapply (move_backward_wp mid (length mid) buf _ _ _ (Some <$> xs1) (moved_from y)
              (Some y :: rest)).
    { reflexivity. }
    { unfold block_of. rewrite H2. blocks_simpl. same_list. }
    { simpl. rewrite length_fmap. reflexivity. }
    { simpl. lia. }
    { simpl. lia. }
    2:{ (* a move assignment throws while shifting *)
      intros m3 zs Hz H3. rewrite H2 in H3.
      apply (fire_noexcept_wp (Q := Loud)). intros m4 H4.
      apply (Hown1 m4 zs Hz). rewrite H4, H3. blocks_eq1 buf. }
    simpl. intros m3 z H3. rewrite H2 in H3.
    apply spec_bind, RawMemory_plus_wp; [simpl; lia|].
    apply spec_bind, spec_on_throw.
    eapply (T_move_assign_local_wp _ _ _ z (Some <$> xs1) ((Some <$> mid) ++ Some y :: rest)).
    { simpl. rewrite H3. blocks_simpl. reflexivity. }
    { simpl. rewrite length_fmap. reflexivity. }
    2:{ (* the move assignment into the vacated slot throws *)
      intros m4 H4. rewrite H3 in H4.
      apply (fire_noexcept_wp (Q := Loud)). intros m5 H5.
      apply (Hown1 m5 (z :: mid)); [simpl; lia|].
      rewrite H5, H4. blocks_eq1 buf. }
    simpl. intros m4 H4. rewrite H3 in H4.
    apply spec_bind, RawMemory_plus_wp; [simpl; lia|].
    apply spec_bind, fire_noexcept_wp. intros m5 H5. rewrite H4 in H5.
    apply spec_ret. apply spec_bind, get_this_wp.
    apply spec_bind, set_size_wp, spec_ret. simpl.
    assert (H5' : blocks m5 =
              set_block buf ((Some <$> xs1 ++ x' :: mid ++ [y]) ++ rest) (blocks m)).
    { rewrite H5. blocks_eq1 buf. }
    assert (Hh5 : holds (MkVector (MkRaw buf cap) (S n)) m5 (xs1 ++ x' :: mid ++ [y]) rest).
    { unfold holds, block_of. simpl. rewrite H5'. blocks_simpl. repeat split.
      - rewrite !length_app. simpl. rewrite length_app. simpl. lia.
      - lia.
      - right. blocks_simpl. eauto. }
    apply (Hok (MkVector (MkRaw buf cap) (S n)) m5 rest x'); auto.
    repeat split; simpl; auto.
    + exists (xs1 ++ x' :: mid ++ [y]), rest. exact Hh5.
    + eapply wf_mem_set_block; eauto.
    + intros k Hk _. rewrite H5'. blocks_simpl. reflexivity.
Qed.

End EmplaceMember.

Section EraseMember.
Context {E : ElemType} {Q : Quiet}.
Implicit Types (B : gmap nat (list slot)) (l : list slot) (m : Mem) (p : ptr) (v : Vector).

Lemma Erase_wp v m xs1 y xs2 rest
    (ok : ptr → Vector * Mem → Prop) (bad : Vector * Mem → Prop) :
  wf_mem m → holds v m (xs1 ++ y :: xs2) rest →
  (∀ m',
     safe v m (MkVector (data_ v) (size_ v - 1)) m' →
     holds (MkVector (data_ v) (size_ v - 1)) m' (xs1 ++ xs2) (None :: rest) →
     ok (Ptr (buffer_ (data_ v)) (length xs1)) (MkVector (data_ v) (size_ v - 1), m')) →
  (∀ m' xs', safe v m v m' → holds v m' xs' rest → bad (v, m')) →
  spec quiet (Erase (Ptr (buffer_ (data_ v)) (length xs1))) (v, m) ok bad.
Proof.
  intros Hwm Hh Hok Hbad.
  assert (Hown : ∀ m' zs, length zs = length (xs1 ++ y :: xs2) →
            blocks m' = set_block (buffer_ (data_ v)) ((Some <$> zs) ++ rest) (blocks m) →
            bad (v, m')).
  { intros m' zs Hz H'. apply (Hbad m' zs).
    - eapply safe_set_own; eauto.
    - eapply holds_set_own; eauto. }
  pose proof Hh as (Hblk & Hlen & Hcap & Hbuf).
  destruct v as [[buf cap] n]. simpl in *.
  rewrite length_app in Hlen. simpl in Hlen.
  unfold Erase.
  apply spec_bind, Vector_begin_wp.
  apply spec_bind, Vector_end_wp; [simpl; lia|]. simpl.
  apply spec_bind, spec_assert.
  { unfold ptr_le. simpl. rewrite !bool_decide_eq_true_2; auto; lia. }
  apply spec_bind, lift_wp, ptr_diff_wp; [reflexivity | simpl; lia |].
  cbn [off]. rewrite Nat.sub_0_r.
  assert (Hblk1 : block_of buf m = (Some <$> xs1) ++ Some y :: (Some <$> xs2) ++ rest).
  { rewrite Hblk. same_list. }
  apply spec_bind, lift_wp.
  assert (Hshift : ∀ (c : M unit),
    (∀ (ok' : unit → Mem → Prop) (bad' : Mem → Prop),
      (∀ m' z, blocks m' = set_block buf ((Some <$> xs1) ++ (Some <$> xs2) ++ Some z :: rest)
                             (blocks m) → ok' () m') →
      (∀ m' zs, length zs = S (length xs2) →
         blocks m' = set_block buf ((Some <$> xs1) ++ (Some <$> zs) ++ rest) (blocks m) →
         bad' m') →
      spec quiet c m ok' bad') →
    spec quiet c m
      (λ (_ : unit) m', spec quiet
         (lift (ptr_back (Ptr buf n) 1) ≫= λ last,
          lift (T_destroy last) ≫= λ _,
          get_this ≫= λ v,
          match size_ v with
          | 0 => undefined
          | S k => set_size k ≫= λ _, Vector_begin ≫= λ b', mret (b' +ₚ length xs1)
          end)
         (MkVector (MkRaw buf cap) n, m') ok bad)
      (λ m', bad (MkVector (MkRaw buf cap) n, m'))).
  { intros c Hc. apply Hc.
    - intros m1 z H1.
      apply spec_bind, lift_wp, ptr_back_wp; [simpl; lia|]. simpl.
      apply spec_bind, lift_wp.
      eapply (T_destroy_wp _ _ ((Some <$> xs1) ++ (Some <$> xs2)) z rest).
      { simpl. rewrite H1. blocks_simpl.
        pose proof (block_of_middle _ _ _ _ _ Hblk1) as ->. simpl. f_equal. same_list. }
      { simpl. rewrite length_app, !length_fmap. lia. }
      simpl. intros m2 H2. rewrite H1 in H2.
      apply spec_bind, get_this_wp. simpl.
      destruct n as [|k]; [lia|].
      apply spec_bind, set_size_wp. simpl.
      apply spec_bind, Vector_begin_wp, spec_ret. simpl.
      replace (S k - 1) with k in Hok by lia.
      assert (H2' : blocks m2 =
                set_block buf ((Some <$> xs1 ++ xs2) ++ None :: rest) (blocks m)).
      { rewrite H2. blocks_eq1 buf. }
      assert (Hh2 : holds (MkVector (MkRaw buf cap) k) m2 (xs1 ++ xs2) (None :: rest)).
      { unfold holds, block_of. simpl. rewrite H2'. blocks_simpl.
        pose proof (block_of_middle _ _ _ _ _ Hblk1) as ->. simpl.
        repeat split.
        - rewrite length_app. lia.
        - lia.
        - right. blocks_simpl. eauto. }
      apply Hok; [|exact Hh2].
      repeat split; simpl; auto.
      + exists (xs1 ++ xs2), (None :: rest). exact Hh2.
      + eapply wf_mem_set_block; eauto.
      + intros a Ha _. rewrite H2'. blocks_simpl. reflexivity.
    - intros m1 zs Hz H1. apply (Hown m1 (xs1 ++ zs)).
      + rewrite !length_app. simpl. lia.
      + rewrite H1. f_equal. same_list. }
  destruct relocate_by_move.
  - apply Hshift. intros ok' bad' Hok' Hbad'.
    eapply (std_move_left_wp xs2 (length xs2) buf _ _ _ (Some <$> xs1) y rest);
      eauto; simpl; rewrite ?length_fmap; lia.
  - apply Hshift. intros ok' bad' Hok' Hbad'.
    eapply (std_copy_left_wp xs2 (length xs2) buf _ _ _ (Some <$> xs1) y rest);
      eauto; simpl; rewrite ?length_fmap; lia.
Qed.

Lemma PopBack_wp v m xs y rest
    (ok : unit → Vector * Mem → Prop) (bad : Vector * Mem → Prop) :
  wf_mem m → holds v m (xs ++ [y]) rest →
  (∀ m',
     safe v m (MkVector (data_ v) (size_ v - 1)) m' →
     holds (MkVector (data_ v) (size_ v - 1)) m' xs (None :: rest) →
     ok () (MkVector (data_ v) (size_ v - 1), m')) →
  spec quiet PopBack (v, m) ok bad.
Proof.
  intros Hwm Hh Hok.
  pose proof Hh as (Hblk & Hlen & Hcap & Hbuf).
  destruct v as [[buf cap] n]. simpl in *.
  rewrite length_app in Hlen. simpl in Hlen.
  unfold PopBack. apply spec_bind, get_this_wp. simpl.
  destruct n as [|k]; [lia|].
  assert (Hblk1 : block_of buf m = (Some <$> xs) ++ Some y :: rest).
  { rewrite Hblk. same_list. }
  pose proof (block_of_middle _ _ _ _ _ Hblk1) as Hblk'.
  apply spec_bind, lift_wp, RawMemory_at_wp; [simpl; lia|].
  apply spec_bind, lift_wp.
  eapply T_destroy_wp; [exact Hblk' | simpl; rewrite length_fmap; lia |].
  simpl. intros m1 H1. apply set_size_wp. simpl.
  replace (S k - 1) with k in Hok by lia.
  assert (Hh1 : holds (MkVector (MkRaw buf cap) k) m1 xs (None :: rest)).
  { unfold holds, block_of. simpl. rewrite H1. blocks_simpl.
    repeat split; try lia. right. blocks_simpl. eauto. }
  apply Hok; [|exact Hh1].
  repeat split; simpl; auto.
  - exists xs, (None :: rest). exact Hh1.
  - eapply wf_mem_set_block; eauto.
  - intros a Ha _. rewrite H1. blocks_simpl. reflexivity.
Qed.

End EraseMember.

Section ReserveMember.
Context {E : ElemType} {Q : Quiet}.
Implicit Types (B : gmap nat (list slot)) (l : list slot) (m : Mem) (p : ptr) (v : Vector).

(** [swap_in_wp] where nothing follows the release of the old block. *)
Lemma swap_in_last_wp buf n a cap' zs sz m
    (ok : unit → Vector * Mem → Prop) (bad : Vector * Mem → Prop) :
  wf_mem m → buf = 0 ∨ is_Some (blocks m !! buf) →
  block_of buf m = Some <$> zs → length zs = n →
  (∀ m', blocks m' = delete buf (blocks m) →
         ok () (MkVector (MkRaw a cap') sz, m')) →
  spec quiet
    (lift (destroy_n (Ptr buf 0) n) ≫= λ _,
     set_data (MkRaw a cap') ≫= λ _,
     lift (RawMemory_delete (MkRaw buf n)))
    (MkVector (MkRaw buf n) sz, m) ok bad.
Proof.
  intros Hw Hbuf Hb Hl Hk.
  apply spec_bind, lift_wp.
  eapply (destroy_n_wp zs n buf 0 [] []); [congruence | | reflexivity |].
  { rewrite app_nil_r. exact Hb. }
  simpl. intros m1 H1. apply spec_bind, set_data_wp. simpl.
  apply lift_wp, RawMemory_delete_wp.
  - eapply wf_mem_set_block; eauto.
  - simpl. destruct Hbuf as [?|[l Hs]]; [tauto|]. right.
    rewrite H1, set_block_lookup, Hs. simpl. eauto.
  - simpl. intros m2 H2. apply Hk. rewrite H2, H1.
    blocks_eq1 buf.
Qed.

Lemma safe_refl v m xs rest : wf_mem m → holds v m xs rest → safe v m v m.
Proof. intros Hw Hh. eapply safe_blocks; eauto. Qed.

Lemma Reserve_wp new_capacity v m xs rest
    (ok : unit → Vector * Mem → Prop) (bad : Vector * Mem → Prop) :
  wf_mem m → holds v m xs rest →
  (∀ v' m' rest',
     safe v m v' m' → holds v' m' xs rest' →
     size_ v' = size_ v →
     capacity_ (data_ v') = capacity_ (data_ v) `max` new_capacity →
     ok () (v', m')) →
  (∀ m' xs', safe v m v m' → holds v m' xs' rest → bad (v, m')) →
  spec quiet (Reserve new_capacity) (v, m) ok bad.
Proof.
  intros Hwm Hh Hok Hbad.
  assert (Hbad0 : ∀ m', blocks m' = blocks m → bad (v, m')).
  { intros m' H'. apply (Hbad m' xs); [eapply safe_blocks | eapply holds_blocks]; eauto. }
  assert (Hown : ∀ m' zs, length zs = length xs →
            blocks m' = set_block (buffer_ (data_ v)) ((Some <$> zs) ++ rest) (blocks m) →
            bad (v, m')).
  { intros m' zs Hz H'. apply (Hbad m' zs).
    - eapply safe_set_own; eauto.
    - eapply holds_set_own; eauto. }
  pose proof Hh as (Hblk & Hlen & Hcap & Hbuf).
  destruct v as [[buf cap] n]. simpl in *.
  unfold Reserve. apply spec_bind, get_this_wp. simpl.
  destruct (decide (new_capacity ≤ cap)) as [Hle|Hgt].
  { apply spec_ret. apply (Hok _ m rest); auto.
    - eapply safe_refl; eauto.
    - simpl. lia. }
  apply spec_bind, lift_wp, RawMemory_new_wp; [lia| |exact Hbad0].
  intros a m1 Ha0 Hfresh H1. simpl.
  assert (Hab : buf ≠ a).
  { intros ->. destruct Hbuf as [?|[? Hs]]; [tauto|]. rewrite Hfresh in Hs. discriminate. }
  assert (Hsplit : replicate new_capacity (@None T) =
            replicate n None ++ replicate (new_capacity - n) None).
  { rewrite <- replicate_add. f_equal. lia. }
  assert (Hfinish : ∀ m3 zs, length zs = n →
     blocks m3 = set_block buf ((Some <$> zs) ++ rest)
                   (<[a := (Some <$> xs) ++ replicate (new_capacity - n) None]> (blocks m)) →
     spec quiet
       (lift (destroy_n (GetAddress (MkRaw buf cap)) n) ≫= λ _,
        set_data (MkRaw a new_capacity) ≫= λ _,
        lift (RawMemory_delete (MkRaw buf cap)))
       (MkVector (MkRaw buf cap) n, m3) ok bad).
  { intros m3 zs Hz H3.
    apply spec_bind, lift_wp.
    eapply (destroy_n_wp zs n buf 0 [] rest); [congruence | | reflexivity |].
    { unfold block_of. rewrite H3. blocks_simpl.
      unfold block_of in Hblk. destruct (blocks m !! buf); simpl in *; [reflexivity|].
      destruct xs; [|discriminate]. simpl in *. subst n.
      destruct zs; [|discriminate]. exact Hblk. }
    simpl. intros m4 H4. rewrite H3 in H4. apply spec_bind, set_data_wp. simpl.
    apply lift_wp, RawMemory_delete_wp.
    - unfold wf_mem. rewrite H4.
      destruct (decide (buf = 0)) as [->|Hne]; blocks_simpl; [rewrite Hwm|]; auto.
    - simpl. destruct Hbuf as [?|[l Hs]]; [tauto|]. right.
      rewrite H4. blocks_simpl. eauto.
    - simpl. intros m5 H5.
      destruct (grow_done buf cap n a new_capacity n m m5 xs
                  (replicate (new_capacity - n) None)) as [Hsafe Hholds]; auto.
      { rewrite H5, H4. blocks_eq2 a buf. }
      { rewrite length_replicate. lia. }
      { lia. }
      apply (Hok _ m5 (replicate (new_capacity - n) None)); auto.
      simpl. lia. }
  apply spec_bind, lift_wp, spec_on_throw.
  destruct relocate_by_move.
  - eapply (uninitialized_move_n_wp xs n buf 0 [] rest a 0 [] (replicate n None)
              (replicate (new_capacity - n) None)).
    { symmetry. exact Hlen. }
    { exact Hab. }
    { unfold block_of. rewrite H1, lookup_insert_ne by congruence. exact Hblk. }
    { reflexivity. }
    { unfold block_of. rewrite H1, lookup_insert_eq. simpl. exact Hsplit. }
    { reflexivity. }
    { apply length_replicate. }
    + simpl. intros m3 H3. rewrite H1 in H3.
      apply (Hfinish m3 (moved_from <$> xs)).
      { rewrite length_fmap. exact Hlen. }
      rewrite H3. blocks_eq2 a buf.
    + intros m3 zs ws Hz Hws H3. rewrite H1 in H3.
      eapply (RawMemory_delete_wp (Q := Loud)).
      { unfold wf_mem. rewrite H3.
        destruct (decide (buf = 0)) as [->|Hne]; blocks_simpl; [rewrite Hwm|]; auto. }
      { right. simpl. rewrite H3. blocks_simpl. eauto. }
      simpl. intros m4 H4. apply (Hown m4 zs); [lia|].
      rewrite H4, H3. blocks_eq2 a buf.
  - eapply (uninitialized_copy_n_wp xs n buf 0 [] rest a 0 [] (replicate n None)
              (replicate (new_capacity - n) None)).
    { symmetry. exact Hlen. }
    { exact Hab. }
    { unfold block_of. rewrite H1, lookup_insert_ne by congruence. exact Hblk. }
    { reflexivity. }
    { unfold block_of. rewrite H1, lookup_insert_eq. simpl. exact Hsplit. }
    { reflexivity. }
    { apply length_replicate. }
    + simpl. intros m3 H3. rewrite H1 in H3.
      apply (Hfinish m3 xs Hlen).
      rewrite H3. blocks_eq2 a buf.
    + intros m3 ws Hws H3. rewrite H1 in H3.
      eapply (RawMemory_delete_wp (Q := Loud)).
      { unfold wf_mem. rewrite H3. blocks_simpl. auto. }
      { right. simpl. rewrite H3. blocks_simpl. eauto. }
      simpl. intros m4 H4. apply Hbad0. rewrite H4, H3. blocks_eq1 a.
Qed.

End ReserveMember.

Section ResizeMember.
Context {E : ElemType} {Q : Quiet}.
Implicit Types (B : gmap nat (list slot)) (l : list slot) (m : Mem) (p : ptr) (v : Vector).

Lemma frame_trans v m v1 m1 v2 m2 :
  frame v m v1 m1 → frame v1 m1 v2 m2 → frame v m v2 m2.
Proof.
  intros [F1 B1] [F2 B2]. split.
  - intros a Ha Hs. rewrite <- (F1 a Ha Hs). apply F2.
    + destruct B1 as [->|Hn]; [exact Ha|].
      intros ->. rewrite Hn in Hs. destruct Hs. discriminate.
    + rewrite (F1 a Ha Hs). exact Hs.
  - destruct B2 as [->|Hn]; [exact B1|].
    destruct (decide (buffer_ (data_ v2) = buffer_ (data_ v))) as [?|Hne]; [tauto|].
    right. destruct (blocks m !! buffer_ (data_ v2)) eqn:Hs; [|reflexivity].
    rewrite <- (F1 _ Hne) in Hs by (rewrite Hs; eauto). congruence.
Qed.

Lemma safe_trans v m v1 m1 v2 m2 :
  safe v m v1 m1 → safe v1 m1 v2 m2 → safe v m v2 m2.
Proof.
  intros (_ & _ & F1 & C1) (W2 & M2 & F2 & C2).
  repeat split; auto; try lia; eapply frame_trans; eauto.
Qed.

Lemma Resize_wp new_size v m xs rest
    (ok : unit → Vector * Mem → Prop) (bad : Vector * Mem → Prop) :
  wf_mem m → holds v m xs rest →
  (∀ v' m' rest',
     safe v m v' m' →
     holds v' m' (take new_size xs ++ replicate (new_size - size_ v) value_init) rest' →
     ok () (v', m')) →
  (∀ v' m' xs' rest', safe v m v' m' → holds v' m' xs' rest' → bad (v', m')) →
  spec quiet (Resize new_size) (v, m) ok bad.
Proof.
  intros Hwm Hh Hok Hbad.
  pose proof Hh as (Hblk & Hlen & Hcap & Hbuf).
  unfold Resize. apply spec_bind, get_this_wp.
  destruct (decide (new_size < size_ v)) as [Hlt|Hge].
  - (* shrink *)
    destruct v as [[buf cap] n]. simpl in *.
    apply spec_bind, spec_bind, lift_wp, RawMemory_at_wp; [simpl; lia|].
    apply lift_wp.
    eapply (destroy_n_wp (drop new_size xs) _ buf _ (Some <$> take new_size xs) rest).
    { rewrite length_drop. lia. }
    { rewrite Hblk. rewrite <- (take_drop new_size xs) at 1. same_list. }
    { rewrite length_fmap, length_take. lia. }
    simpl. intros m1 H1. apply set_size_wp. simpl.
    replace (new_size - n) with 0 in Hok by lia. simpl in Hok.
    rewrite app_nil_r in Hok.
    assert (H1' : blocks m1 = set_block buf
              ((Some <$> take new_size xs) ++ replicate (n - new_size) None ++ rest)
              (blocks m)) by exact H1.
    assert (Hh1 : holds (MkVector (MkRaw buf cap) new_size) m1 (take new_size xs)
                    (replicate (n - new_size) None ++ rest)).
    { unfold holds, block_of. simpl. rewrite H1'. blocks_simpl.
      rewrite length_take, length_app, length_replicate.
      unfold block_of in Hblk.
      destruct Hbuf as [->|[l Hs]].
      - rewrite Hwm in *. simpl in *. destruct xs; [simpl in *; lia | discriminate].
      - rewrite Hs. simpl. repeat split; eauto; lia. }
    apply (Hok _ m1 (replicate (n - new_size) None ++ rest)); [|exact Hh1].
    repeat split; simpl; auto.
    + eexists _, _. exact Hh1.
    + eapply wf_mem_set_block; eauto.
    + intros a Ha _. rewrite H1'. blocks_simpl. reflexivity.
  - destruct (decide (size_ v < new_size)) as [Hgt|Hle].
    + (* grow *)
      apply spec_bind, spec_bind.
      eapply Reserve_wp; [exact Hwm | exact Hh | |].
      2:{ intros m' xs' Hs Hh'. eapply Hbad; eauto. }
      intros v1 m1 rest1 Hs1 Hh1 Hsz1 Hc1.
      apply spec_bind, get_this_wp.
      pose proof Hh1 as (Hblk1 & Hlen1 & Hcap1 & Hbuf1).
      destruct v1 as [[buf1 cap1] n1]. simpl in *. subst n1.
      apply spec_bind, lift_wp, RawMemory_at_wp; [simpl; lia|].
      apply lift_wp.
      assert (Hrest : rest1 = take (new_size - size_ v) rest1 ++ drop (new_size - size_ v) rest1)
        by (symmetry; apply take_drop).
      eapply (uninitialized_value_construct_n_wp _ buf1 _ (Some <$> xs)
                (take (new_size - size_ v) rest1) (drop (new_size - size_ v) rest1)).
      { rewrite Hblk1. rewrite Hrest at 1. reflexivity. }
      { simpl. rewrite length_fmap. lia. }
      { rewrite length_take. lia. }
      * simpl. intros m2 H2. apply set_size_wp. simpl.
        assert (Hh2 : holds (MkVector (MkRaw buf1 cap1) new_size) m2
                        (xs ++ replicate (new_size - size_ v) value_init)
                        (drop (new_size - size_ v) rest1)).
        { unfold holds, block_of. simpl. rewrite H2. blocks_simpl.
          rewrite length_app, length_replicate, length_drop.
          unfold block_of in Hblk1.
          destruct Hbuf1 as [->|[l Hs]].
          - rewrite (proj1 (proj2 Hs1)) in *. simpl in *.
            destruct xs; [|discriminate]. destruct rest1; [simpl in *; lia|discriminate].
          - rewrite Hs. simpl. repeat split; eauto; try lia. same_list. }
        rewrite take_ge in Hok by lia.
        apply (Hok _ m2 (drop (new_size - size_ v) rest1)); [|exact Hh2].
        eapply safe_trans; [exact Hs1|].
        repeat split; simpl; auto.
        -- eexists _, _. exact Hh2.
        -- eapply wf_mem_set_block; [apply Hs1|exact H2].
        -- intros a Ha _. rewrite H2. blocks_simpl. reflexivity.
      * intros m2 ws Hws H2.
        assert (Hh2 : holds (MkVector (MkRaw buf1 cap1) (size_ v)) m2 xs
                        (ws ++ drop (new_size - size_ v) rest1)).
        { unfold holds, block_of. simpl. rewrite H2. blocks_simpl.
          rewrite length_app, length_drop.
          unfold block_of in Hblk1.
          destruct Hbuf1 as [->|[l Hs]].
          - rewrite (proj1 (proj2 Hs1)) in *. simpl in *.
            destruct xs; [|discriminate]. destruct rest1; [simpl in *; lia|discriminate].
          - rewrite Hs. simpl. repeat split; eauto; try lia. }
        apply (Hbad _ m2 xs (ws ++ drop (new_size - size_ v) rest1)); [|exact Hh2].
        eapply safe_trans; [exact Hs1|].
        repeat split; simpl; auto.
        -- eexists _, _. exact Hh2.
        -- eapply wf_mem_set_block; [apply Hs1|exact H2].
        -- intros a Ha _. rewrite H2. blocks_simpl. reflexivity.
    + (* same size *)
      apply spec_bind, spec_ret, set_size_wp.
      assert (new_size = size_ v) as -> by lia.
      rewrite Nat.sub_diag in Hok. simpl in Hok. rewrite app_nil_r in Hok.
      rewrite take_ge in Hok by lia.
      destruct v as [[buf cap] n]. simpl in *.
      apply (Hok _ m rest); auto. eapply safe_refl; eauto.
Qed.

End ResizeMember.

Section Constructors.
Context {E : ElemType} {Q : Quiet}.
Implicit Types (B : gmap nat (list slot)) (l : list slot) (m : Mem) (p : ptr) (v : Vector).

Lemma born_fresh a cap n m m' L :
  wf_mem m → a ≠ 0 → blocks m !! a = None →
  blocks m' = <[a := L]> (blocks m) →
  born (MkVector (MkRaw a cap) n) m m'.
Proof.
  intros Hw Ha Hf H'. repeat split; simpl; auto.
  - unfold wf_mem. rewrite H', lookup_insert_ne by exact Ha. exact Hw.
  - intros k [l Hs]. rewrite H', lookup_insert_ne by congruence. reflexivity.
Qed.

Lemma born_null n m : wf_mem m → born (MkVector (MkRaw 0 0) n) m m.
Proof. intros Hw. repeat split; simpl; auto. Qed.


Lemma holds_null m : wf_mem m → holds (MkVector (MkRaw 0 0) 0) m [] [].
Proof.
  intros Hw. unfold holds, block_of. simpl. rewrite Hw. repeat split; auto.
Qed.

Lemma Vector_sized_wp size m (ok : Vector → Mem → Prop) (bad : Mem → Prop) :
  wf_mem m →
  (∀ v' m', born v' m m' → holds v' m' (replicate size value_init) [] →
            capacity_ (data_ v') = size → ok v' m') →
  (∀ m', blocks m' = blocks m → bad m') →
  spec quiet (Vector_sized size) m ok bad.
Proof.
  intros Hwm Hok Hbad. unfold Vector_sized.
  destruct (decide (size = 0)) as [->|Hne].
  { apply spec_bind, RawMemory_new_0_wp.
    apply spec_bind, spec_on_throw, spec_ret, spec_ret.
    apply Hok; [apply born_null | apply holds_null | reflexivity]; exact Hwm. }
  apply spec_bind, RawMemory_new_wp; [exact Hne| |exact Hbad].
  intros a m1 Ha0 Hfresh H1.
  apply spec_bind, spec_on_throw.
  eapply (uninitialized_value_construct_n_wp size a 0 [] (replicate size None) []).
  { unfold block_of. rewrite H1, lookup_insert_eq. simpl. rewrite app_nil_r. reflexivity. }
  { reflexivity. }
  { apply length_replicate. }
  - simpl. intros m2 H2. rewrite H1 in H2. apply spec_ret.
    assert (H2' : blocks m2 = <[a := Some <$> replicate size value_init]> (blocks m)).
    { rewrite H2. blocks_eq1 a. }
    apply Hok.
    + eapply born_fresh; eauto.
    + unfold holds, block_of. simpl. rewrite H2', lookup_insert_eq. simpl.
      rewrite app_nil_r, length_replicate.
      repeat split; auto; right; rewrite lookup_insert_eq; eauto.
    + reflexivity.
  - intros m2 ws Hws H2. rewrite H1 in H2.
    eapply (RawMemory_delete_wp (Q := Loud)).
    { unfold wf_mem. rewrite H2. blocks_simpl. auto. }
    { right. simpl. rewrite H2. blocks_simpl. eauto. }
    simpl. intros m3 H3. apply Hbad. rewrite H3, H2. blocks_eq1 a.
Qed.

Lemma Vector_copy_wp other ys rrest m (ok : Vector → Mem → Prop) (bad : Mem → Prop) :
  wf_mem m → holds other m ys rrest →
  (∀ v' m', born v' m m' → holds v' m' ys [] →
            capacity_ (data_ v') = size_ other →
            (size_ other ≠ 0 → buffer_ (data_ v') ≠ 0 ∧
               blocks m' = <[buffer_ (data_ v') := Some <$> ys]> (blocks m)) →
            ok v' m') →
  (∀ m', blocks m' = blocks m → bad m') →
  spec quiet (Vector_copy other) m ok bad.
Proof.
  intros Hwm Hh Hok Hbad. unfold Vector_copy.
  pose proof Hh as (Hblk & Hlen & Hcap & Hbuf).
  destruct other as [[buf cap] n]. simpl in *.
  destruct (decide (n = 0)) as [->|Hne].
  { destruct ys; [|discriminate].
    apply spec_bind, RawMemory_new_0_wp.
    apply spec_bind, spec_on_throw, spec_ret, spec_ret.
    apply Hok; [apply born_null | apply holds_null | reflexivity | tauto]; exact Hwm. }
  apply spec_bind, RawMemory_new_wp; [exact Hne| |exact Hbad].
  intros a m1 Ha0 Hfresh H1.
  assert (Hab : buf ≠ a).
  { intros ->. destruct Hbuf as [?|[? Hs]]; [tauto|]. rewrite Hfresh in Hs. discriminate. }
  apply spec_bind, spec_on_throw.
  eapply (uninitialized_copy_n_wp ys n buf 0 [] rrest a 0 [] (replicate n None) []).
  { symmetry. exact Hlen. }
  { exact Hab. }
  { unfold block_of. rewrite H1, lookup_insert_ne by congruence. exact Hblk. }
  { reflexivity. }
  { unfold block_of. rewrite H1, lookup_insert_eq. simpl. rewrite app_nil_r. reflexivity. }
  { reflexivity. }
  { apply length_replicate. }
  - simpl. intros m2 H2. rewrite H1 in H2. apply spec_ret.
    assert (H2' : blocks m2 = <[a := Some <$> ys]> (blocks m)).
    { rewrite H2. blocks_eq1 a. }
    apply Hok.
    + eapply born_fresh; eauto.
    + unfold holds, block_of. simpl. rewrite H2', lookup_insert_eq. simpl.
      rewrite app_nil_r.
      repeat split; auto; right; rewrite lookup_insert_eq; eauto.
    + reflexivity.
    + intros _. simpl. auto.
  - intros m2 ws Hws H2. rewrite H1 in H2.
    eapply (RawMemory_delete_wp (Q := Loud)).
    { unfold wf_mem. rewrite H2. blocks_simpl. auto. }
    { right. simpl. rewrite H2. blocks_simpl. eauto. }
    simpl. intros m3 H3. apply Hbad. rewrite H3, H2. blocks_eq1 a.
Qed.

Lemma Vector_delete_wp v xs rest m (ok : unit → Mem → Prop) (bad : Mem → Prop) :
  wf_mem m → holds v m xs rest →
  (∀ m', blocks m' = delete (buffer_ (data_ v)) (blocks m) → ok () m') →
  spec quiet (Vector_delete v) m ok bad.
Proof.
  intros Hwm Hh Hok. unfold Vector_delete.
  pose proof Hh as (Hblk & Hlen & Hcap & Hbuf).
  destruct v as [[buf cap] n]. simpl in *.
  apply spec_bind.
  eapply (destroy_n_wp xs n buf 0 [] rest); [congruence | exact Hblk | reflexivity |].
  simpl. intros m1 H1.
  apply RawMemory_delete_wp.
  - eapply wf_mem_set_block; eauto.
  - simpl. destruct Hbuf as [?|[l Hs]]; [tauto|]. right.
    rewrite H1. blocks_simpl. eauto.
  - simpl. intros m2 H2. apply Hok. rewrite H2, H1. blocks_eq1 buf.
Qed.

End Constructors.

Section CopyAssign.
Context {E : ElemType} {Q : Quiet}.
Implicit Types (B : gmap nat (list slot)) (l : list slot) (m : Mem) (p : ptr) (v : Vector).

Lemma holds_null_inv u m ys r :
  wf_mem m → holds u m ys r → buffer_ (data_ u) = 0 → ys = [] ∧ r = [].
Proof.
  intros Hw (Hb & _) H0. unfold block_of in Hb. rewrite H0, Hw in Hb. simpl in Hb.
  destruct ys; [|discriminate]. destruct r; [|discriminate]. auto.
Qed.

(** Another vector keeps what it holds across a member function of [v]. *)
Lemma holds_frame u ys r v m v' m' :
  wf_mem m → wf_mem m' → holds u m ys r → frame v m v' m' →
  buffer_ (data_ u) ≠ buffer_ (data_ v) ∨ buffer_ (data_ u) = 0 →
  holds u m' ys r.
Proof.
  intros Hw Hw' Hh [F _] Hd.
  destruct (decide (buffer_ (data_ u) = 0)) as [H0|Hn0].
  - destruct (holds_null_inv _ _ _ _ Hw Hh H0) as [-> ->].
    destruct Hh as (Hb & Hl & Hc & Hbuf).
    unfold holds, block_of. rewrite H0, Hw'. simpl. repeat split; auto.
  - destruct Hd as [Hd|?]; [|tauto].
    destruct Hh as (Hb & Hl & Hc & Hbuf).
    destruct Hbuf as [?|Hs]; [tauto|].
    unfold holds, block_of in *. rewrite (F _ Hd Hs). repeat split; auto.
Qed.

Lemma copy_assign_body_wp rhs ys rrest v m xs rest
    (ok : unit → Vector * Mem → Prop) (bad : Vector * Mem → Prop) :
  wf_mem m → holds v m xs rest → holds rhs m ys rrest →
  buffer_ (data_ rhs) ≠ buffer_ (data_ v) ∨ buffer_ (data_ rhs) = 0 →
  (∀ v' m' rest',
     safe v m v' m' → holds v' m' ys rest' →
     capacity_ (data_ v') =
       (if decide (capacity_ (data_ v) < size_ rhs) then size_ rhs
        else capacity_ (data_ v)) →
     ok () (v', m')) →
  (∀ m' xs' rest',
     safe v m v m' → holds v m' xs' rest' →
     (capacity_ (data_ v) < size_ rhs → blocks m' = blocks m) →
     bad (v, m')) →
  spec quiet (copy_assign_body rhs) (v, m) ok bad.
Proof.
  intros Hwm Hh Hr Hd Hok Hbad.
  assert (Hbad0 : ∀ m', blocks m' = blocks m → bad (v, m')).
  { intros m' H'. apply (Hbad m' xs rest);
      [eapply safe_blocks | eapply holds_blocks |]; eauto. }
  pose proof Hh as (Hblk & Hlen & Hcap & Hbuf).
  pose proof Hr as (Hrblk & Hrlen & Hrcap & Hrbuf).
  unfold copy_assign_body. apply spec_bind, get_this_wp.
  destruct v as [[buf cap] n]. destruct rhs as [[rbuf rcap] rn]. simpl in *.
  destruct (decide (cap < rn)) as [Hsmall|Hfits].
  - (* the copy-and-swap path *)
    apply spec_bind, lift_wp.
    eapply (Vector_copy_wp _ ys rrest); [exact Hwm | exact Hr | | exact Hbad0].
    intros [[a ccap] cn] m1 Hborn Hc1 Hcc Hnew. simpl in *.
    destruct Hnew as [Ha0 H1]; [lia|].
    destruct Hborn as (Hw1 & Hf1 & Hfresh). destruct Hfresh as [?|Hfresh]; [tauto|].
    simpl in Hfresh.
    pose proof Hc1 as (_ & Hcn & _). simpl in Hcn.
    assert (Hab : buf ≠ a).
    { intros ->. destruct Hbuf as [?|[? Hs]]; [tauto|]. rewrite Hfresh in Hs. discriminate. }
    apply spec_bind, set_data_wp. apply spec_bind, set_size_wp. simpl.
    apply lift_wp.
    eapply (Vector_delete_wp _ xs rest); [exact Hw1 | |].
    { unfold holds, block_of in *. simpl in *.
      rewrite H1, lookup_insert_ne by congruence. repeat split; auto. }
    simpl. intros m2 H2. rewrite H1 in H2.
    destruct (grow_done buf cap n a ccap cn m m2 ys []) as [Hsafe Hholds]; auto.
    { rewrite H2, app_nil_r. reflexivity. }
    { simpl. lia. }
    { lia. }
    apply (Hok _ m2 []); auto; simpl; destruct (decide _); lia.
  - (* there is room in the buffer *)
    assert (Hown : ∀ m' zs rest', length zs = length xs →
              length rest' = length rest →
              blocks m' = set_block buf ((Some <$> zs) ++ rest') (blocks m) →
              bad (MkVector (MkRaw buf cap) n, m')).
    { intros m' zs rest' Hz Hr' H'. apply (Hbad m' zs rest').
      - eapply safe_set_own; eauto.
      - eapply holds_set_own; eauto.
      - lia. }
    assert (Hdone : ∀ m' rest', length rest' + rn = n + length rest →
              blocks m' = set_block buf ((Some <$> ys) ++ rest') (blocks m) →
              ok () (MkVector (MkRaw buf cap) rn, m')).
    { intros m' rest' Hr' H'.
      assert (Hh' : holds (MkVector (MkRaw buf cap) rn) m' ys rest').
      { unfold holds, block_of. simpl. rewrite H', set_block_lookup.
        unfold block_of in Hblk.
        destruct Hbuf as [->|[l Hs]].
        - rewrite Hwm in *. simpl in *.
          destruct xs; [|discriminate]. destruct rest; [|discriminate].
          simpl in *. subst n cap. assert (rn = 0) by lia. subst rn.
          destruct ys; [|discriminate]. destruct rest'; [|simpl in *; lia].
          repeat split; auto.
        - rewrite Hs. simpl. repeat split; eauto; lia. }
      apply (Hok _ m' rest'); auto.
      repeat split; simpl; auto.
      + eexists _, _. exact Hh'.
      + eapply wf_mem_set_block; eauto.
      + intros k Hk _. rewrite H'. blocks_simpl. reflexivity. }
    destruct (decide (rbuf = buf)) as [Heq|Hne].
    { (* two empty vectors without storage *)
      destruct Hd as [?|H0]; [tauto|]. subst rbuf buf.
      destruct (holds_null_inv _ _ _ _ Hwm Hr eq_refl) as [-> ->].
      destruct (holds_null_inv _ _ _ _ Hwm Hh eq_refl) as [-> ->].
      simpl in *. subst n rn cap rcap.
      destruct (decide (0 < 0)) as [?|_]; [lia|].
      apply spec_bind, spec_bind, lift_wp, spec_ret.
      apply spec_bind, lift_wp, RawMemory_plus_wp; [simpl; lia|].
      apply spec_bind, lift_wp, RawMemory_plus_wp; [simpl; lia|].
      apply lift_wp, spec_ret, set_size_wp. simpl.
      apply (Hdone m []); [reflexivity|].
      symmetry. apply set_block_block_of. exact Hblk. }
    apply spec_bind.
    destruct (decide (rn < n)) as [Hshorter|Hlonger].
    + (* the source is shorter: assign, then destroy the excess *)
      apply spec_bind, lift_wp.
      eapply (copy_n_wp ys rn rbuf 0 [] rrest buf 0 [] (take rn xs)
                ((Some <$> drop rn xs) ++ rest)).
      { congruence. }
      { exact Hne. }
      { exact Hrblk. }
      { reflexivity. }
      { rewrite Hblk. rewrite <- (take_drop rn xs) at 1. same_list. }
      { reflexivity. }
      { rewrite length_take. lia. }
      2:{ intros m1 zs Hz H1. apply (Hown m1 (zs ++ drop rn xs) rest).
          - rewrite length_app, length_drop. lia.
          - reflexivity.
          - rewrite H1. f_equal. same_list. }
      simpl. intros m1 H1.
      apply spec_bind, lift_wp, RawMemory_plus_wp; [simpl; lia|].
      apply lift_wp.
      eapply (destroy_n_wp (drop rn xs) _ buf _ (Some <$> ys) rest).
      { rewrite length_drop. lia. }
      { unfold block_of. rewrite H1. blocks_simpl.
        pose proof (block_of_middle buf m [] (Some (hd value_init xs))) as _.
        destruct xs as [|x0 xs']; [simpl in *; lia|].
        simpl in Hblk. apply block_of_cons in Hblk. rewrite Hblk. reflexivity. }
      { simpl. rewrite length_fmap. lia. }
      simpl. intros m2 H2. rewrite H1 in H2. apply set_size_wp. simpl.
      apply (Hdone m2 (replicate (n - rn) None ++ rest)).
      { rewrite length_app, length_replicate. lia. }
      rewrite H2. blocks_eq1 buf.
    + (* the source is at least as long: assign, then construct the tail *)
      apply spec_bind, lift_wp.
      eapply (copy_n_wp (take n ys) n rbuf 0 [] ((Some <$> drop n ys) ++ rrest)
                buf 0 [] xs rest).
      { rewrite length_take. lia. }
      { exact Hne. }
      { rewrite Hrblk. rewrite <- (take_drop n ys) at 1. same_list. }
      { reflexivity. }
      { exact Hblk. }
      { reflexivity. }
      { exact Hlen. }
      2:{ intros m1 zs Hz H1. apply (Hown m1 zs rest); auto. lia. }
      simpl. intros m1 H1.
      apply spec_bind, lift_wp, RawMemory_plus_wp; [simpl; lia|].
      apply spec_bind, lift_wp, RawMemory_plus_wp; [simpl; lia|].
      apply lift_wp.
      eapply (uninitialized_copy_n_wp (drop n ys) _ rbuf _ (Some <$> take n ys) rrest
                buf _ (Some <$> take n ys) (take (rn - n) rest) (drop (rn - n) rest)).
      { rewrite length_drop. lia. }
      { exact Hne. }
      { unfold block_of. rewrite H1. blocks_simpl. fold (block_of rbuf m).
        rewrite Hrblk. rewrite <- (take_drop n ys) at 1. same_list. }
      { simpl. rewrite length_fmap, length_take. lia. }
      { unfold block_of. rewrite H1. blocks_simpl.
        unfold block_of in Hblk. destruct (blocks m !! buf); simpl in *.
        - rewrite take_drop. reflexivity.
        - destruct xs; [|discriminate]. destruct rest; [|discriminate].
          simpl in *. subst n cap. assert (rn = 0) by lia. subst rn.
          destruct ys; [|discriminate]. reflexivity. }
      { simpl. rewrite length_fmap, length_take. lia. }
      { rewrite length_take. lia. }
      * simpl. intros m2 H2. rewrite H1 in H2. apply set_size_wp. simpl.
        apply (Hdone m2 (drop (rn - n) rest)).
        { rewrite length_drop. lia. }
        rewrite app_assoc, <- fmap_app, take_drop in H2.
        rewrite H2. blocks_eq1 buf.
      * intros m2 ws Hws H2. rewrite H1 in H2.
        apply (Hown m2 (take n ys) (ws ++ drop (rn - n) rest)).
        { rewrite length_take. lia. }
        { rewrite length_app, length_drop. lia. }
        rewrite H2. blocks_eq1 buf.
Qed.

End CopyAssign.

Section Worlds.
Context {E : ElemType}.
Implicit Types (m : Mem) (v u : Vector) (w : World).


Lemma wf_buffer v m : wf v m → buffer_ (data_ v) = 0 ∨ is_Some (blocks m !! buffer_ (data_ v)).
Proof. intros (xs & rest & _ & _ & _ & H). exact H. Qed.

Lemma wf_frame u v m v' m' :
  wf_mem m → wf_mem m' → wf u m → frame v m v' m' →
  buffer_ (data_ u) ≠ buffer_ (data_ v) ∨ buffer_ (data_ u) = 0 →
  wf u m'.
Proof.
  intros Hw Hw' (ys & r & Hh) F Hd. exists ys, r.
  exact (holds_frame u ys r v m v' m' Hw Hw' Hh F Hd).
Qed.

Lemma wf_born u v' m m' :
  wf_mem m → wf u m → born v' m m' → wf u m'.
Proof.
  intros Hw (ys & r & Hh) (Hw' & F & _). exists ys, r.
  destruct (decide (buffer_ (data_ u) = 0)) as [H0|Hn0].
  - destruct (holds_null_inv _ _ _ _ Hw Hh H0) as [-> ->].
    destruct Hh as (Hb & Hl & Hc & Hbuf).
    unfold holds, block_of. rewrite H0, Hw'. simpl. repeat split; auto.
  - destruct Hh as (Hb & Hl & Hc & Hbuf).
    destruct Hbuf as [?|Hs]; [tauto|].
    unfold holds, block_of in *. rewrite (F _ Hs). repeat split; auto.
Qed.

(** A member function that was [safe] on the object at [this] leaves the
    world in order. *)
Lemma Winv_update w this v v' m' :
  Winv w → objs w !! this = Some v → safe v (wmem w) v' m' →
  Winv (MkWorld (<[this := v']> (objs w)) m').
Proof.
  intros (Hw & Hall & Hdis) Hthis (Hwf' & Hw' & F & _).
  split; [exact Hw'|]. split; simpl.
  - intros l u Hl. destruct (decide (l = this)) as [->|Hne].
    + rewrite lookup_insert_eq in Hl. injection Hl as <-. exact Hwf'.
    + rewrite lookup_insert_ne in Hl by congruence.
      apply (wf_frame u v (wmem w) v' m'); eauto.
  - assert (Hnew : ∀ l u, l ≠ this → objs w !! l = Some u →
              (buffer_ (data_ u) ≠ buffer_ (data_ v') ∨ buffer_ (data_ u) = 0) ∧
              (buffer_ (data_ v') ≠ buffer_ (data_ u) ∨ buffer_ (data_ v') = 0)).
    { intros l u Hne Hl.
      destruct (decide (buffer_ (data_ u) = buffer_ (data_ v'))) as [Heq|Hneq];
        [|split; left; congruence].
      destruct F as [_ [Hsame|Hfresh]].
      - rewrite Hsame in *.
        destruct (Hdis l this u v Hne Hl Hthis) as [?|H0]; [tauto|].
        split; right; congruence.
      - destruct (wf_buffer u (wmem w) (Hall l u Hl)) as [H0|[b Hs]].
        + split; right; congruence.
        + rewrite Heq, Hfresh in Hs. discriminate. }
    intros l1 l2 v1 v2 Hne H1 H2.
    destruct (decide (l1 = this)) as [->|Hn1];
      destruct (decide (l2 = this)) as [->|Hn2]; try tauto.
    + rewrite lookup_insert_eq in H1. injection H1 as <-.
      rewrite lookup_insert_ne in H2 by congruence.
      apply (Hnew l2 v2); auto.
    + rewrite lookup_insert_eq in H2. injection H2 as <-.
      rewrite lookup_insert_ne in H1 by congruence.
      apply (Hnew l1 v1); auto.
    + rewrite lookup_insert_ne in H1, H2 by congruence. eauto.
Qed.

(** A constructor adds an object with a buffer of its own. *)
Lemma Winv_born w this v' m' :
  Winv w → objs w !! this = None → born v' (wmem w) m' → wf v' m' →
  Winv (MkWorld (<[this := v']> (objs w)) m').
Proof.
  intros (Hw & Hall & Hdis) Hthis Hb Hwf'.
  pose proof Hb as (Hw' & F & Hfresh).
  split; [exact Hw'|]. split; simpl.
  - intros l u Hl. destruct (decide (l = this)) as [->|Hne].
    + rewrite lookup_insert_eq in Hl. injection Hl as <-. exact Hwf'.
    + rewrite lookup_insert_ne in Hl by congruence.
      apply (wf_born u v' (wmem w) m'); eauto.
  - assert (Hnew : ∀ l u, objs w !! l = Some u →
              (buffer_ (data_ u) ≠ buffer_ (data_ v') ∨ buffer_ (data_ u) = 0) ∧
              (buffer_ (data_ v') ≠ buffer_ (data_ u) ∨ buffer_ (data_ v') = 0)).
    { intros l u Hl.
      destruct (decide (buffer_ (data_ u) = buffer_ (data_ v'))) as [Heq|Hneq];
        [|split; left; congruence].
      destruct Hfresh as [H0|Hf]; [split; right; congruence|].
      destruct (wf_buffer u (wmem w) (Hall l u Hl)) as [H0|[b Hs]].
      - split; right; congruence.
      - rewrite Heq, Hf in Hs. discriminate. }
    intros l1 l2 v1 v2 Hne H1 H2.
    destruct (decide (l1 = this)) as [->|Hn1];
      destruct (decide (l2 = this)) as [->|Hn2]; try tauto.
    + rewrite lookup_insert_eq in H1. injection H1 as <-.
      rewrite lookup_insert_ne in H2 by congruence.
      apply (Hnew l2 v2); auto.
    + rewrite lookup_insert_eq in H2. injection H2 as <-.
      rewrite lookup_insert_ne in H1 by congruence.
      apply (Hnew l1 v1); auto.
    + rewrite lookup_insert_ne in H1, H2 by congruence. eauto.
Qed.

(** A memory that differs only in the environment. *)
Lemma Winv_blocks w m' :
  Winv w → blocks m' = blocks (wmem w) → Winv (MkWorld (objs w) m').
Proof.
  intros (Hw & Hall & Hdis) H'. split; [|split]; simpl.
  - unfold wf_mem. rewrite H'. exact Hw.
  - intros l u Hl. destruct (Hall l u Hl) as (ys & r & Hh).
    exists ys, r. eapply holds_blocks; eauto.
  - exact Hdis.
Qed.

(** The destructor removes the object and its buffer. *)
Lemma Winv_delete w this v m' :
  Winv w → objs w !! this = Some v →
  blocks m' = delete (buffer_ (data_ v)) (blocks (wmem w)) →
  Winv (MkWorld (delete this (objs w)) m').
Proof.
  intros (Hw & Hall & Hdis) Hthis H'.
  assert (Hw' : wf_mem m').
  { unfold wf_mem. rewrite H'.
    destruct (decide (buffer_ (data_ v) = 0)) as [->|Hne].
    - apply lookup_delete_eq.
    - rewrite lookup_delete_ne by congruence. exact Hw. }
  split; [exact Hw'|]. split; simpl.
  - intros l u Hl. destruct (decide (l = this)) as [->|Hne].
    + rewrite lookup_delete_eq in Hl. discriminate.
    + rewrite lookup_delete_ne in Hl by congruence.
      destruct (Hall l u Hl) as (ys & r & Hh). exists ys, r.
      destruct (decide (buffer_ (data_ u) = 0)) as [H0|Hn0].
      * destruct (holds_null_inv _ _ _ _ Hw Hh H0) as [-> ->].
        destruct Hh as (Hb & Hlen & Hc & Hbuf).
        unfold holds, block_of. rewrite H0, Hw'. simpl. repeat split; auto.
      * destruct (Hdis l this u v Hne Hl Hthis) as [Hd|?]; [|tauto].
        destruct Hh as (Hb & Hlen & Hc & Hbuf).
        unfold holds, block_of in *. rewrite H', lookup_delete_ne by congruence.
        repeat split; auto.
  - intros l1 l2 v1 v2 Hne H1 H2.
    destruct (decide (l1 = this)) as [->|Hn1].
    { rewrite lookup_delete_eq in H1. discriminate. }
    destruct (decide (l2 = this)) as [->|Hn2].
    { rewrite lookup_delete_eq in H2. discriminate. }
    rewrite lookup_delete_ne in H1, H2 by congruence. eauto.
Qed.

(** Two objects exchange their buffers and sizes; the memory is untouched. *)
Lemma Winv_exchange w l1 l2 a b :
  Winv w → objs w !! l1 = Some a → objs w !! l2 = Some b →
  Winv (MkWorld (<[l2 := MkVector (data_ a) (size_ a)]>
                   (<[l1 := MkVector (data_ b) (size_ b)]> (objs w))) (wmem w)).
Proof.
  intros (Hw & Hall & Hdis) H1 H2.
  destruct a as [da sa]. destruct b as [db sb]. simpl.
  destruct (decide (l1 = l2)) as [->|Hne].
  { rewrite H1 in H2. injection H2 as <- <-.
    rewrite insert_insert_eq, insert_id by exact H1.
    split; [|split]; auto. }
  split; [exact Hw|]. split; simpl.
  - intros l u Hl.
    destruct (decide (l = l2)) as [->|Hn2].
    { rewrite lookup_insert_eq in Hl. injection Hl as <-. eauto. }
    rewrite lookup_insert_ne in Hl by congruence.
    destruct (decide (l = l1)) as [->|Hn1].
    { rewrite lookup_insert_eq in Hl. injection Hl as <-. eauto. }
    rewrite lookup_insert_ne in Hl by congruence. eauto.
  - (* the map is the old one up to the permutation of [l1] and [l2] *)
    set (π := λ l, if decide (l = l1) then l2 else if decide (l = l2) then l1 else l).
    assert (Hπ : ∀ l u,
      <[l2 := MkVector da sa]> (<[l1 := MkVector db sb]> (objs w)) !! l = Some u →
      objs w !! π l = Some u).
    { intros l u Hl. unfold π.
      destruct (decide (l = l1)) as [->|Hn1].
      - rewrite lookup_insert_ne, lookup_insert_eq in Hl by congruence. congruence.
      - destruct (decide (l = l2)) as [->|Hn2].
        + rewrite lookup_insert_eq in Hl. congruence.
        + rewrite !lookup_insert_ne in Hl by congruence. exact Hl. }
    intros k1 k2 v1 v2 Hk Hv1 Hv2.
    apply (Hdis (π k1) (π k2)); eauto.
    unfold π. repeat destruct (decide _); congruence.
Qed.

End Worlds.

Section Steps.
Context {E : ElemType}.
Implicit Types (m : Mem) (v u : Vector) (w : World).


Lemma invoke_safe {A} this (body : VM A) w v :
  Winv w → objs w !! this = Some v →
  spec (@quiet _ Loud) body (v, wmem w)
    (λ _ s', safe v (wmem w) s'.1 s'.2) (λ s', safe v (wmem w) s'.1 s'.2) →
  ∃ r w', invoke this (void body) w = (r, w') ∧ step_ok w r w'.
Proof.
  intros Hinv Hthis Hs. unfold invoke, void. rewrite Hthis, bind_run.
  unfold spec in Hs.
  destruct (body (v, wmem w)) as [[a| |] [v' m']]; simpl in *; [| |tauto].
  - destruct Hs as [Hs _]. eexists _, _. split; [reflexivity|].
    split; [discriminate|]. split; [eapply Winv_update; eauto|]. simpl.
    intros l u u' Hl Hl'. destruct (decide (l = this)) as [->|Hne].
    + rewrite lookup_insert_eq in Hl'. rewrite Hthis in Hl.
      injection Hl as <-. injection Hl' as <-. apply Hs.
    + rewrite lookup_insert_ne in Hl' by congruence.
      rewrite Hl in Hl'. injection Hl' as <-. lia.
  - destruct Hs as [Hs _]. eexists _, _. split; [reflexivity|].
    split; [discriminate|]. split; [eapply Winv_update; eauto|]. simpl.
    intros l u u' Hl Hl'. destruct (decide (l = this)) as [->|Hne].
    + rewrite lookup_insert_eq in Hl'. rewrite Hthis in Hl.
      injection Hl as <-. injection Hl' as <-. apply Hs.
    + rewrite lookup_insert_ne in Hl' by congruence.
      rewrite Hl in Hl'. injection Hl' as <-. lia.
Qed.

Lemma invoke_void {A} this (body : VM A) w :
  invoke this (void (void body)) w = invoke this (void body) w.
Proof.
  unfold invoke, void. destruct (objs w !! this); [|reflexivity].
  rewrite !bind_run. destruct (body _) as [[a| |] s]; reflexivity.
Qed.

Lemma invoke_unit this (body : VM unit) w :
  invoke this (void body) w = invoke this body w.
Proof.
  unfold invoke, void. destruct (objs w !! this); [|reflexivity].
  rewrite !bind_run. destruct (body _) as [[[]| |] s]; reflexivity.
Qed.

Lemma emplace_object_safe this (ctor : M Vector) w :
  Winv w → objs w !! this = None →
  spec (@quiet _ Loud) ctor (wmem w)
    (λ v' m', born v' (wmem w) m' ∧ wf v' m')
    (λ m', blocks m' = blocks (wmem w)) →
  ∃ r w', emplace_object this ctor w = (r, w') ∧ step_ok w r w'.
Proof.
  intros Hinv Hthis Hs. unfold emplace_object. rewrite Hthis.
  unfold spec in Hs.
  destruct (ctor (wmem w)) as [[v'| |] m']; simpl in *; [| |tauto].
  - destruct Hs as [[Hb Hwf] _]. eexists _, _. split; [reflexivity|].
    split; [discriminate|]. split; [eapply Winv_born; eauto|]. simpl.
    intros l u u' Hl Hl'.
    rewrite lookup_insert_ne in Hl' by congruence.
    rewrite Hl in Hl'. injection Hl' as <-. lia.
  - destruct Hs as [Hb _]. eexists _, _. split; [reflexivity|].
    split; [discriminate|]. split; [eapply Winv_blocks; eauto|]. simpl.
    intros l u u' Hl Hl'. rewrite Hl in Hl'. injection Hl' as <-. lia.
Qed.


Ltac weaken_in w :=
  match goal with
  | |- ∃ r w', ?e = (r, w') ∧ _ =>
      let r := fresh "r" in
      let w' := fresh "w'" in
      let Hr := fresh "Hr" in
      let Hub := fresh "Hub" in
      let Hi := fresh "Hi" in
      let Hc := fresh "Hc" in
      cut (∃ r0 w0, e = (r0, w0) ∧ step_ok w r0 w0);
        [intros (r & w' & Hr & Hub & Hi & Hc); exists r, w'; auto |]
  end.

Lemma safe_mono {A} (c : VM A) v m :
  ∀ (P : A → Vector * Mem → Prop),
  spec (@quiet _ Loud) c (v, m) (λ a s', safe v m s'.1 s'.2 ∧ P a s')
    (λ s', safe v m s'.1 s'.2) →
  spec (@quiet _ Loud) c (v, m) (λ _ s', safe v m s'.1 s'.2) (λ s', safe v m s'.1 s'.2).
Proof. intros P H. eapply spec_mono; [exact H | |]; simpl; tauto. Qed.

Lemma take_drop_middle' {A} (xs : list A) i :
  i < length xs → ∃ y, xs = take i xs ++ y :: drop (S i) xs.
Proof.
  intros Hi. destruct (lookup_lt_is_Some_2 xs i Hi) as [y Hy].
  exists y. symmetry. apply take_drop_middle. exact Hy.
Qed.

Lemma snoc_inv {A} (xs : list A) : 0 < length xs → ∃ ys y, xs = ys ++ [y].
Proof.
  destruct xs as [|y ys _] using rev_ind; [simpl; lia|]. eauto.
Qed.

Theorem step_safe w c :
  Winv w → valid c w →
  ∃ r w', run c w = (r, w') ∧ r ≠ UB ∧ Winv w' ∧
    (exchanges_buffers c = false →
     ∀ l u u', objs w !! l = Some u → objs w' !! l = Some u' →
               capacity_ (data_ u) ≤ capacity_ (data_ u')).
Proof.
  intros Hinv Hv.
  pose proof Hinv as (Hwm & Hall & Hdis).
  destruct c as [this|this size|this other|this other|this rhs|this rhs|this
                |this n|this n|this other|this value|this|this vs
                |this i vs|this i value|this i]; simpl in Hv |- *.
  - (* Vector() *)
    weaken_in w. apply emplace_object_safe; auto.
    apply spec_ret. split; [apply born_null | eexists _, _; apply holds_null]; auto.
  - (* Vector(size) *)
    weaken_in w. apply emplace_object_safe; auto.
    apply Vector_sized_wp; auto.
    intros v' m' Hb Hh _. split; [exact Hb | eexists _, _; exact Hh].
  - (* Vector(const Vector&) *)
    destruct Hv as [Hthis [o Ho]]. weaken_in w. simpl.
    unfold new_Vector_copy. rewrite Ho.
    apply emplace_object_safe; auto.
    destruct (Hall _ _ Ho) as (ys & rr & Hh).
    eapply Vector_copy_wp; eauto.
    intros v' m' Hb Hh' _ _. split; [exact Hb | eexists _, _; exact Hh'].
  - (* Vector(Vector&&) *)
    destruct Hv as [Hthis [o Ho]]. unfold new_Vector_move. rewrite Hthis, Ho.
    assert (Hne : this ≠ other) by congruence.
    destruct o as [[ob oc] on]. simpl.
    eexists _, _. split; [reflexivity|]. split; [discriminate|].
    split; [|discriminate].
    assert (Hw1 : Winv (MkWorld (<[this := MkVector (MkRaw 0 0) 0]> (objs w)) (wmem w))).
    { apply Winv_born; auto.
      - apply born_null. exact Hwm.
      - eexists _, _. apply holds_null. exact Hwm. }
    pose proof (Winv_exchange _ this other (MkVector (MkRaw 0 0) 0)
                  (MkVector (MkRaw ob oc) on) Hw1) as Hw2.
    simpl in Hw2. rewrite lookup_insert_eq, lookup_insert_ne in Hw2 by exact Hne.
    specialize (Hw2 eq_refl Ho). rewrite insert_insert_eq in Hw2.
    rewrite insert_insert_ne by exact Hne. exact Hw2.
  - (* copy assignment *)
    destruct Hv as [[a Ha] [o Ho]]. unfold Vector_copy_assign.
    destruct (decide (this ≠ rhs)) as [Hne|Heq].
    2:{ eexists _, _. split; [reflexivity|]. split; [discriminate|].
        split; [exact Hinv|]. intros _ l u u' Hl Hl'. rewrite Hl in Hl'.
        injection Hl' as <-. lia. }
    rewrite Ho. rewrite <- invoke_unit.
    weaken_in w.
    apply (invoke_safe this _ w a); auto.
    destruct (Hall _ _ Ha) as (xs & rest & Hh).
    destruct (Hall _ _ Ho) as (ys & rrest & Hr).
    eapply (copy_assign_body_wp (Q := Loud)); eauto;
      try (apply (Hdis rhs this o a); auto);
      try (simpl; intros; assumption).
  - (* move assignment *)
    destruct Hv as [[a Ha] [o Ho]]. unfold Vector_move_assign.
    destruct (decide (this ≠ rhs)) as [Hne|Heq].
    2:{ eexists _, _. split; [reflexivity|]. split; [discriminate|].
        split; [exact Hinv|]. discriminate. }
    rewrite Ha, Ho. destruct a as [[ab ac] sa]. destruct o as [[ob oc] so]. simpl.
    eexists _, _. split; [reflexivity|]. split; [discriminate|].
    split; [|discriminate].
    exact (Winv_exchange w this rhs _ _ Hinv Ha Ho).
  - (* destructor *)
    destruct Hv as [a Ha]. unfold delete_Vector. rewrite Ha.
    destruct (Hall _ _ Ha) as (xs & rest & Hh).
    pose proof (Vector_delete_wp (Q := Loud) a xs rest (wmem w)
                  (λ _ m', blocks m' = delete (buffer_ (data_ a)) (blocks (wmem w)))
                  (λ _, False) Hwm Hh (λ m' H, H)) as Hs.
    unfold spec in Hs. destruct (Vector_delete a (wmem w)) as [[[]| |] m']; try tauto.
    destruct Hs as [Hs _].
    eexists _, _. split; [reflexivity|]. split; [discriminate|].
    split; [eapply Winv_delete; eauto|]. simpl.
    intros _ l u u' Hl Hl'. destruct (decide (l = this)) as [->|Hne].
    + rewrite lookup_delete_eq in Hl'. discriminate.
    + rewrite lookup_delete_ne in Hl' by congruence.
      rewrite Hl in Hl'. injection Hl' as <-. lia.
  - (* Reserve *)
    destruct Hv as [a Ha]. rewrite <- invoke_unit. weaken_in w.
    apply (invoke_safe this _ w a); auto.
    destruct (Hall _ _ Ha) as (xs & rest & Hh).
    eapply (Reserve_wp (Q := Loud)); eauto;
      try (apply (Hdis rhs this o a); auto);
      try (simpl; intros; assumption).
  - (* Resize *)
    destruct Hv as [a Ha]. rewrite <- invoke_unit. weaken_in w.
    apply (invoke_safe this _ w a); auto.
    destruct (Hall _ _ Ha) as (xs & rest & Hh).
    eapply (Resize_wp (Q := Loud)); eauto;
      try (apply (Hdis rhs this o a); auto);
      try (simpl; intros; assumption).
  - (* Swap *)
    destruct Hv as [[a Ha] [o Ho]]. unfold Vector_Swap_at.
    rewrite Ha, Ho. destruct a as [[ab ac] sa]. destruct o as [[ob oc] so]. simpl.
    eexists _, _. split; [reflexivity|]. split; [discriminate|].
    split; [|discriminate].
    exact (Winv_exchange w this other _ _ Hinv Ha Ho).
  - (* PushBack *)
    destruct Hv as [[a Ha] [x Hx]]. unfold PushBack.
    change (EmplaceBack value ≫= λ _, mret ()) with (void (EmplaceBack value)).
    weaken_in w.
    apply (invoke_safe this _ w a); auto.
    destruct (Hall _ _ Ha) as (xs & rest & Hh).
    eapply (EmplaceBack_wp (Q := Loud)); eauto;
      try (apply (Hdis rhs this o a); auto);
      try (simpl; intros; assumption).
  - (* PopBack *)
    destruct Hv as (a & Ha & Hpos). rewrite <- invoke_unit. weaken_in w.
    apply (invoke_safe this _ w a); auto.
    destruct (Hall _ _ Ha) as (xs & rest & Hh).
    pose proof Hh as (_ & Hlen & _).
    destruct (snoc_inv xs) as (ys & y & ->); [lia|].
    eapply (PopBack_wp (Q := Loud)); eauto;
      try (apply (Hdis rhs this o a); auto);
      try (simpl; intros; assumption).
  - (* EmplaceBack *)
    destruct Hv as [[a Ha] [x Hx]]. weaken_in w.
    apply (invoke_safe this _ w a); auto.
    destruct (Hall _ _ Ha) as (xs & rest & Hh).
    eapply (EmplaceBack_wp (Q := Loud)); eauto;
      try (apply (Hdis rhs this o a); auto);
      try (simpl; intros; assumption).
  - (* Emplace *)
    destruct Hv as (a & Ha & Hi & [x Hx]). weaken_in w.
    apply (invoke_safe this _ w a); auto.
    destruct (Hall _ _ Ha) as (xs & rest & Hh).
    pose proof Hh as (_ & Hlen & _).
    unfold iterator_at. rewrite Ha. unfold ptr_add, GetAddress. simpl.
    rewrite <- (take_drop i xs) in Hh.
    replace i with (length (take i xs)) at 1 by (rewrite length_take; lia).
    eapply (Emplace_wp (Q := Loud)); eauto;
      try (apply (Hdis rhs this o a); auto);
      try (simpl; intros; assumption).
  - (* Insert *)
    destruct Hv as (a & Ha & Hi & [x Hx]). weaken_in w.
    apply (invoke_safe this _ w a); auto.
    destruct (Hall _ _ Ha) as (xs & rest & Hh).
    pose proof Hh as (_ & Hlen & _).
    unfold iterator_at. rewrite Ha. unfold ptr_add, GetAddress, Insert. simpl.
    rewrite <- (take_drop i xs) in Hh.
    replace i with (length (take i xs)) at 1 by (rewrite length_take; lia).
    eapply (Emplace_wp (Q := Loud)); eauto;
      try (apply (Hdis rhs this o a); auto);
      try (simpl; intros; assumption).
  - (* Erase *)
    destruct Hv as (a & Ha & Hi). weaken_in w.
    apply (invoke_safe this _ w a); auto.
    destruct (Hall _ _ Ha) as (xs & rest & Hh).
    pose proof Hh as (_ & Hlen & _).
    unfold iterator_at. rewrite Ha. unfold ptr_add, GetAddress. simpl.
    destruct (take_drop_middle' xs i) as [y Hy]; [lia|].
    rewrite Hy in Hh.
    replace i with (length (take i xs)) at 1 by (rewrite length_take; lia).
    eapply (Erase_wp (Q := Loud)); eauto;
      try (apply (Hdis rhs this o a); auto);
      try (simpl; intros; assumption).
Qed.

End Steps.

Section Claims.
Context {E : ElemType}.
Implicit Types (m : Mem) (v u : Vector) (w : World).

Lemma holds_elements v m xs rest : holds v m xs rest → elements v m = Some <$> xs.
Proof.
  intros (Hb & Hl & _). unfold elements. rewrite Hb, <- Hl.
  rewrite <- (length_fmap Some xs). apply take_app_length.
Qed.




(** C10.  Assigning a vector to itself, by copy-assignment or by
    move-assignment, succeeds and leaves the whole world as it was: the
    vector's size, capacity, buffer and elements, and everything else. *)
Theorem self_assignment_is_identity w this :
  Vector_copy_assign this this w = (Ok (), w) ∧
  Vector_move_assign this this w = (Ok (), w).
Proof.
  unfold Vector_copy_assign, Vector_move_assign.
  destruct (decide (this ≠ this)) as [Hne|_]; [congruence|]. split; reflexivity.
Qed.

(** C4.  When the source's size exceeds the target's capacity,
    copy-assignment has no undefined behaviour, and if it throws (a copy
    construction, or the allocation before it, failed) the target object is
    exactly what it was: same buffer, capacity and size, with every block of
    memory, and so the target's elements, unchanged. *)
Theorem copy_assign_strong_guarantee w this rhs a o :
  Winv w → objs w !! this = Some a → objs w !! rhs = Some o →
  capacity_ (data_ a) < size_ o →
  (Vector_copy_assign this rhs w).1 ≠ UB ∧
  ∀ w', Vector_copy_assign this rhs w = (Throw, w') →
        objs w' !! this = Some a ∧
        blocks (wmem w') = blocks (wmem w) ∧
        elements a (wmem w') = elements a (wmem w).
Proof.
  intros Hinv Ha Ho Hsmall.
  pose proof Hinv as (Hwm & Hall & Hdis).
  unfold Vector_copy_assign.
  destruct (decide (this ≠ rhs)) as [Hne|Heq].
  2:{ simpl. split; [discriminate|]. intros w' Hw'. discriminate. }
  rewrite Ho. unfold invoke. rewrite Ha.
  destruct (Hall _ _ Ha) as (xs & rest & Hh).
  destruct (Hall _ _ Ho) as (ys & rrest & Hr).
  pose proof (copy_assign_body_wp (Q := Loud) o ys rrest a (wmem w) xs rest
                (λ _ _, True)
                (λ s', s'.1 = a ∧ blocks s'.2 = blocks (wmem w)) Hwm Hh Hr) as Hs.
  unfold spec in Hs.
  destruct (copy_assign_body o (a, wmem w)) as [[[]| |] [v' m']]; simpl in *.
  - split; [discriminate|]. intros w' Hw'. discriminate.
  - destruct Hs as [[-> Hb] _]; auto.
    { apply (Hdis rhs this o a); auto. }
    split; [discriminate|]. intros w' Hw'. injection Hw' as <-. simpl.
    rewrite lookup_insert_eq. repeat split; auto.
    unfold elements, block_of. rewrite Hb. reflexivity.
  - exfalso. apply Hs; auto. apply (Hdis rhs this o a); auto.
Qed.


Lemma spec_out {S A} `{!HasEnv S} q (c : StM S A) s ok bad :
  spec q c s ok bad →
  (c s).1 ≠ UB ∧
  (q (env_of s) → (c s).1 ≠ Throw) ∧
  (∀ a, (c s).1 = Ok a → ok a (c s).2).
Proof.
  unfold spec. destruct (c s) as [[a| |] s']; simpl; [| |tauto].
  - intros [H _]. repeat split; try discriminate. intros b [= <-]. exact H.
  - intros [_ Hq]. repeat split; try discriminate. tauto.
Qed.

(** What [Insert] does when its argument is not a reference into the
    vector's own buffer: a successful insertion of [V] at position [p] of
    [xs] yields [take p xs ++ V :: drop p xs], with or without growth; it has
    no undefined behaviour and does not throw while the element type's
    operations do not. *)
Theorem Insert_yields (Q : Quiet) v m xs rest p vs V :
  wf_mem m → holds v m xs rest → p ≤ length xs →
  arg_value vs m = Some V → arg_outside vs v →
  let out := Insert (Ptr (buffer_ (data_ v)) p) vs (v, m) in
  out.1 ≠ UB ∧
  (quiet (env m) → out.1 ≠ Throw) ∧
  (∀ r, out.1 = Ok r →
     elements out.2.1 out.2.2 = Some <$> (take p xs ++ V :: drop p xs) ∧
     size_ out.2.1 = S (length xs) ∧
     r = Ptr (buffer_ (data_ out.2.1)) p).
Proof.
  intros Hwm Hh Hp Hv Hout. unfold Insert.
  pose proof Hh as (_ & Hlen & _).
  rewrite <- (take_drop p xs) in Hh.
  assert (Hlp : length (take p xs) = p) by (rewrite length_take; lia).
  assert (Hs : spec quiet (Emplace (Ptr (buffer_ (data_ v)) (length (take p xs))) vs) (v, m)
           (λ r s', elements s'.1 s'.2 = Some <$> (take p xs ++ V :: drop p xs) ∧
                    size_ s'.1 = S (length xs) ∧
                    r = Ptr (buffer_ (data_ s'.1)) p)
           (λ _, True)).
  { eapply Emplace_wp; eauto.
    intros v' m' rest' x' _ Hh' _ Hx. rewrite (Hx Hout) in Hh'. simpl.
    split; [eapply holds_elements; eauto|]. split.
    - destruct Hh' as (_ & Hl' & _). rewrite <- Hl', length_app. simpl.
      rewrite <- (take_drop p xs) at 3. rewrite length_app. lia.
    - rewrite Hlp. reflexivity. }
  rewrite Hlp in Hs. apply spec_out in Hs. exact Hs.
Qed.

(** C7.  Erasing position [p < n] of a vector holding [xs], [n = length xs],
    has no undefined behaviour, does not throw while the element type's
    operations do not, and on return the vector holds
    [take p xs ++ drop (S p) xs], its size is [n - 1], and the iterator
    returned is position [p], where the element that followed the removed
    one now lives. *)
Theorem Erase_yields (Q : Quiet) v m xs rest p :
  wf_mem m → holds v m xs rest → p < length xs →
  let out := Erase (Ptr (buffer_ (data_ v)) p) (v, m) in
  out.1 ≠ UB ∧
  (quiet (env m) → out.1 ≠ Throw) ∧
  (∀ r, out.1 = Ok r →
     elements out.2.1 out.2.2 = Some <$> (take p xs ++ drop (S p) xs) ∧
     size_ out.2.1 = length xs - 1 ∧
     r = Ptr (buffer_ (data_ out.2.1)) p).
Proof.
  intros Hwm Hh Hp.
  pose proof Hh as (_ & Hlen & _).
  destruct (take_drop_middle' xs p Hp) as [y Hy].
  rewrite Hy in Hh.
  assert (Hlp : length (take p xs) = p) by (rewrite length_take; lia).
  assert (Hs : spec quiet (Erase (Ptr (buffer_ (data_ v)) (length (take p xs)))) (v, m)
           (λ r s', elements s'.1 s'.2 = Some <$> (take p xs ++ drop (S p) xs) ∧
                    size_ s'.1 = length xs - 1 ∧
                    r = Ptr (buffer_ (data_ s'.1)) p)
           (λ _, True)).
  { eapply Erase_wp; eauto.
    intros m' _ Hh'. simpl.
    split; [eapply holds_elements; eauto|]. split; [lia|].
    rewrite Hlp. reflexivity. }
  rewrite Hlp in Hs. apply spec_out in Hs. exact Hs.
Qed.

Lemma growth_policy_members :
  (∀ vs V v m xs rest r s',
     wf_mem m → holds v m xs rest → arg_value vs m = Some V →
     size_ v = capacity_ (data_ v) →
     EmplaceBack vs (v, m) = (Ok r, s') →
     capacity_ (data_ s'.1) =
       if decide (capacity_ (data_ v) = 0) then 1 else capacity_ (data_ v) * 2) ∧
  (∀ vs V v m xs rest p r s',
     wf_mem m → holds v m xs rest → arg_value vs m = Some V →
     p ≤ length xs → size_ v = capacity_ (data_ v) →
     Emplace (Ptr (buffer_ (data_ v)) p) vs (v, m) = (Ok r, s') →
     capacity_ (data_ s'.1) =
       if decide (capacity_ (data_ v) = 0) then 1 else capacity_ (data_ v) * 2).
Proof.
  split.
  - intros vs V v m xs rest r s' Hwm Hh Hv Hfull Hrun.
    assert (Hs : spec (@quiet _ Loud) (EmplaceBack vs) (v, m)
      (λ _ s', capacity_ (data_ s'.1) =
                 if decide (capacity_ (data_ v) = 0) then 1 else capacity_ (data_ v) * 2)
      (λ _, True)).
    { eapply (EmplaceBack_wp (Q := Loud)); eauto.
      intros v' m' rest' _ _ Hc. simpl. rewrite Hc.
      destruct (decide (size_ v = capacity_ (data_ v))); [|tauto].
      unfold grown. rewrite Hfull. reflexivity. }
    apply spec_out in Hs. destruct Hs as (_ & _ & Hs).
    specialize (Hs r). rewrite Hrun in Hs. auto.
  - intros vs V v m xs rest p r s' Hwm Hh Hv Hp Hfull Hrun.
    pose proof Hh as (_ & Hlen & _).
    rewrite <- (take_drop p xs) in Hh.
    assert (Hlp : length (take p xs) = p) by (rewrite length_take; lia).
    assert (Hs : spec (@quiet _ Loud)
      (Emplace (Ptr (buffer_ (data_ v)) (length (take p xs))) vs) (v, m)
      (λ _ s', capacity_ (data_ s'.1) =
                 if decide (capacity_ (data_ v) = 0) then 1 else capacity_ (data_ v) * 2)
      (λ _, True)).
    { eapply (Emplace_wp (Q := Loud)); eauto.
      intros v' m' rest' x' _ _ Hc _. simpl. rewrite Hc.
      destruct (decide (size_ v = capacity_ (data_ v))); [|tauto].
      unfold grown. rewrite Hfull. reflexivity. }
    rewrite Hlp in Hs. apply spec_out in Hs. destruct Hs as (_ & _ & Hs).
    specialize (Hs r). rewrite Hrun in Hs. auto.
Qed.

(** What a member function run through [invoke] did to its object. *)
Lemma invoke_run {A} this (body : VM A) w r w' u :
  objs w !! this = Some u →
  invoke this (void body) w = (r, w') →
  r = Ok () →
  ∃ a s', body (u, wmem w) = (Ok a, s') ∧ objs w' !! this = Some s'.1.
Proof.
  intros Hu Hrun ->. unfold invoke, void in Hrun. rewrite Hu, bind_run in Hrun.
  destruct (body (u, wmem w)) as [[a| |] s']; simpl in Hrun;
    inversion Hrun; subst.
  exists a, s'. split; [reflexivity|]. simpl. apply lookup_insert_eq.
Qed.

(** C8, as amended.  A call that does not exchange buffers between
    vectors (anything but move-construction, move-assignment and [Swap])
    never lowers the capacity of a vector that exists before and after it;
    and when [PushBack], [EmplaceBack], [Emplace] or [Insert] returns on a
    vector whose size had reached its capacity, the new capacity is 1 if the
    old one was 0 and twice the old one otherwise. *)
Theorem capacity_policy w c r w' l u u' :
  Winv w → valid c w → run c w = (r, w') →
  exchanges_buffers c = false →
  objs w !! l = Some u → objs w' !! l = Some u' →
  capacity_ (data_ u) ≤ capacity_ (data_ u') ∧
  (r = Ok () → adds_element_to c l = true →
   size_ u = capacity_ (data_ u) →
   capacity_ (data_ u') =
     if decide (capacity_ (data_ u) = 0) then 1 else capacity_ (data_ u) * 2).
Proof.
  intros Hi Hv Hrun Hex Hu Hu'. split.
  { destruct (step_safe w c Hi Hv) as (r0 & w0 & Hr & _ & _ & Hc).
    rewrite Hrun in Hr. injection Hr as <- <-. exact (Hc Hex l u u' Hu Hu'). }
  intros Hok Hadd Hfull.
  pose proof Hi as (Hwm & Hall & _).
  destruct (Hall _ _ Hu) as (xs & rest & Hh).
  pose proof Hh as (_ & Hlen & _).
  destruct growth_policy_members as [Hback Hmid].
  destruct c; simpl in Hadd; try discriminate;
    apply bool_decide_eq_true_1 in Hadd; subst l; simpl in Hrun, Hv.
  - (* PushBack *)
    destruct Hv as [_ [V HV]]. unfold PushBack in Hrun.
    change (EmplaceBack value ≫= λ _, mret ()) with (void (EmplaceBack value)) in Hrun.
    rewrite <- invoke_unit, invoke_void in Hrun.
    destruct (invoke_run _ _ _ _ _ _ Hu Hrun Hok) as (a & s' & Hb & Hs').
    rewrite Hu' in Hs'. injection Hs' as ->. eapply Hback; eauto.
  - (* EmplaceBack *)
    destruct Hv as [_ [V HV]].
    destruct (invoke_run _ _ _ _ _ _ Hu Hrun Hok) as (a & s' & Hb & Hs').
    rewrite Hu' in Hs'. injection Hs' as ->. eapply Hback; eauto.
  - (* Emplace *)
    destruct Hv as (u0 & Hu0 & Hidx & [V HV]).
    rewrite Hu in Hu0. injection Hu0 as <-.
    destruct (invoke_run _ _ _ _ _ _ Hu Hrun Hok) as (a & s' & Hb & Hs').
    rewrite Hu' in Hs'. injection Hs' as ->.
    unfold iterator_at in Hb. rewrite Hu in Hb. unfold ptr_add, GetAddress in Hb.
    simpl in Hb.
    apply (Hmid vs V u (wmem w) xs rest index a s');
      [exact Hwm|exact Hh|exact HV|lia|exact Hfull|exact Hb].
  - (* Insert *)
    destruct Hv as (u0 & Hu0 & Hidx & [V HV]).
    rewrite Hu in Hu0. injection Hu0 as <-.
    destruct (invoke_run _ _ _ _ _ _ Hu Hrun Hok) as (a & s' & Hb & Hs').
    rewrite Hu' in Hs'. injection Hs' as ->.
    unfold iterator_at in Hb. rewrite Hu in Hb. unfold ptr_add, GetAddress, Insert in Hb.
    simpl in Hb.
    apply (Hmid value V u (wmem w) xs rest index a s');
      [exact Hwm|exact Hh|exact HV|lia|exact Hfull|exact Hb].
Qed.

End Claims.

(** C3 at a failing input.  [Emplace] at the front of [1, 2] in a buffer
    of three slots, where the construction of the temporary throws: the call
    throws after the last element has been move-constructed into the slot
    past the end, so the vector, still of size 2, is left holding [1] and a
    moved-from element, and a live 2 stays behind it in a slot the vector
    does not count. *)
Lemma C3_at_failing_input :
  let out := @Emplace Str (Ptr 1 0) (@ByArgs Str 7) (v12, m12 (Some 0)) in
  out.1 = Throw ∧
  out.2.1 = v12 ∧
  elements v12 (m12 (Some 0)) = [Some 1; Some 2] ∧
  elements out.2.1 out.2.2 = [Some 1; Some 0] ∧
  block_of 1 out.2.2 = [Some 1; Some 0; Some 2] ∧
  log (env out.2.2) = [EvMoveCtor 2; EvCtor 7].
Proof. vm_compute. repeat split; reflexivity. Qed.


(** C6 at a failing input.  For an element type whose move assignment
    cannot throw, but whose move constructor can and which can be copied,
    [Erase] at the front of [1, 2, 3] shifts the elements by copy
    assignment, not by move assignment. *)
Lemma C6_at_failing_input :
  let out := @Erase Awkward (Ptr 1 0) (v123, m123) in
  @is_nothrow_move_assignable Awkward = true ∧
  out.1 = Ok (Ptr 1 0) ∧
  log (env out.2.2) = [EvCopyAssign 1 2; EvCopyAssign 2 3; EvDtor 3].
Proof. vm_compute. repeat split; reflexivity. Qed.


(** C1 at a failing input.  Move-assigning the buffer of three slots at 6
    to the buffer of two slots at 5 frees block 5 and gives the target
    handle 6 and capacity 3, but leaves the source with the freed handle 5
    and capacity 2 rather than the null handle and capacity 0; destroying
    the source then frees block 5 a second time. *)
Lemma C1_at_failing_input :
  let out := @RawMemory_move_assign Str 1 2 raw_world in
  out.1 = Ok () ∧
  raws out.2 !! 1 = Some (MkRaw 6 3) ∧
  raws out.2 !! 2 = Some (MkRaw 5 2) ∧
  blocks (rmem out.2) !! 5 = None ∧
  (RawMemory_destroy 2 out.2).1 = UB.
Proof. vm_compute. repeat split; reflexivity. Qed.

Section Moves.
Context {E : ElemType}.
Implicit Types (m : Mem) (v u : Vector) (w : World).

(** C2, as amended.  Move-construction from [other] gives the new vector
    [other]'s buffer, capacity and size, touches no memory, and leaves
    [other] with size 0, the null buffer and capacity 0.  Move-assignment
    from a different vector [other] exchanges the two: the target gets
    [other]'s buffer, capacity and size, [other] gets the target's previous
    buffer, capacity and size, and so keeps no ownership of its original
    storage (in a world in order the two buffers differ). *)
Theorem move_exchanges w this other o :
  objs w !! other = Some o →
  (objs w !! this = None →
   ∃ w', new_Vector_move this other w = (Ok (), w') ∧
         wmem w' = wmem w ∧
         objs w' !! this =
           Some (MkVector (MkRaw (buffer_ (data_ o)) (capacity_ (data_ o))) (size_ o)) ∧
         objs w' !! other = Some (MkVector (MkRaw 0 0) 0)) ∧
  (∀ a, this ≠ other → objs w !! this = Some a →
   ∃ w', Vector_move_assign this other w = (Ok (), w') ∧
         wmem w' = wmem w ∧
         objs w' !! this =
           Some (MkVector (MkRaw (buffer_ (data_ o)) (capacity_ (data_ o))) (size_ o)) ∧
         objs w' !! other =
           Some (MkVector (MkRaw (buffer_ (data_ a)) (capacity_ (data_ a))) (size_ a)) ∧
         (Winv w → buffer_ (data_ o) ≠ 0 → buffer_ (data_ a) ≠ buffer_ (data_ o))).
Proof.
  intros Ho. split.
  - intros Hthis. unfold new_Vector_move. rewrite Hthis, Ho.
    assert (Hne : this ≠ other) by congruence.
    destruct o as [[ob oc] on]. simpl.
    eexists. split; [reflexivity|]. simpl. split; [reflexivity|].
    rewrite lookup_insert_eq, lookup_insert_ne, lookup_insert_eq by exact Hne. auto.
  - intros a Hne Ha. unfold Vector_move_assign.
    destruct (decide (this ≠ other)) as [_|]; [|tauto].
    rewrite Ha, Ho. destruct a as [[ab ac] an]. destruct o as [[ob oc] on]. simpl.
    eexists. split; [reflexivity|]. simpl. split; [reflexivity|].
    rewrite lookup_insert_eq, lookup_insert_ne, lookup_insert_eq by congruence.
    repeat split. intros (_ & _ & Hdis) Hob Heq.
    destruct (Hdis other this _ _ ltac:(congruence) Ho Ha) as [H|H]; simpl in *; congruence.
Qed.

End Moves.

Lemma wf_mem_two fuse : wf_mem (wmem (two_vectors fuse)).
Proof. reflexivity. Qed.

Lemma Winv_two_vectors fuse : Winv (two_vectors fuse).
Proof.
  split; [reflexivity|]. split.
  - intros l v Hl. unfold two_vectors in Hl. simpl in Hl.
    destruct (decide (l = 1)) as [->|H1].
    { injection Hl as <-. exists [7; 8], []. repeat split; auto; right; eexists; reflexivity. }
    rewrite lookup_insert_ne in Hl by congruence.
    destruct (decide (l = 2)) as [->|H2].
    { injection Hl as <-. exists [1; 2; 3], [None].
      repeat split; auto; right; eexists; reflexivity. }
    rewrite lookup_insert_ne, lookup_empty in Hl by congruence. discriminate.
  - intros l1 l2 v1 v2 Hne Hl1 Hl2. unfold two_vectors in Hl1, Hl2. simpl in Hl1, Hl2.
    assert (Hcases : ∀ l v,
      (<[1 := MkVector (MkRaw 5 2) 2]> (<[2 := MkVector (MkRaw 6 4) 3]> ∅) : gmap nat Vector) !! l
        = Some v →
      (l = 1 ∧ buffer_ (data_ v) = 5) ∨ (l = 2 ∧ buffer_ (data_ v) = 6)).
    { intros l v Hl. destruct (decide (l = 1)) as [->|H1].
      { injection Hl as <-. auto. }
      rewrite lookup_insert_ne in Hl by congruence.
      destruct (decide (l = 2)) as [->|H2].
      { injection Hl as <-. auto. }
      rewrite lookup_insert_ne, lookup_empty in Hl by congruence. discriminate. }
    destruct (Hcases _ _ Hl1) as [[-> ->]|[-> ->]];
      destruct (Hcases _ _ Hl2) as [[-> ->]|[-> ->]]; try tauto; left; lia.
Qed.

(** C2 fails as stated: move-assigning [7, 8] to the vector holding
    [1, 2, 3] leaves the source with the three elements of the target. *)
Lemma C2_counterexample :
  ¬ (∀ v, objs (@Vector_move_assign Str 2 1 (two_vectors None)).2 !! 1 = Some v →
          size_ v = 0).
Proof. intros H. specialize (H (MkVector (MkRaw 6 4) 3) eq_refl). discriminate. Qed.

(** C8 fails as stated: move-assignment, which is not copy-assignment with
    swap, lowers the capacity of its target from 4 to 2. *)
Lemma C8_counterexample :
  ¬ (∀ u u',
       objs (two_vectors None) !! 2 = Some u →
       objs (@run Str (CallMoveAssign 2 1) (two_vectors None)).2 !! 2 = Some u' →
       capacity_ (data_ u) ≤ capacity_ (data_ u')).
Proof.
  intros H.
  specialize (H (MkVector (MkRaw 6 4) 3) (MkVector (MkRaw 5 2) 2) eq_refl eq_refl).
  simpl in H. lia.
Qed.

Lemma holds_v12 fuse : holds v12 (m12 fuse) [1; 2] [None].
Proof. repeat split; right; eexists; reflexivity. Defined.

(** C5 at a failing input.  [Insert] at the front, given a reference to
    the vector's own last element.  With a spare slot ([1, 2] in three
    slots, the argument holding 2) the element inserted is the moved-from
    value: the result is [0, 1, 2].  With the buffer full ([7, 8] in two
    slots, the argument holding 8) the insertion grows and the result is
    [8, 7, 8], as claimed. *)
Lemma C5_at_failing_input :
  let spare := @Insert Str (Ptr 1 0) (@ByLvalue Str (Ptr 1 1)) (v12, m12 None) in
  let full := @Insert Str (Ptr 5 0) (@ByLvalue Str (Ptr 5 1))
                (MkVector (MkRaw 5 2) 2, wmem (two_vectors None)) in
  @arg_value Str (ByLvalue (Ptr 1 1)) (m12 None) = Some 2 ∧
  spare.1 = Ok (Ptr 1 0) ∧
  elements spare.2.1 spare.2.2 = [Some 0; Some 1; Some 2] ∧
  @arg_value Str (ByLvalue (Ptr 5 1)) (wmem (two_vectors None)) = Some 8 ∧
  elements full.2.1 full.2.2 = [Some 8; Some 7; Some 8].
Proof. vm_compute. repeat split; reflexivity. Qed.

Lemma move_exchanges_witness :
  objs (two_vectors None) !! 1 = Some (MkVector (MkRaw 5 2) 2) ∧
  (∃ w', @new_Vector_move Str 3 1 (two_vectors None) = (Ok (), w') ∧
         wmem w' = wmem (two_vectors None) ∧
         objs w' !! 3 = Some (MkVector (MkRaw 5 2) 2) ∧
         objs w' !! 1 = Some (MkVector (MkRaw 0 0) 0)) ∧
  (∃ w', @Vector_move_assign Str 2 1 (two_vectors None) = (Ok (), w') ∧
         wmem w' = wmem (two_vectors None) ∧
         objs w' !! 2 = Some (MkVector (MkRaw 5 2) 2) ∧
         objs w' !! 1 = Some (MkVector (MkRaw 6 4) 3) ∧
         (Winv (two_vectors None) → 5 ≠ 0 → 6 ≠ 5)).
Proof.
  split; [reflexivity|]. split.
  - apply (proj1 (move_exchanges (two_vectors None) 3 1 _ eq_refl)). reflexivity.
  - apply (proj2 (move_exchanges (two_vectors None) 2 1 _ eq_refl)
             (MkVector (MkRaw 6 4) 3)); [lia | reflexivity].
Defined.

Lemma copy_assign_strong_guarantee_witness :
  Winv (two_vectors (Some 1)) ∧
  objs (two_vectors (Some 1)) !! 1 = Some (MkVector (MkRaw 5 2) 2) ∧
  objs (two_vectors (Some 1)) !! 2 = Some (MkVector (MkRaw 6 4) 3) ∧
  2 < 3 ∧
  (@Vector_copy_assign Str 1 2 (two_vectors (Some 1))).1 = Throw ∧
  objs (@Vector_copy_assign Str 1 2 (two_vectors (Some 1))).2 !! 1
    = Some (MkVector (MkRaw 5 2) 2) ∧
  blocks (wmem (@Vector_copy_assign Str 1 2 (two_vectors (Some 1))).2)
    = blocks (wmem (two_vectors (Some 1))) ∧
  elements (MkVector (MkRaw 5 2) 2)
           (wmem (@Vector_copy_assign Str 1 2 (two_vectors (Some 1))).2)
    = [Some 7; Some 8].
Proof.
  split; [apply Winv_two_vectors|].
  split; [reflexivity|]. split; [reflexivity|]. split; [lia|].
  split; [vm_compute; reflexivity|].
  apply (proj2 (copy_assign_strong_guarantee (two_vectors (Some 1)) 1 2
                  (MkVector (MkRaw 5 2) 2) (MkVector (MkRaw 6 4) 3)
                  (Winv_two_vectors (Some 1)) eq_refl eq_refl ltac:(simpl; lia))).
  vm_compute. reflexivity.
Defined.

Lemma Erase_yields_witness :
  wf_mem (m12 None) ∧ holds v12 (m12 None) [1; 2] [None] ∧ 0 < length [1; 2] ∧
  (@Erase Str (Ptr 1 0) (v12, m12 None)).1 = Ok (Ptr 1 0) ∧
  elements (@Erase Str (Ptr 1 0) (v12, m12 None)).2.1
           (@Erase Str (Ptr 1 0) (v12, m12 None)).2.2 = [Some 2] ∧
  size_ (@Erase Str (Ptr 1 0) (v12, m12 None)).2.1 = 1 ∧
  Ptr 1 0 = Ptr (buffer_ (data_ (@Erase Str (Ptr 1 0) (v12, m12 None)).2.1)) 0.
Proof.
  split; [reflexivity|]. split; [apply holds_v12|]. split; [simpl; lia|].
  split; [vm_compute; reflexivity|].
  apply (proj2 (proj2 (Erase_yields (ProbeQuiet true true true true) v12 (m12 None)
                         [1; 2] [None] 0 eq_refl (holds_v12 None) ltac:(simpl; lia)))).
  vm_compute. reflexivity.
Defined.

Lemma capacity_policy_witness :
  Winv (two_vectors None) ∧
  valid (CallPushBack 1 (@ByArgs Str 9)) (two_vectors None) ∧
  @run Str (CallPushBack 1 (@ByArgs Str 9)) (two_vectors None)
    = (Ok (), (@run Str (CallPushBack 1 (@ByArgs Str 9)) (two_vectors None)).2) ∧
  objs (two_vectors None) !! 1 = Some (MkVector (MkRaw 5 2) 2) ∧
  objs (@run Str (CallPushBack 1 (@ByArgs Str 9)) (two_vectors None)).2 !! 1
    = Some (MkVector (MkRaw 7 4) 3) ∧
  2 ≤ 4 ∧ 4 = 2 * 2.
Proof.
  assert (Hv : valid (CallPushBack 1 (@ByArgs Str 9)) (two_vectors None))
    by (split; eexists; reflexivity).
  assert (Hrun : @run Str (CallPushBack 1 (@ByArgs Str 9)) (two_vectors None)
    = (Ok (), (@run Str (CallPushBack 1 (@ByArgs Str 9)) (two_vectors None)).2))
    by (vm_compute; reflexivity).
  assert (Hu' : objs (@run Str (CallPushBack 1 (@ByArgs Str 9)) (two_vectors None)).2 !! 1
    = Some (MkVector (MkRaw 7 4) 3)) by (vm_compute; reflexivity).
  split; [apply Winv_two_vectors|]. split; [exact Hv|]. split; [exact Hrun|].
  split; [reflexivity|]. split; [exact Hu'|].
  destruct (capacity_policy (two_vectors None) (CallPushBack 1 (@ByArgs Str 9)) (Ok ()) _ 1
              _ _ (Winv_two_vectors None) Hv Hrun eq_refl eq_refl Hu') as [Hle Hgrow].
  split; [exact Hle|]. exact (Hgrow eq_refl eq_refl eq_refl).
Defined.



Lemma Insert_yields_example :
  elements (@Insert Str (Ptr 1 1) (@ByLvalue Str (Ptr 9 0)) (v12, m12 None)).2.1
           (@Insert Str (Ptr 1 1) (@ByLvalue Str (Ptr 9 0)) (v12, m12 None)).2.2
    = [Some 1; Some 99; Some 2].
Proof.
  apply (proj2 (proj2 (Insert_yields (ProbeQuiet true true true true) v12 (m12 None)
                         [1; 2] [None] 1 (@ByLvalue Str (Ptr 9 0)) 99
                         eq_refl (holds_v12 None) ltac:(simpl; lia) eq_refl
                         ltac:(simpl; auto))) (Ptr 1 1)).
  vm_compute. reflexivity.
Defined.

(** * The other members *)

Section Observations.
Context {E : ElemType}.
Implicit Types (m : Mem) (v u : Vector) (w : World).

(** A specification read on a run that throws. *)
Lemma spec_thrown {S A} `{!HasEnv S} q (c : StM S A) s ok bad :
  spec q c s ok bad → (c s).1 = Throw → bad (c s).2.
Proof.
  unfold spec. destruct (c s) as [[a| |] s']; simpl; try discriminate; tauto.
Qed.

(** A specification proved without any promise about throwing gives the
    outcome of every run. *)
Lemma spec_cases {S A} `{!HasEnv S} (c : StM S A) s ok bad :
  spec (@quiet _ Loud) c s ok bad →
  (∃ a s', c s = (Ok a, s') ∧ ok a s') ∨ (∃ s', c s = (Throw, s') ∧ bad s').
Proof.
  unfold spec. destruct (c s) as [[a| |] s']; simpl; [| |tauto].
  - intros [H _]. left. eauto.
  - intros [H _]. right. eauto.
Qed.

Lemma holds_slot v m xs rest i x :
  holds v m xs rest → xs !! i = Some x →
  slot_at (Ptr (buffer_ (data_ v)) i) m = Some (Some x).
Proof.
  intros (Hb & _) Hx.
  pose proof (take_drop_middle xs i x Hx) as Hsplit.
  rewrite <- Hsplit, fmap_app, fmap_cons, <- app_assoc in Hb. simpl in Hb.
  apply block_of_middle in Hb.
  eapply slot_at_middle; [exact Hb|]. simpl.
  rewrite length_fmap, length_take. apply lookup_lt_Some in Hx. lia.
Qed.

(** The destructor and [PopBack] as runs. *)
Lemma Vector_delete_run v m xs rest :
  wf_mem m → holds v m xs rest →
  ∃ m', Vector_delete v m = (Ok (), m') ∧
        blocks m' = delete (buffer_ (data_ v)) (blocks m).
Proof.
  intros Hwm Hh.
  assert (Hs : spec (@quiet _ Loud) (Vector_delete v) m
           (λ _ m', blocks m' = delete (buffer_ (data_ v)) (blocks m)) (λ _, False)).
  { eapply (Vector_delete_wp (Q := Loud)); eauto. }
  unfold spec in Hs.
  destruct (Vector_delete v m) as [[[]| |] m']; [|tauto|tauto].
  exists m'. tauto.
Qed.

Lemma PopBack_returns v m xs y rest :
  wf_mem m → holds v m (xs ++ [y]) rest → (PopBack (v, m)).1 = Ok ().
Proof.
  intros Hwm Hh.
  assert (Hs : spec (@quiet _ Loud) PopBack (v, m) (λ _ _, True) (λ _, False)).
  { eapply (PopBack_wp (Q := Loud)); eauto. }
  unfold spec in Hs.
  destruct (PopBack (v, m)) as [[[]| |] s']; [reflexivity|tauto|tauto].
Qed.

(** X1.  [EmplaceBack] on a vector holding [xs], given arguments that
    denote the value [V] (a reference to an element of the vector itself
    included), has no undefined behaviour and does not throw while the
    element type's operations do not; when it returns, the vector holds
    [xs ++ [V]], its size is one more, and the reference returned is to the
    new last element, which holds [V]. *)
Theorem EmplaceBack_yields (Q : Quiet) v m xs rest vs V :
  wf_mem m → holds v m xs rest → arg_value vs m = Some V →
  let out := EmplaceBack vs (v, m) in
  out.1 ≠ UB ∧
  (quiet (env m) → out.1 ≠ Throw) ∧
  (∀ r, out.1 = Ok r →
     elements out.2.1 out.2.2 = Some <$> (xs ++ [V]) ∧
     size_ out.2.1 = S (length xs) ∧
     r = Ptr (buffer_ (data_ out.2.1)) (length xs) ∧
     slot_at r out.2.2 = Some (Some V)).
Proof.
  intros Hwm Hh Hv.
  assert (Hs : spec quiet (EmplaceBack vs) (v, m)
           (λ r s', elements s'.1 s'.2 = Some <$> (xs ++ [V]) ∧
                    size_ s'.1 = S (length xs) ∧
                    r = Ptr (buffer_ (data_ s'.1)) (length xs) ∧
                    slot_at r s'.2 = Some (Some V))
           (λ _, True)).
  { eapply EmplaceBack_wp; [exact Hwm|exact Hh|exact Hv| |intros; exact I].
    intros v' m' rest' _ Hh' _. simpl.
    pose proof Hh' as (_ & Hl & _). rewrite length_app in Hl. simpl in Hl.
    split; [eapply holds_elements; eauto|]. split; [lia|]. split; [reflexivity|].
    eapply holds_slot; [exact Hh'|]. apply list_lookup_middle. reflexivity. }
  apply spec_out in Hs. exact Hs.
Qed.

(** X3.  [PopBack] on a vector holding [xs ++ [y]] returns, without
    throwing: the vector keeps its buffer and capacity and holds [xs], the
    slot of [y] is raw memory again, and no other block changes. *)
Theorem PopBack_yields v m xs y rest :
  wf_mem m → holds v m (xs ++ [y]) rest →
  ∃ m', PopBack (v, m) = (Ok (), (MkVector (data_ v) (size_ v - 1), m')) ∧
        elements (MkVector (data_ v) (size_ v - 1)) m' = Some <$> xs ∧
        size_ v - 1 = length xs ∧
        slot_at (Ptr (buffer_ (data_ v)) (length xs)) m' = Some None ∧
        ∀ a, a ≠ buffer_ (data_ v) → is_Some (blocks m !! a) →
             blocks m' !! a = blocks m !! a.
Proof.
  intros Hwm Hh.
  assert (Hs : spec (@quiet _ Loud) PopBack (v, m)
           (λ _ s', s'.1 = MkVector (data_ v) (size_ v - 1) ∧
                    holds s'.1 s'.2 xs (None :: rest) ∧
                    safe v m s'.1 s'.2)
           (λ _, False)).
  { eapply (PopBack_wp (Q := Loud)); eauto. }
  destruct (spec_cases _ _ _ _ Hs) as [([] & [v' m'] & Hrun & Hv' & Hh' & Hsafe)|(? & _ & [])].
  simpl in *. subst v'. exists m'. split; [exact Hrun|].
  split; [eapply holds_elements; eauto|].
  pose proof Hh' as (Hb & Hl & _). simpl in Hl. split; [lia|]. split.
  - apply block_of_middle in Hb. eapply slot_at_middle; [exact Hb|].
    simpl. rewrite length_fmap. reflexivity.
  - destruct Hsafe as (_ & _ & [F _] & _). exact F.
Qed.

Lemma Vector_at_wp (Q : Quiet) v m xs rest i
    (ok : ptr → Vector * Mem → Prop) (bad : Vector * Mem → Prop) :
  holds v m xs rest → i < length xs →
  ok (Ptr (buffer_ (data_ v)) i) (v, m) →
  spec quiet (Vector_at i) (v, m) ok bad.
Proof.
  intros (_ & Hl & Hc & _) Hi Hok. unfold Vector_at.
  apply spec_bind, get_this_wp. simpl.
  apply spec_bind, spec_assert; [apply bool_decide_eq_true_2; lia|].
  apply lift_wp, RawMemory_at_wp; [lia|exact Hok].
Qed.

(** X4.  After [PushBack] onto a vector holding [xs] of an argument that
    denotes [V], built in place or passed by [const] reference, [operator[]]
    at an index within the new size returns the address of that element of
    the vector's buffer, the one new, and the object there holds the
    element of [xs ++ [V]] at that index: the old elements at their
    indices, [V] at the last.  The two calls have no undefined behaviour
    and do not throw while the element type's operations do not. *)
Theorem at_after_PushBack (Q : Quiet) v m xs rest vs V i x :
  wf_mem m → holds v m xs rest → arg_value vs m = Some V →
  is_rvalue vs = false → (xs ++ [V]) !! i = Some x →
  let out := (PushBack vs ;; Vector_at i) (v, m) in
  out.1 ≠ UB ∧
  (quiet (env m) → out.1 ≠ Throw) ∧
  (∀ p, out.1 = Ok p →
     p = Ptr (buffer_ (data_ out.2.1)) i ∧
     slot_at p out.2.2 = Some (Some x) ∧
     elements out.2.1 out.2.2 = Some <$> (xs ++ [V])).
Proof.
  intros Hwm Hh Hv _ Hx.
  assert (Hs : spec quiet (PushBack vs ;; Vector_at i) (v, m)
     (λ p s', p = Ptr (buffer_ (data_ s'.1)) i ∧
              slot_at p s'.2 = Some (Some x) ∧
              elements s'.1 s'.2 = Some <$> (xs ++ [V]))
     (λ _, True)).
  { apply spec_bind. unfold PushBack. apply spec_bind.
    eapply EmplaceBack_wp; [exact Hwm|exact Hh|exact Hv| |intros; exact I].
    intros v' m' rest' _ Hh' _. apply spec_ret.
    eapply (Vector_at_wp Q v' m' (xs ++ [V]) rest' i); [exact Hh'| |].
    - eapply lookup_lt_Some; eauto.
    - simpl. split; [reflexivity|].
      split; [eapply holds_slot; eauto|eapply holds_elements; eauto]. }
  apply spec_out in Hs. exact Hs.
Qed.

(** X5.  [Reserve] of a capacity that fits [size_t] has no undefined
    behaviour and does not throw while the element type's operations do
    not; when it returns the elements and the size are as before and the
    capacity is the larger of the old capacity and the one asked for; asked
    for no more than the capacity, it does nothing at all. *)
Theorem Reserve_yields (Q : Quiet) v m xs rest new_capacity :
  wf_mem m → holds v m xs rest → count_fits new_capacity →
  let out := Reserve new_capacity (v, m) in
  out.1 ≠ UB ∧
  (quiet (env m) → out.1 ≠ Throw) ∧
  (out.1 = Ok () →
     elements out.2.1 out.2.2 = Some <$> xs ∧
     size_ out.2.1 = size_ v ∧
     capacity_ (data_ out.2.1) = capacity_ (data_ v) `max` new_capacity) ∧
  (new_capacity ≤ capacity_ (data_ v) → out = (Ok (), (v, m))).
Proof.
  intros Hwm Hh _.
  assert (Hs : spec quiet (Reserve new_capacity) (v, m)
           (λ _ s', elements s'.1 s'.2 = Some <$> xs ∧
                    size_ s'.1 = size_ v ∧
                    capacity_ (data_ s'.1) = capacity_ (data_ v) `max` new_capacity)
           (λ _, True)).
  { eapply Reserve_wp; [exact Hwm|exact Hh| |intros; exact I].
    intros v' m' rest' _ Hh' Hsz Hcap. simpl.
    split; [eapply holds_elements; eauto|]. auto. }
  apply spec_out in Hs. destruct Hs as (H1 & H2 & H3).
  split; [exact H1|]. split; [exact H2|]. split; [apply H3|].
  intros Hle. unfold Reserve, get_this, Capacity, mbind, StM_bind, mret, StM_ret. simpl.
  destruct (decide (new_capacity ≤ capacity_ (data_ v))); [reflexivity|lia].
Qed.

(** X7.  [Resize] to a [new_size] that fits [size_t] has no undefined
    behaviour and does not throw while the element type's operations do
    not; when it returns the vector holds the first [new_size] of its
    elements followed by value-initialised ones up to [new_size], its size
    is [new_size], and its capacity is not lower than before. *)
Theorem Resize_yields (Q : Quiet) v m xs rest new_size :
  wf_mem m → holds v m xs rest → count_fits new_size →
  let out := Resize new_size (v, m) in
  out.1 ≠ UB ∧
  (quiet (env m) → out.1 ≠ Throw) ∧
  (out.1 = Ok () →
     elements out.2.1 out.2.2 =
       Some <$> (take new_size xs ++ replicate (new_size - length xs) value_init) ∧
     size_ out.2.1 = new_size ∧
     capacity_ (data_ v) ≤ capacity_ (data_ out.2.1)).
Proof.
  intros Hwm Hh _. pose proof Hh as (_ & Hlen & _).
  assert (Hs : spec quiet (Resize new_size) (v, m)
           (λ _ s', elements s'.1 s'.2 =
                      Some <$> (take new_size xs ++ replicate (new_size - length xs) value_init) ∧
                    size_ s'.1 = new_size ∧
                    capacity_ (data_ v) ≤ capacity_ (data_ s'.1))
           (λ _, True)).
  { eapply Resize_wp; [exact Hwm|exact Hh| |intros; exact I].
    intros v' m' rest' Hsafe Hh'. simpl. rewrite Hlen.
    split; [eapply holds_elements; eauto|].
    destruct Hh' as (_ & Hl' & _). destruct Hsafe as (_ & _ & _ & Hc).
    split; [|exact Hc].
    rewrite length_app, length_take, length_replicate in Hl'. lia. }
  apply spec_out in Hs. destruct Hs as (H1 & H2 & H3).
  split; [exact H1|]. split; [exact H2|]. apply H3.
Qed.

(** What exists before a constructor runs keeps its elements. *)
Lemma elements_born u v' m m' :
  wf_mem m → wf u m → born v' m m' → elements u m' = elements u m.
Proof.
  intros Hw (ys & r & Hh) (Hw' & F & _). unfold elements, block_of.
  destruct Hh as (_ & _ & _ & [H0|Hs]).
  - rewrite H0, Hw, Hw'. reflexivity.
  - rewrite (F _ Hs). reflexivity.
Qed.

(** X10.  The destructor of a vector returns, without throwing: the
    vector's buffer is released, every other block is as it was, and
    nothing lives at the null address. *)
Theorem Vector_delete_frees v m xs rest :
  wf_mem m → holds v m xs rest →
  ∃ m', Vector_delete v m = (Ok (), m') ∧
        blocks m' = delete (buffer_ (data_ v)) (blocks m) ∧
        blocks m' !! buffer_ (data_ v) = None ∧
        (∀ a, a ≠ buffer_ (data_ v) → blocks m' !! a = blocks m !! a) ∧
        wf_mem m'.
Proof.
  intros Hwm Hh.
  destruct (Vector_delete_run v m xs rest Hwm Hh) as (m' & Hrun & Hb).
  exists m'. split; [exact Hrun|]. split; [exact Hb|].
  split; [rewrite Hb; apply lookup_delete_eq|].
  split; [intros a Ha; rewrite Hb; apply lookup_delete_ne; congruence|].
  unfold wf_mem. rewrite Hb.
  destruct (decide (buffer_ (data_ v) = 0)) as [->|Hne].
  - apply lookup_delete_eq.
  - rewrite lookup_delete_ne by exact Hne. exact Hwm.
Qed.

(** X19.  [RawMemory(capacity)], for a capacity that fits [size_t], has
    no undefined behaviour and does not throw while allocation does not.
    For capacity 0 it makes the null handle without calling [operator new]
    and touches nothing; otherwise it returns a non-null handle to a new
    block of [capacity] raw slots at an address that was unused, with the
    capacity asked for; when allocation throws, no block has changed. *)
Theorem RawMemory_new_yields (Q : Quiet) m capacity :
  count_fits capacity →
  let out := RawMemory_new capacity m in
  out.1 ≠ UB ∧
  (quiet (env m) → out.1 ≠ Throw) ∧
  (capacity = 0 → out = (Ok (MkRaw 0 0), m)) ∧
  (∀ r, out.1 = Ok r → capacity ≠ 0 →
     capacity_ r = capacity ∧ buffer_ r ≠ 0 ∧ blocks m !! buffer_ r = None ∧
     blocks out.2 = <[buffer_ r := replicate capacity None]> (blocks m)) ∧
  (out.1 = Throw → blocks out.2 = blocks m).
Proof.
  intros _.
  destruct (decide (capacity = 0)) as [->|Hne].
  - simpl. repeat split; try discriminate; try tauto.
  - assert (Hs : spec quiet (RawMemory_new capacity) m
             (λ r m', capacity_ r = capacity ∧ buffer_ r ≠ 0 ∧
                      blocks m !! buffer_ r = None ∧
                      blocks m' = <[buffer_ r := replicate capacity None]> (blocks m))
             (λ m', blocks m' = blocks m)).
    { apply RawMemory_new_wp; auto. }
    pose proof (spec_thrown _ _ _ _ _ Hs) as H4.
    apply spec_out in Hs. destruct Hs as (H1 & H2 & H3).
    split; [exact H1|]. split; [exact H2|]. split; [tauto|]. split; [|exact H4].
    intros r Hr _. apply H3. exact Hr.
Qed.

Lemma Emplace_at_end v m xs rest vs :
  holds v m xs rest →
  Emplace (Ptr (buffer_ (data_ v)) (size_ v)) vs (v, m) = EmplaceBack vs (v, m).
Proof.
  intros (_ & _ & Hc & _).
  unfold Emplace, Vector_begin, Vector_end, RawMemory_plus, lift, assert, get_this,
    GetAddress, ptr_le, mbind, StM_bind, mret, StM_ret. simpl.
  rewrite !bool_decide_eq_true_2 by lia. simpl.
  destruct (decide _) as [_|Hn]; [|congruence].
  rewrite !bool_decide_eq_true_2 by lia. reflexivity.
Qed.

(** X20.  [Insert] at [end()] of a vector holding [xs], given an argument
    that denotes [V], built in place or passed by [const] reference, a
    reference to an element of the vector itself included, has no undefined
    behaviour and does not throw while the element type's operations do
    not; when it returns, the vector holds [xs ++ [V]], its size is one
    more, and the iterator returned is the position of the new last
    element, which holds [V]. *)
Theorem Insert_at_end_yields (Q : Quiet) v m xs rest vs V :
  wf_mem m → holds v m xs rest → arg_value vs m = Some V →
  is_rvalue vs = false →
  let out := Insert (Ptr (buffer_ (data_ v)) (size_ v)) vs (v, m) in
  out.1 ≠ UB ∧
  (quiet (env m) → out.1 ≠ Throw) ∧
  (∀ r, out.1 = Ok r →
     elements out.2.1 out.2.2 = Some <$> (xs ++ [V]) ∧
     size_ out.2.1 = S (length xs) ∧
     r = Ptr (buffer_ (data_ out.2.1)) (length xs) ∧
     slot_at r out.2.2 = Some (Some V)).
Proof.
  intros Hwm Hh Hv _. unfold Insert.
  rewrite (Emplace_at_end v m xs rest vs Hh).
  assert (Hs : spec quiet (EmplaceBack vs) (v, m)
           (λ r s', elements s'.1 s'.2 = Some <$> (xs ++ [V]) ∧
                    size_ s'.1 = S (length xs) ∧
                    r = Ptr (buffer_ (data_ s'.1)) (length xs) ∧
                    slot_at r s'.2 = Some (Some V))
           (λ _, True)).
  { eapply EmplaceBack_wp; [exact Hwm|exact Hh|exact Hv| |intros; exact I].
    intros v' m' rest' _ Hh' _. simpl.
    pose proof Hh' as (_ & Hl & _). rewrite length_app in Hl. simpl in Hl.
    split; [eapply holds_elements; eauto|]. split; [lia|]. split; [reflexivity|].
    eapply holds_slot; [exact Hh'|]. apply list_lookup_middle. reflexivity. }
  apply spec_out in Hs. exact Hs.
Qed.

End Observations.

Section NoThrow.
Context {E : ElemType}.
Implicit Types (m : Mem) (v u : Vector) (p : ptr).

Lemma bind_thrown {S A B} (c : StM S A) (f : A → StM S B) s :
  ((c ≫= f) s).1 = Throw →
  (c s).1 = Throw ∨ ∃ a s', c s = (Ok a, s') ∧ (f a s').1 = Throw.
Proof.
  unfold mbind, StM_bind. destruct (c s) as [[a| |] s']; simpl; intros H.
  - right. eauto.
  - left. reflexivity.
  - discriminate.
Qed.

Lemma on_throw_thrown {S A} (c : StM S A) (h : StM S unit) s :
  (on_throw c h s).1 = Throw → (c s).1 = Throw.
Proof.
  unfold on_throw. destruct (c s) as [[a| |] s']; simpl; auto; discriminate.
Qed.

Lemma load_not_thrown p m : (load p m).1 ≠ Throw.
Proof. unfold load. destruct (slot_at p m) as [[x|]|]; discriminate. Qed.

Lemma write_slot_not_thrown p s m : (write_slot p s m).1 ≠ Throw.
Proof.
  unfold write_slot. destruct (blocks m !! blk p); [|discriminate].
  destruct (decide _); discriminate.
Qed.

Lemma T_move_construct_not_thrown dst src m :
  is_nothrow_move_constructible = true →
  (T_move_construct dst src m).1 ≠ Throw.
Proof.
  intros Hn Ht. unfold T_move_construct in Ht.
  apply bind_thrown in Ht as [Ht|(x & m1 & _ & Ht)]; [exact (load_not_thrown _ _ Ht)|].
  apply bind_thrown in Ht as [Ht|([] & m2 & _ & Ht)].
  { unfold fire in Ht. pose proof (nothrow_move_ctor_sound Hn x (env m1)) as Hr.
    destruct (react (EvMoveCtor x) (env m1)) as [e' b]. simpl in *. subst b.
    discriminate. }
  apply bind_thrown in Ht as [Ht|([] & m3 & _ & Ht)].
  { exact (write_slot_not_thrown _ _ _ Ht). }
  unfold store in Ht.
  apply bind_thrown in Ht as [Ht|(y & m4 & _ & Ht)]; [exact (load_not_thrown _ _ Ht)|].
  exact (write_slot_not_thrown _ _ _ Ht).
Qed.

Lemma uninitialized_move_loop_not_thrown n :
  is_nothrow_move_constructible = true →
  ∀ first d_first k m, (uninitialized_move_loop first n d_first k m).1 ≠ Throw.
Proof.
  intros Hn. induction n as [|n IH]; intros first d_first k m Ht; simpl in Ht.
  - discriminate.
  - apply bind_thrown in Ht as [Ht|([] & m1 & _ & Ht)].
    + apply on_throw_thrown in Ht. exact (T_move_construct_not_thrown _ _ _ Hn Ht).
    + exact (IH _ _ _ _ Ht).
Qed.

End NoThrow.

Section Guarded.
Context {E : ElemType} {Q : Quiet}.
Implicit Types (m : Mem) (v u : Vector) (p : ptr).

Lemma spec_not_thrown {S A} `{!HasEnv S} q (c : StM S A) s ok bad bad' :
  spec q c s ok bad → (c s).1 ≠ Throw → spec q c s ok bad'.
Proof.
  unfold spec. destruct (c s) as [[a| |] s']; simpl; auto. intros _ H. congruence.
Qed.

(** [uninitialized_move_n_wp] for a caller that need not say what a throw
    leaves behind when the move constructor cannot throw. *)
Lemma uninitialized_move_n_guarded_wp xs n bs i s1 s2 bd j d1 hole d2 m
    (ok : unit → Mem → Prop) (bad : Mem → Prop) :
  n = length xs → bs ≠ bd →
  block_of bs m = s1 ++ (Some <$> xs) ++ s2 → i = length s1 →
  block_of bd m = d1 ++ hole ++ d2 → j = length d1 → length hole = n →
  (∀ m', blocks m' = set_block bs (s1 ++ (Some <$> (moved_from <$> xs)) ++ s2)
                      (set_block bd (d1 ++ (Some <$> xs) ++ d2) (blocks m)) →
         ok () m') →
  (is_nothrow_move_constructible = false →
   ∀ m' zs ws, length zs = n → length ws = n →
     blocks m' = set_block bs (s1 ++ (Some <$> zs) ++ s2)
                   (set_block bd (d1 ++ ws ++ d2) (blocks m)) → bad m') →
  spec quiet (uninitialized_move_n (Ptr bs i) n (Ptr bd j)) m ok bad.
Proof.
  intros Hn Hne Hs Hi Hd Hj Hh Hok Hbad.
  destruct is_nothrow_move_constructible eqn:Hnt.
  - eapply (spec_not_thrown _ _ _ _ (λ _, True)).
    + eapply uninitialized_move_n_wp; eauto.
    + apply uninitialized_move_loop_not_thrown. exact Hnt.
  - eapply uninitialized_move_n_wp; eauto.
Qed.

End Guarded.

Section StrongGuarantee.
Context {E : ElemType} {Q : Quiet}.
Implicit Types (B : gmap nat (list slot)) (l : list slot) (m : Mem) (p : ptr) (v : Vector).

Lemma relocation_cannot_lose :
  is_nothrow_move_constructible = true ∨ is_copy_constructible = true →
  relocate_by_move = true → is_nothrow_move_constructible = false → False.
Proof.
  unfold relocate_by_move. intros [H|H] Hm Hn; rewrite ?H, ?Hn in *; simpl in *;
    discriminate.
Qed.

(** What a throwing [Reserve] leaves behind, for an element type that is
    nothrow-move-constructible or copy-constructible. *)
Lemma Reserve_throw_wp new_capacity v m xs rest (bad : Vector * Mem → Prop) :
  wf_mem m → holds v m xs rest →
  is_nothrow_move_constructible = true ∨ is_copy_constructible = true →
  (∀ m', blocks m' = blocks m → bad (v, m')) →
  spec quiet (Reserve new_capacity) (v, m) (λ _ _, True) bad.
Proof.
  intros Hwm Hh Htraits Hbad0.
  pose proof Hh as (Hblk & Hlen & Hcap & Hbuf).
  destruct v as [[buf cap] n]. simpl in *.
  unfold Reserve. apply spec_bind, get_this_wp. simpl.
  destruct (decide (new_capacity ≤ cap)) as [Hle|Hgt].
  { apply spec_ret. exact I. }
  apply spec_bind, lift_wp, RawMemory_new_wp; [lia| |exact Hbad0].
  intros a m1 Ha0 Hfresh H1. simpl.
  assert (Hab : buf ≠ a).
  { intros ->. destruct Hbuf as [?|[? Hs]]; [tauto|]. rewrite Hfresh in Hs. discriminate. }
  assert (Hsplit : replicate new_capacity (@None T) =
            replicate n None ++ replicate (new_capacity - n) None).
  { rewrite <- replicate_add. f_equal. lia. }
  assert (Hfinish : ∀ m3 zs, length zs = n →
     blocks m3 = set_block buf ((Some <$> zs) ++ rest)
                   (<[a := (Some <$> xs) ++ replicate (new_capacity - n) None]> (blocks m)) →
     spec quiet
       (lift (destroy_n (GetAddress (MkRaw buf cap)) n) ≫= λ _,
        set_data (MkRaw a new_capacity) ≫= λ _,
        lift (RawMemory_delete (MkRaw buf cap)))
       (MkVector (MkRaw buf cap) n, m3) (λ _ _, True) bad).
  { intros m3 zs Hz H3.
    apply spec_bind, lift_wp.
    eapply (destroy_n_wp zs n buf 0 [] rest); [congruence | | reflexivity |].
    { unfold block_of. rewrite H3. blocks_simpl.
      unfold block_of in Hblk. destruct (blocks m !! buf); simpl in *; [reflexivity|].
      destruct xs; [|discriminate]. simpl in *. subst n.
      destruct zs; [|discriminate]. exact Hblk. }
    simpl. intros m4 H4. rewrite H3 in H4. apply spec_bind, set_data_wp. simpl.
    apply lift_wp, RawMemory_delete_wp.
    - unfold wf_mem. rewrite H4.
      destruct (decide (buf = 0)) as [->|Hne]; blocks_simpl; [rewrite Hwm|]; auto.
    - simpl. destruct Hbuf as [?|[l Hs]]; [tauto|]. right.
      rewrite H4. blocks_simpl. eauto.
    - simpl. intros m5 H5. exact I. }
  apply spec_bind, lift_wp, spec_on_throw.
  destruct relocate_by_move eqn:Hmode.
  - eapply (uninitialized_move_n_guarded_wp xs n buf 0 [] rest a 0 [] (replicate n None)
              (replicate (new_capacity - n) None)).
    { symmetry. exact Hlen. }
    { exact Hab. }
    { unfold block_of. rewrite H1, lookup_insert_ne by congruence. exact Hblk. }
    { reflexivity. }
    { unfold block_of. rewrite H1, lookup_insert_eq. simpl. exact Hsplit. }
    { reflexivity. }
    { apply length_replicate. }
    + simpl. intros m3 H3. rewrite H1 in H3.
      apply (Hfinish m3 (moved_from <$> xs)).
      { rewrite length_fmap. exact Hlen. }
      rewrite H3. blocks_eq2 a buf.
    + intros Hnt. destruct (relocation_cannot_lose Htraits Hmode Hnt).
  - eapply (uninitialized_copy_n_wp xs n buf 0 [] rest a 0 [] (replicate n None)
              (replicate (new_capacity - n) None)).
    { symmetry. exact Hlen. }
    { exact Hab. }
    { unfold block_of. rewrite H1, lookup_insert_ne by congruence. exact Hblk. }
    { reflexivity. }
    { unfold block_of. rewrite H1, lookup_insert_eq. simpl. exact Hsplit. }
    { reflexivity. }
    { apply length_replicate. }
    + simpl. intros m3 H3. rewrite H1 in H3.
      apply (Hfinish m3 xs Hlen).
      rewrite H3. blocks_eq2 a buf.
    + intros m3 ws Hws H3. rewrite H1 in H3.
      eapply (RawMemory_delete_wp (Q := Loud)).
      { unfold wf_mem. rewrite H3. blocks_simpl. auto. }
      { right. simpl. rewrite H3. blocks_simpl. eauto. }
      simpl. intros m4 H4. apply Hbad0. rewrite H4, H3. blocks_eq1 a.
Qed.

(** What a throwing [EmplaceBack] leaves behind, for an element type that
    is nothrow-move-constructible or copy-constructible. *)
Lemma EmplaceBack_throw_wp vs x v m xs rest (bad : Vector * Mem → Prop) :
  wf_mem m → holds v m xs rest → arg_value vs m = Some x →
  is_nothrow_move_constructible = true ∨ is_copy_constructible = true →
  (∀ m', blocks m' = blocks m → bad (v, m')) →
  spec quiet (EmplaceBack vs) (v, m) (λ _ _, True) bad.
Proof.
  intros Hwm Hh Hv Htraits Hbad0.
  destruct Hh as (Hblk & Hlen & Hcap & Hbuf).
  destruct v as [[buf cap] n]. simpl in *.
  unfold EmplaceBack. apply spec_bind, get_this_wp. simpl.
  apply spec_bind. destruct (decide (n = cap)) as [Hfull|Hroom].
  - (* the buffer is full *)
    assert (rest = []) as -> by (destruct rest; [reflexivity|simpl in Hcap; lia]).
    clear Hcap. subst cap. rewrite app_nil_r in Hblk.
    apply spec_bind, lift_wp, RawMemory_new_wp; [apply grown_pos| |exact Hbad0].
    intros a m1 Ha0 Hfresh H1. simpl.
    assert (Hab : buf ≠ a).
    { intros ->. destruct Hbuf as [?|[? Hs]]; [tauto|]. rewrite Hfresh in Hs. discriminate. }
    pose proof (grown_gt n) as Hgt.
    apply spec_bind, lift_wp, spec_on_throw.
    apply spec_bind, RawMemory_plus_wp; [simpl; lia|]. simpl.
    apply spec_bind.
    eapply (T_construct_wp _ _ x _ (replicate n None) None (replicate (grown n - S n) None)).
    { eapply arg_value_fresh; eauto. }
    { simpl. rewrite H1, lookup_insert_eq. f_equal. apply replicate_split. exact Hgt. }
    { simpl. rewrite length_replicate. reflexivity. }
    2:{ intros m2 H2. eapply (RawMemory_delete_wp (Q := Loud)).
      - unfold wf_mem. rewrite H2, H1, lookup_insert_ne by exact Ha0. exact Hwm.
      - right. simpl. rewrite H2, H1, lookup_insert_eq. eauto.
      - simpl. intros m3 H3. apply Hbad0. rewrite H3, H2, H1.
        apply delete_insert_id. exact Hfresh. }
    simpl. intros m2 H2. rewrite H1 in H2. rewrite <- (set_block_insert a _ (replicate (grown n) None)) in H2
      by apply lookup_insert_eq.
    rewrite insert_insert_eq in H2.
    apply spec_bind.
    destruct relocate_by_move eqn:Hmode.
    + eapply (uninitialized_move_n_guarded_wp xs n buf 0 [] [] a 0 [] (replicate n None)
                (Some x :: replicate (grown n - S n) None)).
      { symmetry. exact Hlen. }
      { exact Hab. }
      { unfold block_of. rewrite H2, lookup_insert_ne by congruence.
        rewrite app_nil_r. exact Hblk. }
      { reflexivity. }
      { unfold block_of. rewrite H2, lookup_insert_eq. reflexivity. }
      { reflexivity. }
      { apply length_replicate. }
      * simpl. intros m3 H3. rewrite H2 in H3. apply spec_ret.
        eapply (swap_in_wp buf n a (grown n) (moved_from <$> xs)).
        { unfold wf_mem. rewrite H3. blocks_simpl.
          destruct (decide (buf = 0)) as [->|Hne]; blocks_simpl; [rewrite Hwm|]; auto. }
        { destruct Hbuf as [?|[l Hs]]; [tauto|]. right. rewrite H3. blocks_simpl. eauto. }
        { unfold block_of. rewrite H3. blocks_simpl.
          unfold block_of in Hblk. destruct (blocks m !! buf); simpl in *.
          - rewrite app_nil_r. reflexivity.
          - destruct xs; [reflexivity|discriminate]. }
        { rewrite length_fmap. exact Hlen. }
        intros m4 H4. apply spec_ret. apply spec_bind, get_this_wp.
        apply spec_bind, set_size_wp, spec_ret. exact I.
      * intros Hnt. destruct (relocation_cannot_lose Htraits Hmode Hnt).
    + eapply (uninitialized_copy_n_wp xs n buf 0 [] [] a 0 [] (replicate n None)
                (Some x :: replicate (grown n - S n) None)).
      { symmetry. exact Hlen. }
      { exact Hab. }
      { unfold block_of. rewrite H2, lookup_insert_ne by congruence.
        rewrite app_nil_r. exact Hblk. }
      { reflexivity. }
      { unfold block_of. rewrite H2, lookup_insert_eq. reflexivity. }
      { reflexivity. }
      { apply length_replicate. }
      * simpl. intros m3 H3. rewrite H2 in H3. apply spec_ret.
        eapply (swap_in_wp buf n a (grown n) xs).
        { unfold wf_mem. rewrite H3. blocks_simpl. auto. }
        { destruct Hbuf as [?|[l Hs]]; [tauto|]. right. rewrite H3. blocks_simpl. eauto. }
        { unfold block_of. rewrite H3. blocks_simpl. exact Hblk. }
        { exact Hlen. }
        intros m4 H4. apply spec_ret. apply spec_bind, get_this_wp.
        apply spec_bind, set_size_wp, spec_ret. exact I.
      * intros m3 ws Hws H3. rewrite H2 in H3.
        eapply (RawMemory_delete_wp (Q := Loud)).
        { unfold wf_mem. rewrite H3. blocks_simpl. auto. }
        { right. simpl. rewrite H3. blocks_simpl. eauto. }
        simpl. intros m4 H4. apply Hbad0. rewrite H4, H3. blocks_eq1 a.
  - (* there is room *)
    destruct rest as [|s rest]; [simpl in Hcap; lia|].
    pose proof (block_of_middle _ _ _ _ _ Hblk) as Hblk'.
    apply spec_bind, lift_wp, RawMemory_plus_wp; [simpl; lia|]. simpl.
    apply spec_bind, lift_wp.
    eapply T_construct_wp; [exact Hv | exact Hblk' | simpl; rewrite length_fmap; auto | |].
    2:{ intros m1 H1. apply Hbad0, H1. }
    simpl. intros m1 H1. apply spec_ret. apply spec_bind, get_this_wp.
    apply spec_bind, set_size_wp, spec_ret. exact I.
Qed.

End StrongGuarantee.

Section StrongGuaranteeTheorems.
Context {E : ElemType}.
Implicit Types (m : Mem) (v : Vector).

(** X6.  For an element type that is nothrow-move-constructible or
    copy-constructible, a [Reserve] that throws leaves the vector object
    and every block of memory, hence the elements, as they were. *)
Theorem Reserve_strong_guarantee v m xs rest new_capacity s' :
  wf_mem m → holds v m xs rest →
  is_nothrow_move_constructible = true ∨ is_copy_constructible = true →
  Reserve new_capacity (v, m) = (Throw, s') →
  s'.1 = v ∧ blocks s'.2 = blocks m ∧ elements v s'.2 = Some <$> xs.
Proof.
  intros Hwm Hh Htraits Hrun.
  pose proof (Reserve_throw_wp (Q := Loud) new_capacity v m xs rest
                (λ s', s'.1 = v ∧ blocks s'.2 = blocks m) Hwm Hh Htraits
                (λ m' H, conj eq_refl H)) as Hs.
  apply spec_thrown in Hs; [|rewrite Hrun; reflexivity].
  rewrite Hrun in Hs. simpl in Hs. destruct Hs as [Hv Hb].
  split; [exact Hv|]. split; [exact Hb|].
  eapply holds_elements, holds_blocks; eauto.
Qed.

(** X2.  For an element type that is nothrow-move-constructible or
    copy-constructible, an [EmplaceBack] that throws, with or without
    reallocation, of an argument built in place or passed by [const]
    reference, leaves the vector as it was: the same object (buffer,
    capacity and size), the same contents of its buffer, hence the same
    elements, and every other block of memory as it was. *)
Theorem EmplaceBack_strong_guarantee v m xs rest vs V s' :
  wf_mem m → holds v m xs rest → arg_value vs m = Some V →
  is_rvalue vs = false →
  is_nothrow_move_constructible = true ∨ is_copy_constructible = true →
  EmplaceBack vs (v, m) = (Throw, s') →
  s'.1 = v ∧
  block_of (buffer_ (data_ v)) s'.2 = block_of (buffer_ (data_ v)) m ∧
  elements v s'.2 = Some <$> xs ∧
  blocks s'.2 = blocks m.
Proof.
  intros Hwm Hh Hv _ Htraits Hrun.
  pose proof (EmplaceBack_throw_wp (Q := Loud) vs V v m xs rest
                (λ s', s'.1 = v ∧ blocks s'.2 = blocks m) Hwm Hh Hv Htraits
                (λ m' H, conj eq_refl H)) as Hs.
  apply spec_thrown in Hs; [|rewrite Hrun; reflexivity].
  rewrite Hrun in Hs. simpl in Hs. destruct Hs as [Hv' Hb].
  split; [exact Hv'|]. split; [apply block_of_blocks, Hb|].
  split; [|exact Hb].
  eapply holds_elements, holds_blocks; eauto.
Qed.

End StrongGuaranteeTheorems.

Section WorldFacts.
Context {E : ElemType}.
Implicit Types (m : Mem) (v u : Vector) (w : World).

(** Another vector keeps its elements across a member function of [v]. *)
Lemma elements_frame u v m v' m' :
  wf_mem m → wf_mem m' → wf u m → frame v m v' m' →
  buffer_ (data_ u) ≠ buffer_ (data_ v) ∨ buffer_ (data_ u) = 0 →
  elements u m' = elements u m.
Proof.
  intros Hw Hw' (ys & r & Hh) F Hd.
  rewrite (holds_elements _ _ _ _ Hh).
  apply (holds_elements u m' ys r).
  exact (holds_frame u ys r v m v' m' Hw Hw' Hh F Hd).
Qed.

Lemma invoke_run_eq {A} this (body : VM A) w v :
  objs w !! this = Some v →
  invoke this body w =
    ((body (v, wmem w)).1,
     MkWorld (<[this := (body (v, wmem w)).2.1]> (objs w)) (body (v, wmem w)).2.2).
Proof.
  intros Hv. unfold invoke. rewrite Hv.
  destruct (body (v, wmem w)) as [r [v' m']]. reflexivity.
Qed.

(** X12.  Copy assignment from a different vector, in a world in order,
    has no undefined behaviour and does not throw while the element type's
    operations do not; when it returns the target holds the source's
    elements and has its size, its capacity is the source's size if the old
    capacity was smaller and the old capacity otherwise, and the source
    object and its elements are unchanged. *)
Theorem copy_assign_yields (Q : Quiet) w this rhs a o :
  Winv w → this ≠ rhs → objs w !! this = Some a → objs w !! rhs = Some o →
  let out := Vector_copy_assign this rhs w in
  out.1 ≠ UB ∧
  (quiet (env (wmem w)) → out.1 ≠ Throw) ∧
  (out.1 = Ok () →
     ∃ a', objs out.2 !! this = Some a' ∧
           elements a' (wmem out.2) = elements o (wmem w) ∧
           size_ a' = size_ o ∧
           capacity_ (data_ a') =
             (if decide (capacity_ (data_ a) < size_ o) then size_ o
              else capacity_ (data_ a)) ∧
           objs out.2 !! rhs = Some o ∧
           elements o (wmem out.2) = elements o (wmem w)).
Proof.
  intros Hinv Hne Ha Ho.
  pose proof Hinv as (Hwm & Hall & Hdis).
  destruct (Hall _ _ Ha) as (xs & rest & Hh).
  destruct (Hall _ _ Ho) as (ys & rrest & Hr).
  assert (Hd : buffer_ (data_ o) ≠ buffer_ (data_ a) ∨ buffer_ (data_ o) = 0).
  { apply (Hdis rhs this o a); auto. }
  assert (Hs : spec quiet (copy_assign_body o) (a, wmem w)
    (λ _ s', elements s'.1 s'.2 = elements o (wmem w) ∧
             size_ s'.1 = size_ o ∧
             capacity_ (data_ s'.1) =
               (if decide (capacity_ (data_ a) < size_ o) then size_ o
                else capacity_ (data_ a)) ∧
             elements o s'.2 = elements o (wmem w))
    (λ _, True)).
  { eapply copy_assign_body_wp; [exact Hwm|exact Hh|exact Hr|exact Hd| |intros; exact I].
    intros v' m' rest' Hsafe Hh' Hc. simpl.
    rewrite (holds_elements _ _ _ _ Hh'), (holds_elements _ _ _ _ Hr).
    split; [reflexivity|].
    destruct Hh' as (_ & Hl' & _). destruct Hr as (Hb & Hl & Hr').
    split; [lia|]. split; [exact Hc|].
    destruct Hsafe as (_ & Hw' & F & _).
    rewrite <- (holds_elements o (wmem w) ys rrest) by (repeat split; auto; apply Hr').
    eapply elements_frame; eauto. }
  apply spec_out in Hs. destruct Hs as (H1 & H2 & H3).
  unfold Vector_copy_assign. destruct (decide (this ≠ rhs)) as [_|]; [|tauto].
  rewrite Ho, (invoke_run_eq this _ w a Ha). simpl.
  split; [exact H1|]. split; [exact H2|].
  intros Hok. destruct (H3 () Hok) as (He & Hsz & Hc & Heo).
  eexists. split; [apply lookup_insert_eq|].
  rewrite lookup_insert_ne by exact Hne. auto.
Qed.

(** X13.  [Swap] returns and touches no memory: each of the two objects
    gets the buffer, capacity and size of the other, every other object is
    unchanged, and a second [Swap] of the same two restores the world. *)
Theorem Swap_exchanges w this other a b :
  objs w !! this = Some a → objs w !! other = Some b →
  ∃ w', Vector_Swap_at this other w = (Ok (), w') ∧
        wmem w' = wmem w ∧
        objs w' !! this = Some b ∧
        objs w' !! other = Some a ∧
        (∀ l, l ≠ this → l ≠ other → objs w' !! l = objs w !! l) ∧
        Vector_Swap_at this other w' = (Ok (), w).
Proof.
  intros Ha Hb. unfold Vector_Swap_at at 1. rewrite Ha, Hb.
  destruct a as [[ab ac] an]. destruct b as [[bb bc] bn]. simpl.
  eexists. split; [reflexivity|]. simpl. split; [reflexivity|].
  destruct (decide (this = other)) as [->|Hne].
  - rewrite Ha in Hb. injection Hb as <- <- <-.
    rewrite lookup_insert_eq. split; [reflexivity|]. split; [reflexivity|].
    split; [intros l Hl _; rewrite !lookup_insert_ne by congruence; reflexivity|].
    unfold Vector_Swap_at. simpl. rewrite lookup_insert_eq. simpl.
    rewrite !insert_insert_eq, insert_id by exact Ha. destruct w; reflexivity.
  - rewrite lookup_insert_ne, !lookup_insert_eq by congruence.
    split; [reflexivity|]. split; [reflexivity|].
    split; [intros l Hl Hl'; rewrite !lookup_insert_ne by congruence; reflexivity|].
    unfold Vector_Swap_at. simpl.
    rewrite lookup_insert_ne, !lookup_insert_eq by congruence. simpl.
    f_equal. destruct w as [ob wm]. simpl in *. f_equal.
    apply map_eq. intros l.
    destruct (decide (l = other)) as [->|H1]; [rewrite lookup_insert_eq; auto|].
    rewrite lookup_insert_ne by congruence.
    destruct (decide (l = this)) as [->|H2]; [rewrite lookup_insert_eq; auto|].
    rewrite !lookup_insert_ne by congruence. reflexivity.
Qed.

End WorldFacts.

Section Isolation.
Context {E : ElemType}.
Implicit Types (m : Mem) (v u : Vector) (w : World).

Lemma elements_blocks u m m' :
  blocks m' = blocks m → elements u m' = elements u m.
Proof. intros H. unfold elements, block_of. rewrite H. reflexivity. Qed.

Lemma invoke_isolated {A} this (body : VM A) w v r w' l u :
  Winv w → objs w !! this = Some v →
  spec (@quiet _ Loud) body (v, wmem w)
    (λ _ s', safe v (wmem w) s'.1 s'.2) (λ s', safe v (wmem w) s'.1 s'.2) →
  invoke this body w = (r, w') →
  l ≠ this → objs w !! l = Some u →
  objs w' !! l = Some u ∧ elements u (wmem w') = elements u (wmem w).
Proof.
  intros (Hwm & Hall & Hdis) Hthis Hs Hrun Hl Hu.
  rewrite (invoke_run_eq this body w v Hthis) in Hrun.
  assert (Hsafe : safe v (wmem w) (body (v, wmem w)).2.1 (body (v, wmem w)).2.2).
  { unfold spec in Hs. destruct (body (v, wmem w)) as [[a| |] s']; simpl; tauto. }
  injection Hrun as _ <-. simpl.
  rewrite lookup_insert_ne by congruence. split; [exact Hu|].
  destruct Hsafe as (_ & Hw' & F & _).
  eapply elements_frame; eauto.
Qed.

Lemma emplace_object_isolated this (ctor : M Vector) w r w' l u :
  Winv w → objs w !! this = None →
  spec (@quiet _ Loud) ctor (wmem w)
    (λ v' m', born v' (wmem w) m')
    (λ m', blocks m' = blocks (wmem w)) →
  emplace_object this ctor w = (r, w') →
  objs w !! l = Some u →
  objs w' !! l = Some u ∧ elements u (wmem w') = elements u (wmem w).
Proof.
  intros (Hwm & Hall & Hdis) Hthis Hs Hrun Hu.
  assert (Hl : l ≠ this) by congruence.
  unfold emplace_object in Hrun. rewrite Hthis in Hrun.
  unfold spec in Hs.
  destruct (ctor (wmem w)) as [[v'| |] m']; simpl in *; [| |tauto];
    injection Hrun as _ <-; simpl.
  - rewrite lookup_insert_ne by congruence. split; [exact Hu|].
    destruct Hs as [Hb _]. eapply elements_born; eauto.
  - split; [exact Hu|]. destruct Hs as [Hb _]. apply elements_blocks, Hb.
Qed.

(** X14.  A valid call on a world in order that forwards no rvalue to a
    constructor of [T] (its element argument, if it has one, is built from
    values or passed by [const] reference), whether it returns or throws,
    leaves every vector it may not write as it was, the object and its
    elements: that is every vector but [*this] and, for the move
    constructor, move assignment and [Swap], the other operand.  The source
    of a copy construction or copy assignment is among those left alone. *)
Theorem calls_leave_others_alone w c r w' l u :
  Winv w → valid c w → forwards_rvalue c = false → run c w = (r, w') →
  l ∉ writes c → objs w !! l = Some u →
  objs w' !! l = Some u ∧ elements u (wmem w') = elements u (wmem w).
Proof.
  intros Hinv Hv _ Hrun Hl Hu.
  pose proof Hinv as (Hwm & Hall & Hdis).
  destruct c as [this|this size|this other|this other|this rhs|this rhs|this
                |this n|this n|this other|this value|this|this vs
                |this i vs|this i value|this i]; simpl in Hv, Hrun, Hl;
    rewrite ?not_elem_of_cons in Hl;
    try destruct Hl as [Hl Hl2]; try destruct Hl2 as [Hl2 _].
  - (* Vector() *)
    eapply (emplace_object_isolated this _ w); eauto.
    apply spec_ret. apply born_null. exact Hwm.
  - (* Vector(size) *)
    eapply (emplace_object_isolated this _ w); eauto.
    apply Vector_sized_wp; auto.
  - (* Vector(const Vector&) *)
    destruct Hv as [Hthis [o Ho]]. unfold new_Vector_copy in Hrun. rewrite Ho in Hrun.
    eapply (emplace_object_isolated this _ w); eauto.
    destruct (Hall _ _ Ho) as (ys & rr & Hh).
    eapply Vector_copy_wp; eauto.
  - (* Vector(Vector&&) *)
    destruct Hv as [Hthis [o Ho]]. unfold new_Vector_move in Hrun.
    rewrite Hthis, Ho in Hrun. destruct o as [[ob oc] on]. simpl in Hrun.
    injection Hrun as _ <-. simpl.
    rewrite !lookup_insert_ne by congruence. auto.
  - (* copy assignment *)
    destruct Hv as [[a Ha] [o Ho]]. unfold Vector_copy_assign in Hrun.
    destruct (decide (this ≠ rhs)) as [Hne|Heq].
    2:{ injection Hrun as _ <-. auto. }
    rewrite Ho in Hrun.
    eapply (invoke_isolated this _ w a); eauto.
    destruct (Hall _ _ Ha) as (xs & rest & Hh).
    destruct (Hall _ _ Ho) as (ys & rrest & Hr).
    eapply (copy_assign_body_wp (Q := Loud)); eauto;
      try (apply (Hdis rhs this o a); auto);
      try (simpl; intros; assumption).
  - (* move assignment *)
    destruct Hv as [[a Ha] [o Ho]]. unfold Vector_move_assign in Hrun.
    destruct (decide (this ≠ rhs)) as [Hne|Heq].
    2:{ injection Hrun as _ <-. auto. }
    rewrite Ha, Ho in Hrun.
    destruct a as [[ab ac] sa]. destruct o as [[ob oc] so]. simpl in Hrun.
    injection Hrun as _ <-. simpl.
    rewrite !lookup_insert_ne by congruence. auto.
  - (* destructor *)
    destruct Hv as [a Ha]. unfold delete_Vector in Hrun. rewrite Ha in Hrun.
    destruct (Hall _ _ Ha) as (xs & rest & Hh).
    destruct (Vector_delete_run a (wmem w) xs rest Hwm Hh) as (m' & Hd & Hb).
    rewrite Hd in Hrun. injection Hrun as _ <-. simpl.
    rewrite lookup_delete_ne by congruence. split; [exact Hu|].
    destruct (Hall _ _ Hu) as (ys & rr & Hhu).
    unfold elements, block_of. rewrite Hb.
    destruct (Hdis l this u a Hl Hu Ha) as [Hd'|H0].
    + rewrite lookup_delete_ne by congruence. reflexivity.
    + rewrite H0. destruct (decide (buffer_ (data_ a) = 0)) as [->|Hn].
      * rewrite lookup_delete_eq, Hwm. reflexivity.
      * rewrite lookup_delete_ne by congruence. reflexivity.
  - (* Reserve *)
    destruct Hv as [a Ha].
    eapply (invoke_isolated this _ w a); eauto.
    destruct (Hall _ _ Ha) as (xs & rest & Hh).
    eapply (Reserve_wp (Q := Loud)); eauto; try (simpl; intros; assumption).
  - (* Resize *)
    destruct Hv as [a Ha].
    eapply (invoke_isolated this _ w a); eauto.
    destruct (Hall _ _ Ha) as (xs & rest & Hh).
    eapply (Resize_wp (Q := Loud)); eauto; try (simpl; intros; assumption).
  - (* Swap *)
    destruct Hv as [[a Ha] [o Ho]]. unfold Vector_Swap_at in Hrun.
    rewrite Ha, Ho in Hrun.
    destruct a as [[ab ac] sa]. destruct o as [[ob oc] so]. simpl in Hrun.
    injection Hrun as _ <-. simpl.
    rewrite !lookup_insert_ne by congruence. auto.
  - (* PushBack *)
    destruct Hv as [[a Ha] [x Hx]].
    eapply (invoke_isolated this _ w a); eauto.
    destruct (Hall _ _ Ha) as (xs & rest & Hh).
    unfold PushBack. apply spec_bind.
    eapply (EmplaceBack_wp (Q := Loud)); eauto; try (simpl; intros; assumption).
    intros v' m' rest' Hsafe _ _. apply spec_ret. exact Hsafe.
  - (* PopBack *)
    destruct Hv as (a & Ha & Hpos).
    eapply (invoke_isolated this _ w a); eauto.
    destruct (Hall _ _ Ha) as (xs & rest & Hh).
    pose proof Hh as (_ & Hlen & _).
    destruct (snoc_inv xs) as (ys & y & ->); [lia|].
    eapply (PopBack_wp (Q := Loud)); eauto; try (simpl; intros; assumption).
  - (* EmplaceBack *)
    destruct Hv as [[a Ha] [x Hx]].
    eapply (invoke_isolated this _ w a); eauto.
    destruct (Hall _ _ Ha) as (xs & rest & Hh).
    unfold void. apply spec_bind.
    eapply (EmplaceBack_wp (Q := Loud)); eauto; try (simpl; intros; assumption).
    intros v' m' rest' Hsafe _ _. apply spec_ret. exact Hsafe.
  - (* Emplace *)
    destruct Hv as (a & Ha & Hi & [x Hx]).
    eapply (invoke_isolated this _ w a); eauto.
    destruct (Hall _ _ Ha) as (xs & rest & Hh).
    pose proof Hh as (_ & Hlen & _).
    unfold iterator_at. rewrite Ha. unfold ptr_add, GetAddress. simpl.
    rewrite <- (take_drop i xs) in Hh.
    replace i with (length (take i xs)) at 1 by (rewrite length_take; lia).
    unfold void. apply spec_bind.
    eapply (Emplace_wp (Q := Loud)); eauto; try (simpl; intros; assumption).
    intros v' m' rest' x' Hsafe _ _ _. apply spec_ret. exact Hsafe.
  - (* Insert *)
    destruct Hv as (a & Ha & Hi & [x Hx]).
    eapply (invoke_isolated this _ w a); eauto.
    destruct (Hall _ _ Ha) as (xs & rest & Hh).
    pose proof Hh as (_ & Hlen & _).
    unfold iterator_at. rewrite Ha. unfold ptr_add, GetAddress, Insert. simpl.
    rewrite <- (take_drop i xs) in Hh.
    replace i with (length (take i xs)) at 1 by (rewrite length_take; lia).
    unfold void. apply spec_bind.
    eapply (Emplace_wp (Q := Loud)); eauto; try (simpl; intros; assumption).
    intros v' m' rest' x' Hsafe _ _ _. apply spec_ret. exact Hsafe.
  - (* Erase *)
    destruct Hv as (a & Ha & Hi).
    eapply (invoke_isolated this _ w a); eauto.
    destruct (Hall _ _ Ha) as (xs & rest & Hh).
    pose proof Hh as (_ & Hlen & _).
    unfold iterator_at. rewrite Ha. unfold ptr_add, GetAddress. simpl.
    destruct (take_drop_middle' xs i) as [y Hy]; [lia|].
    rewrite Hy in Hh.
    replace i with (length (take i xs)) at 1 by (rewrite length_take; lia).
    unfold void. apply spec_bind.
    eapply (Erase_wp (Q := Loud)); eauto; try (simpl; intros; assumption).
    intros m' Hsafe _. apply spec_ret. exact Hsafe.
Qed.

(** X15.  The default constructor, the move constructor, move
    assignment, the destructor, [Swap] and [PopBack], called with valid
    inputs on a world in order, return: they neither throw nor run into
    undefined behaviour. *)
Theorem noexcept_calls_return w c :
  Winv w → valid c w → is_noexcept c = true → (run c w).1 = Ok ().
Proof.
  intros Hinv Hv Hn.
  pose proof Hinv as (Hwm & Hall & Hdis).
  destruct c; simpl in Hn; try discriminate; simpl in Hv |- *.
  - unfold new_Vector, emplace_object. rewrite Hv. reflexivity.
  - destruct Hv as [Hthis [o Ho]]. unfold new_Vector_move.
    rewrite Hthis, Ho. destruct o as [[ob oc] on]. reflexivity.
  - destruct Hv as [[a Ha] [o Ho]]. unfold Vector_move_assign.
    destruct (decide _); [|reflexivity].
    rewrite Ha, Ho. destruct a as [[ab ac] sa]. destruct o as [[ob oc] so]. reflexivity.
  - destruct Hv as [a Ha]. unfold delete_Vector. rewrite Ha.
    destruct (Hall _ _ Ha) as (xs & rest & Hh).
    destruct (Vector_delete_run a (wmem w) xs rest Hwm Hh) as (m' & Hd & Hb).
    rewrite Hd. reflexivity.
  - destruct Hv as [[a Ha] [o Ho]]. unfold Vector_Swap_at.
    rewrite Ha, Ho. destruct a as [[ab ac] sa]. destruct o as [[ob oc] so]. reflexivity.
  - destruct Hv as (a & Ha & Hpos).
    destruct (Hall _ _ Ha) as (xs & rest & Hh).
    pose proof Hh as (_ & Hlen & _).
    destruct (snoc_inv xs) as (ys & y & ->); [lia|].
    rewrite (invoke_run_eq this _ w a Ha). simpl.
    exact (PopBack_returns a (wmem w) ys y rest Hwm Hh).
Qed.

End Isolation.

Section ExactConstructors.
Context {E : ElemType} {Q : Quiet}.
Implicit Types (B : gmap nat (list slot)) (l : list slot) (m : Mem) (p : ptr) (v : Vector).


Lemma Vector_sized_exact_wp size m (ok : Vector → Mem → Prop) (bad : Mem → Prop) :
  wf_mem m →
  (∀ v' m', built v' m m' (replicate size value_init) → ok v' m') →
  (∀ m', blocks m' = blocks m → bad m') →
  spec quiet (Vector_sized size) m ok bad.
Proof.
  intros Hwm Hok Hbad. unfold Vector_sized.
  destruct (decide (size = 0)) as [->|Hne].
  { apply spec_bind, RawMemory_new_0_wp.
    apply spec_bind, spec_on_throw, spec_ret, spec_ret.
    apply Hok. split; [reflexivity|]. split; [reflexivity|]. split; [auto|].
    intros Hn. exfalso. apply Hn. reflexivity. }
  apply spec_bind, RawMemory_new_wp; [exact Hne| |exact Hbad].
  intros a m1 Ha0 Hfresh H1.
  apply spec_bind, spec_on_throw.
  eapply (uninitialized_value_construct_n_wp size a 0 [] (replicate size None) []).
  { unfold block_of. rewrite H1, lookup_insert_eq. simpl. rewrite app_nil_r. reflexivity. }
  { reflexivity. }
  { apply length_replicate. }
  - simpl. intros m2 H2. rewrite H1 in H2. apply spec_ret.
    assert (H2' : blocks m2 = <[a := Some <$> replicate size value_init]> (blocks m)).
    { rewrite H2. blocks_eq1 a. }
    apply Hok. unfold built. simpl. rewrite length_replicate.
    split; [reflexivity|]. split; [reflexivity|]. split.
    + intros Hnil. destruct size; [congruence|discriminate].
    + intros _. auto.
  - intros m2 ws Hws H2. rewrite H1 in H2.
    eapply (RawMemory_delete_wp (Q := Loud)).
    { unfold wf_mem. rewrite H2. blocks_simpl. auto. }
    { right. simpl. rewrite H2. blocks_simpl. eauto. }
    simpl. intros m3 H3. apply Hbad. rewrite H3, H2. blocks_eq1 a.
Qed.

Lemma Vector_copy_exact_wp other ys rrest m (ok : Vector → Mem → Prop) (bad : Mem → Prop) :
  wf_mem m → holds other m ys rrest →
  (∀ v' m', built v' m m' ys → ok v' m') →
  (∀ m', blocks m' = blocks m → bad m') →
  spec quiet (Vector_copy other) m ok bad.
Proof.
  intros Hwm Hh Hok Hbad. unfold Vector_copy.
  pose proof Hh as (Hblk & Hlen & Hcap & Hbuf).
  destruct other as [[buf cap] n]. simpl in *.
  destruct (decide (n = 0)) as [->|Hne].
  { destruct ys; [|discriminate].
    apply spec_bind, RawMemory_new_0_wp.
    apply spec_bind, spec_on_throw, spec_ret, spec_ret.
    apply Hok. split; [reflexivity|]. split; [reflexivity|]. split; [auto|].
    intros Hn. exfalso. apply Hn. reflexivity. }
  apply spec_bind, RawMemory_new_wp; [exact Hne| |exact Hbad].
  intros a m1 Ha0 Hfresh H1.
  assert (Hab : buf ≠ a).
  { intros ->. destruct Hbuf as [?|[? Hs]]; [tauto|]. rewrite Hfresh in Hs. discriminate. }
  apply spec_bind, spec_on_throw.
  eapply (uninitialized_copy_n_wp ys n buf 0 [] rrest a 0 [] (replicate n None) []).
  { symmetry. exact Hlen. }
  { exact Hab. }
  { unfold block_of. rewrite H1, lookup_insert_ne by congruence. exact Hblk. }
  { reflexivity. }
  { unfold block_of. rewrite H1, lookup_insert_eq. simpl. rewrite app_nil_r. reflexivity. }
  { reflexivity. }
  { apply length_replicate. }
  - simpl. intros m2 H2. rewrite H1 in H2. apply spec_ret.
    assert (H2' : blocks m2 = <[a := Some <$> ys]> (blocks m)).
    { rewrite H2. blocks_eq1 a. }
    apply Hok. unfold built. simpl.
    split; [congruence|]. split; [congruence|]. split.
    + intros ->. simpl in Hlen. congruence.
    + intros _. auto.
  - intros m2 ws Hws H2. rewrite H1 in H2.
    eapply (RawMemory_delete_wp (Q := Loud)).
    { unfold wf_mem. rewrite H2. blocks_simpl. auto. }
    { right. simpl. rewrite H2. blocks_simpl. eauto. }
    simpl. intros m3 H3. apply Hbad. rewrite H3, H2. blocks_eq1 a.
Qed.

Lemma built_holds v' m m' xs :
  wf_mem m → built v' m m' xs → wf_mem m' ∧ holds v' m' xs [].
Proof.
  intros Hw (Hs & Hc & Hnil & Hcons). destruct xs as [|x xs].
  - destruct (Hnil eq_refl) as [H0 Hb]. unfold wf_mem, holds, block_of.
    rewrite Hb, H0, Hw. simpl in *. repeat split; auto; lia.
  - destruct Hcons as (Hn0 & Hf & Hb); [discriminate|].
    unfold wf_mem, holds, block_of. rewrite Hb, lookup_insert_eq.
    rewrite lookup_insert_ne by congruence. simpl in *.
    rewrite app_nil_r.
    split; [exact Hw|]. split; [reflexivity|]. split; [lia|]. split; [lia|].
    right. eauto.
Qed.

Lemma built_delete v' m m' m'' xs :
  wf_mem m → built v' m m' xs →
  blocks m'' = delete (buffer_ (data_ v')) (blocks m') →
  blocks m'' = blocks m.
Proof.
  intros Hw (_ & _ & Hnil & Hcons) Hd. destruct xs as [|x xs].
  - destruct (Hnil eq_refl) as [H0 Hb]. rewrite Hd, Hb, H0.
    apply delete_id. exact Hw.
  - destruct Hcons as (Hn0 & Hf & Hb); [discriminate|].
    rewrite Hd, Hb. apply delete_insert_id. exact Hf.
Qed.

End ExactConstructors.

Section Compositions.
Context {E : ElemType}.
Implicit Types (m : Mem) (v u : Vector) (w : World).

(** X8.  [Vector(size)], for a size that fits [size_t], has no undefined
    behaviour and does not throw while the element type's operations do
    not.  When it returns, the new vector holds [size] value-initialised
    elements, its size and capacity are [size], and the memory is as before
    but for one new block, at an address that was unused, when [size] is
    not 0; when it throws, no block has changed. *)
Theorem Vector_sized_yields (Q : Quiet) m size :
  wf_mem m → count_fits size →
  let out := Vector_sized size m in
  out.1 ≠ UB ∧
  (quiet (env m) → out.1 ≠ Throw) ∧
  (∀ v', out.1 = Ok v' →
     elements v' out.2 = replicate size (Some value_init) ∧
     built v' m out.2 (replicate size value_init)) ∧
  (out.1 = Throw → blocks out.2 = blocks m).
Proof.
  intros Hwm _.
  assert (Hs : spec quiet (Vector_sized size) m
           (λ v' m', elements v' m' = replicate size (Some value_init) ∧
                     built v' m m' (replicate size value_init))
           (λ m', blocks m' = blocks m)).
  { eapply Vector_sized_exact_wp; eauto.
    intros v' m' Hb. split; [|exact Hb].
    destruct (built_holds _ _ _ _ Hwm Hb) as [_ Hh].
    rewrite (holds_elements _ _ _ _ Hh). apply fmap_replicate. }
  pose proof (spec_thrown _ _ _ _ _ Hs) as H4.
  apply spec_out in Hs. destruct Hs as (H1 & H2 & H3).
  split; [exact H1|]. split; [exact H2|]. split; [exact H3|exact H4].
Qed.

(** X9.  The copy constructor has no undefined behaviour and does not
    throw while the element type's operations do not.  When it returns, the
    copy holds the elements of the source, its size and its capacity are
    the source's size, the source holds what it held, and the memory is as
    before but for the copy's new block; when it throws, no block has
    changed. *)
Theorem Vector_copy_yields (Q : Quiet) m other ys rrest :
  wf_mem m → holds other m ys rrest →
  let out := Vector_copy other m in
  out.1 ≠ UB ∧
  (quiet (env m) → out.1 ≠ Throw) ∧
  (∀ v', out.1 = Ok v' →
     elements v' out.2 = Some <$> ys ∧
     elements other out.2 = Some <$> ys ∧
     built v' m out.2 ys) ∧
  (out.1 = Throw → blocks out.2 = blocks m).
Proof.
  intros Hwm Hh.
  assert (Hs : spec quiet (Vector_copy other) m
           (λ v' m', elements v' m' = Some <$> ys ∧
                     elements other m' = Some <$> ys ∧
                     built v' m m' ys)
           (λ m', blocks m' = blocks m)).
  { eapply Vector_copy_exact_wp; eauto.
    intros v' m' Hb.
    destruct (built_holds _ _ _ _ Hwm Hb) as [_ Hh'].
    split; [eapply holds_elements; eauto|]. split; [|exact Hb].
    rewrite <- (holds_elements _ _ _ _ Hh).
    destruct Hb as (_ & _ & Hnil & Hcons). destruct ys as [|y ys].
    - destruct (Hnil eq_refl) as [_ Hb]. apply elements_blocks, Hb.
    - destruct Hcons as (Hn0 & Hf & Hb); [discriminate|].
      unfold elements, block_of. rewrite Hb.
      destruct (decide (buffer_ (data_ other) = buffer_ (data_ v'))) as [He|Hne'].
      + destruct Hh as (_ & _ & _ & [H0|[l Hl]]); [congruence|].
        rewrite He, Hf in Hl. discriminate.
      + rewrite lookup_insert_ne by congruence. reflexivity. }
  pose proof (spec_thrown _ _ _ _ _ Hs) as H4.
  apply spec_out in Hs. destruct Hs as (H1 & H2 & H3).
  split; [exact H1|]. split; [exact H2|]. split; [exact H3|exact H4].
Qed.

(** X11.  Constructing a vector, by [Vector(size)] for a size that fits
    [size_t] or by copy, and then destroying it has no undefined behaviour
    and leaves every block of memory as it was, also when the constructor
    throws. *)
Theorem construct_destroy_restores m size other ys rrest :
  wf_mem m → holds other m ys rrest → count_fits size →
  (let out := (v ← Vector_sized size; Vector_delete v) m in
   out.1 ≠ UB ∧ blocks out.2 = blocks m) ∧
  (let out := (v ← Vector_copy other; Vector_delete v) m in
   out.1 ≠ UB ∧ blocks out.2 = blocks m).
Proof.
  intros Hwm Hh _. split.
  - assert (Hs : spec (@quiet _ Loud) (v ← Vector_sized size; Vector_delete v) m
             (λ _ m', blocks m' = blocks m) (λ m', blocks m' = blocks m)).
    { apply spec_bind. eapply (Vector_sized_exact_wp (Q := Loud)); eauto.
      intros v' m' Hb. destruct (built_holds _ _ _ _ Hwm Hb) as [Hw' Hh'].
      eapply (Vector_delete_wp (Q := Loud)); eauto.
      intros m'' Hd. eapply built_delete; eauto. }
    simpl. unfold spec in Hs.
    destruct ((v ← Vector_sized size; Vector_delete v) m) as [[[]| |] m']; simpl in *;
      [split; [discriminate|tauto] | split; [discriminate|tauto] | tauto].
  - assert (Hs : spec (@quiet _ Loud) (v ← Vector_copy other; Vector_delete v) m
             (λ _ m', blocks m' = blocks m) (λ m', blocks m' = blocks m)).
    { apply spec_bind. eapply (Vector_copy_exact_wp (Q := Loud)); eauto.
      intros v' m' Hb. destruct (built_holds _ _ _ _ Hwm Hb) as [Hw' Hh'].
      eapply (Vector_delete_wp (Q := Loud)); eauto.
      intros m'' Hd. eapply built_delete; eauto. }
    simpl. unfold spec in Hs.
    destruct ((v ← Vector_copy other; Vector_delete v) m) as [[[]| |] m']; simpl in *;
      [split; [discriminate|tauto] | split; [discriminate|tauto] | tauto].
Qed.

(** X16.  [Insert] at a position followed by [Erase] at the iterator it
    returned has no undefined behaviour and does not throw while the
    element type's operations do not; when both return, the vector holds
    the elements it held before, with the same size, the iterator returned
    is that position again, and the capacity is not lower than before. *)
Theorem Insert_then_Erase (Q : Quiet) v m xs rest p vs V :
  wf_mem m → holds v m xs rest → p ≤ length xs → arg_value vs m = Some V →
  let out := (r ← Insert (Ptr (buffer_ (data_ v)) p) vs; Erase r) (v, m) in
  out.1 ≠ UB ∧
  (quiet (env m) → out.1 ≠ Throw) ∧
  (∀ r, out.1 = Ok r →
     elements out.2.1 out.2.2 = Some <$> xs ∧
     size_ out.2.1 = length xs ∧
     r = Ptr (buffer_ (data_ out.2.1)) p ∧
     capacity_ (data_ v) ≤ capacity_ (data_ out.2.1)).
Proof.
  intros Hwm Hh Hp Hv. unfold Insert.
  pose proof Hh as (_ & Hlen & _).
  assert (Hxs : xs = take p xs ++ drop p xs) by (symmetry; apply take_drop).
  assert (Hlp : length (take p xs) = p) by (rewrite length_take; lia).
  rewrite Hxs in Hh.
  assert (Hs : spec quiet
     (r ← Emplace (Ptr (buffer_ (data_ v)) (length (take p xs))) vs; Erase r) (v, m)
     (λ r s', elements s'.1 s'.2 = Some <$> xs ∧
              size_ s'.1 = length xs ∧
              r = Ptr (buffer_ (data_ s'.1)) p ∧
              capacity_ (data_ v) ≤ capacity_ (data_ s'.1))
     (λ _, True)).
  { apply spec_bind.
    eapply Emplace_wp; [exact Hwm|exact Hh|exact Hv| |intros; exact I].
    intros v' m' rest' x' Hsafe Hh' _ _.
    pose proof Hsafe as (_ & Hw' & _ & Hcap).
    eapply Erase_wp; [exact Hw'|exact Hh'| |intros; exact I].
    intros m'' _ Hh''. simpl.
    rewrite (holds_elements _ _ _ _ Hh''), <- Hxs.
    destruct Hh'' as (_ & Hl'' & _). simpl in Hl''.
    rewrite <- Hxs in Hl''. rewrite Hlp. auto. }
  rewrite Hlp in Hs. apply spec_out in Hs. exact Hs.
Qed.

(** X17.  [PushBack] followed by [PopBack] has no undefined behaviour
    and does not throw while the element type's operations do not; when
    both return, the vector holds the elements it held before, with the
    same size, and its capacity is not lower than before. *)
Theorem PushBack_then_PopBack (Q : Quiet) v m xs rest vs V :
  wf_mem m → holds v m xs rest → arg_value vs m = Some V →
  let out := (PushBack vs ;; PopBack) (v, m) in
  out.1 ≠ UB ∧
  (quiet (env m) → out.1 ≠ Throw) ∧
  (out.1 = Ok () →
     elements out.2.1 out.2.2 = Some <$> xs ∧
     size_ out.2.1 = size_ v ∧
     capacity_ (data_ v) ≤ capacity_ (data_ out.2.1)).
Proof.
  intros Hwm Hh Hv.
  pose proof Hh as (_ & Hlen & _).
  assert (Hs : spec quiet (PushBack vs ;; PopBack) (v, m)
     (λ _ s', elements s'.1 s'.2 = Some <$> xs ∧
              size_ s'.1 = size_ v ∧
              capacity_ (data_ v) ≤ capacity_ (data_ s'.1))
     (λ _, True)).
  { apply spec_bind. unfold PushBack. apply spec_bind.
    eapply EmplaceBack_wp; [exact Hwm|exact Hh|exact Hv| |intros; exact I].
    intros v' m' rest' Hsafe Hh' _. apply spec_ret.
    pose proof Hsafe as (_ & Hw' & _ & Hcap).
    eapply PopBack_wp; [exact Hw'|exact Hh'|].
    intros m'' _ Hh''. simpl.
    split; [eapply holds_elements; eauto|].
    destruct Hh'' as (_ & Hl'' & _). simpl in Hl''. split; [lia|exact Hcap]. }
  apply spec_out in Hs. destruct Hs as (H1 & H2 & H3).
  split; [exact H1|]. split; [exact H2|]. apply H3.
Qed.

Lemma doubled_capacity_step n c :
  n ≤ c → doubled_capacity n c →
  doubled_capacity (S n) (if decide (n = c) then grown n else c).
Proof.
  intros Hle [[-> ->]|(j & -> & Hn & Hc)].
  - right. exists 0. simpl. unfold grown. simpl. lia.
  - right. destruct (decide (n = 2 ^ j)) as [->|Hne].
    + exists (S j). unfold grown.
      destruct (decide (2 ^ j = 0)) as [H0|_].
      { pose proof (Nat.pow_nonzero 2 j). lia. }
      rewrite Nat.pow_succ_r'. lia.
    + exists j. lia.
Qed.

Lemma push_back_all_wp (Q : Quiet) ys : ∀ v m xs rest
    (ok : unit → Vector * Mem → Prop),
  wf_mem m → holds v m xs rest →
  doubled_capacity (size_ v) (capacity_ (data_ v)) →
  (∀ v' m' rest', wf_mem m' → holds v' m' (xs ++ ys) rest' →
                  doubled_capacity (size_ v') (capacity_ (data_ v')) → ok () (v', m')) →
  spec quiet (push_back_all ys) (v, m) ok (λ _, True).
Proof.
  induction ys as [|y ys IH]; intros v m xs rest ok Hwm Hh Hd Hok; simpl.
  - apply spec_ret. rewrite app_nil_r in Hok. eapply Hok; eauto.
  - apply spec_bind. unfold PushBack. apply spec_bind.
    eapply (EmplaceBack_wp (ByRvalue y) y); [exact Hwm|exact Hh|reflexivity| |intros; exact I].
    intros v' m' rest' Hsafe Hh' Hc. apply spec_ret.
    pose proof Hsafe as (_ & Hw' & _ & _).
    eapply IH; [exact Hw'|exact Hh'| |].
    + rewrite Hc. destruct Hh' as (_ & Hl' & _). destruct Hh as (_ & Hl & Hcap & _).
      rewrite length_app in Hl'. simpl in Hl'.
      replace (size_ v') with (S (size_ v)) by lia.
      apply doubled_capacity_step; [lia|exact Hd].
    + intros v'' m'' rest'' Hw'' Hh'' Hd''. rewrite <- app_assoc in Hh''.
      eapply Hok; eauto.
Qed.

(** X18.  Appending the values [ys] one by one to an empty vector has no
    undefined behaviour and does not throw while the element type's
    operations do not; when it returns, the vector holds [ys] in order, its
    size is their number, and its capacity is 0 for no value and otherwise
    the least power of two that is not below their number. *)
Theorem push_back_all_yields (Q : Quiet) m ys :
  wf_mem m →
  let out := push_back_all ys (Vector_default, m) in
  out.1 ≠ UB ∧
  (quiet (env m) → out.1 ≠ Throw) ∧
  (out.1 = Ok () →
     elements out.2.1 out.2.2 = Some <$> ys ∧
     size_ out.2.1 = length ys ∧
     doubled_capacity (length ys) (capacity_ (data_ out.2.1))).
Proof.
  intros Hwm.
  assert (Hs : spec quiet (push_back_all ys) (Vector_default, m)
     (λ _ s', elements s'.1 s'.2 = Some <$> ys ∧
              size_ s'.1 = length ys ∧
              doubled_capacity (length ys) (capacity_ (data_ s'.1)))
     (λ _, True)).
  { eapply (push_back_all_wp Q ys Vector_default m [] []).
    - exact Hwm.
    - apply holds_null. exact Hwm.
    - left. auto.
    - intros v' m' rest' _ Hh' Hd. simpl in Hh'. simpl.
      split; [eapply holds_elements; eauto|].
      destruct Hh' as (_ & Hl & _). rewrite <- Hl in Hd. auto. }
  apply spec_out in Hs. destruct Hs as (H1 & H2 & H3).
  split; [exact H1|]. split; [exact H2|]. apply H3.
Qed.

End Compositions.

Section NeverThrows.
Context {E : ElemType}.
Implicit Types (m : Mem) (v u : Vector) (q : ptr).

Lemma never_throws_ret {S A} (a : A) : never_throws (mret a : StM S A).
Proof. intros s. discriminate. Qed.

Lemma never_throws_undefined {S A} : never_throws (undefined : StM S A).
Proof. intros s. discriminate. Qed.

Lemma never_throws_bind {S A B} (c : StM S A) (f : A → StM S B) :
  never_throws c → (∀ a, never_throws (f a)) → never_throws (c ≫= f).
Proof.
  intros Hc Hf s Ht. apply bind_thrown in Ht as [Ht|(a & s' & _ & Ht)].
  - exact (Hc s Ht).
  - exact (Hf a s' Ht).
Qed.

Lemma never_throws_assert {S} (b : bool) : never_throws (assert b : StM S unit).
Proof. destruct b; [apply never_throws_ret|apply never_throws_undefined]. Qed.

Lemma never_throws_lift {A} (c : M A) : never_throws c → never_throws (lift c).
Proof.
  intros Hc [v m] Ht. apply (Hc m). unfold lift in Ht. simpl in Ht.
  destruct (c m) as [r m']. exact Ht.
Qed.

Lemma never_throws_load q : never_throws (load q).
Proof. intros m. apply load_not_thrown. Qed.

Lemma never_throws_write_slot q s : never_throws (write_slot q s).
Proof. intros m. apply write_slot_not_thrown. Qed.

Lemma never_throws_store q x : never_throws (store q x).
Proof.
  apply never_throws_bind; [apply never_throws_load|].
  intros _. apply never_throws_write_slot.
Qed.

Lemma never_throws_T_destroy q : never_throws (T_destroy q).
Proof.
  apply never_throws_bind; [apply never_throws_load|]. intros x.
  apply never_throws_bind; [intros m; discriminate|]. intros _.
  apply never_throws_bind; [apply never_throws_load|].
  intros _. apply never_throws_write_slot.
Qed.

Lemma never_throws_ptr_diff q q' : never_throws (ptr_diff q q').
Proof. intros m. unfold ptr_diff. destruct (decide _); discriminate. Qed.

Lemma never_throws_ptr_back q k : never_throws (ptr_back q k).
Proof. intros m. unfold ptr_back. destruct (decide _); discriminate. Qed.

Lemma never_throws_T_move_assign dst src :
  is_nothrow_move_assignable = true → never_throws (T_move_assign dst src).
Proof.
  intros Hn.
  apply never_throws_bind; [apply never_throws_load|]. intros x.
  apply never_throws_bind; [apply never_throws_load|]. intros y.
  apply never_throws_bind.
  { intros m Ht. unfold fire in Ht.
    pose proof (nothrow_move_assign_sound Hn y x (env m)) as Hr.
    destruct (react (EvMoveAssign y x) (env m)) as [e' b]. simpl in *. subst b.
    discriminate. }
  intros _. apply never_throws_bind; [apply never_throws_store|].
  intros _. apply never_throws_store.
Qed.

Lemma never_throws_move_n n :
  is_nothrow_move_assignable = true →
  ∀ first result, never_throws (move_n first n result).
Proof.
  intros Hn. induction n as [|n IH]; intros first result; simpl.
  - apply never_throws_ret.
  - apply never_throws_bind; [apply never_throws_T_move_assign, Hn|].
    intros _. apply IH.
Qed.

Lemma never_throws_begin : never_throws Vector_begin.
Proof.
  apply never_throws_bind; [intros s; discriminate|].
  intros v. apply never_throws_ret.
Qed.

Lemma never_throws_end : never_throws Vector_end.
Proof.
  apply never_throws_bind; [intros s; discriminate|]. intros v.
  apply never_throws_lift, never_throws_bind; [apply never_throws_assert|].
  intros _. apply never_throws_ret.
Qed.

Lemma Erase_never_throws_when_moving pos :
  is_nothrow_move_assignable = true → relocate_by_move = true →
  never_throws (Erase pos).
Proof.
  intros Hn Hm. unfold Erase. rewrite Hm.
  apply never_throws_bind; [apply never_throws_begin|]. intros b.
  apply never_throws_bind; [apply never_throws_end|]. intros e.
  apply never_throws_bind; [apply never_throws_assert|]. intros _.
  apply never_throws_bind; [apply never_throws_lift, never_throws_ptr_diff|]. intros i.
  apply never_throws_bind.
  { apply never_throws_lift, never_throws_bind; [apply never_throws_ptr_diff|].
    intros n. apply never_throws_move_n, Hn. }
  intros _.
  apply never_throws_bind; [apply never_throws_lift, never_throws_ptr_back|]. intros last.
  apply never_throws_bind; [apply never_throws_lift, never_throws_T_destroy|]. intros _.
  apply never_throws_bind; [intros s; discriminate|]. intros v.
  destruct (size_ v); [apply never_throws_undefined|].
  apply never_throws_bind; [intros s; discriminate|]. intros _.
  apply never_throws_bind; [apply never_throws_begin|]. intros b'.
  apply never_throws_ret.
Qed.

(** X21.  For an element type whose move assignment cannot throw and
    whose elements [Erase] shifts by move assignment, [Erase] at a valid
    position returns: it does not throw, the iterator returned is the
    position, and the vector holds its elements without the erased one. *)
Theorem Erase_noexcept_when_moving v m xs rest p :
  is_nothrow_move_assignable = true → relocate_by_move = true →
  wf_mem m → holds v m xs rest → p < length xs →
  ∃ s', Erase (Ptr (buffer_ (data_ v)) p) (v, m) = (Ok (Ptr (buffer_ (data_ v)) p), s') ∧
        elements s'.1 s'.2 = Some <$> (take p xs ++ drop (S p) xs).
Proof.
  intros Hn Hm Hwm Hh Hp.
  pose proof Hh as (_ & Hlen & _).
  destruct (take_drop_middle' xs p Hp) as [y Hy].
  rewrite Hy in Hh.
  assert (Hlp : length (take p xs) = p) by (rewrite length_take; lia).
  assert (Hs : spec (@quiet _ Loud) (Erase (Ptr (buffer_ (data_ v)) (length (take p xs)))) (v, m)
           (λ r s', r = Ptr (buffer_ (data_ v)) p ∧
                    elements s'.1 s'.2 = Some <$> (take p xs ++ drop (S p) xs))
           (λ _, True)).
  { eapply (Erase_wp (Q := Loud)); [exact Hwm|exact Hh| |intros; exact I].
    intros m' _ Hh'. simpl. rewrite Hlp. split; [reflexivity|].
    eapply holds_elements; eauto. }
  rewrite Hlp in Hs.
  destruct (spec_cases _ _ _ _ Hs) as [(r & s' & Hrun & -> & He)|(s' & Hrun & _)].
  - exists s'. auto.
  - exfalso. apply (Erase_never_throws_when_moving (Ptr (buffer_ (data_ v)) p) Hn Hm (v, m)).
    rewrite Hrun. reflexivity.
Qed.

End NeverThrows.

Lemma holds_v123 fuse : holds v123 (m123_fused fuse) [1; 2; 3] [].
Proof. repeat split; right; eexists; reflexivity. Defined.

Lemma holds_v12_last fuse : holds v12 (m12 fuse) ([1] ++ [2]) [None].
Proof. repeat split; right; eexists; reflexivity. Defined.

Lemma EmplaceBack_yields_witness :
  wf_mem (m12 None) ∧ holds v12 (m12 None) [1; 2] [None] ∧
  @arg_value Str (ByLvalue (Ptr 1 1)) (m12 None) = Some 2 ∧
  (@EmplaceBack Str (ByLvalue (Ptr 1 1)) (v12, m12 None)).1 = Ok (Ptr 1 2) ∧
  elements (@EmplaceBack Str (ByLvalue (Ptr 1 1)) (v12, m12 None)).2.1
           (@EmplaceBack Str (ByLvalue (Ptr 1 1)) (v12, m12 None)).2.2
    = [Some 1; Some 2; Some 2] ∧
  size_ (@EmplaceBack Str (ByLvalue (Ptr 1 1)) (v12, m12 None)).2.1 = 3.
Proof.
  split; [reflexivity|]. split; [apply holds_v12|]. split; [reflexivity|].
  split; [vm_compute; reflexivity|].
  pose proof (proj2 (proj2 (EmplaceBack_yields (ProbeQuiet true true true true) v12 (m12 None)
                         [1; 2] [None] (@ByLvalue Str (Ptr 1 1)) 2
                         eq_refl (holds_v12 None) eq_refl)) (Ptr 1 2)) as H.
  destruct H as (He & Hs & _); [vm_compute; reflexivity|].
  split; [exact He|exact Hs].
Defined.

Lemma EmplaceBack_strong_guarantee_witness :
  wf_mem (m123_fused (Some 3)) ∧ holds v123 (m123_fused (Some 3)) [1; 2; 3] [] ∧
  @arg_value Awkward (@ByArgs Awkward 7) (m123_fused (Some 3)) = Some 7 ∧
  @is_rvalue Awkward (@ByArgs Awkward 7) = false ∧
  (@is_nothrow_move_constructible Awkward = true ∨ @is_copy_constructible Awkward = true) ∧
  (@EmplaceBack Awkward (@ByArgs Awkward 7) (v123, m123_fused (Some 3))).1 = Throw ∧
  (@EmplaceBack Awkward (@ByArgs Awkward 7) (v123, m123_fused (Some 3))).2.1 = v123 ∧
  block_of 1 (@EmplaceBack Awkward (@ByArgs Awkward 7) (v123, m123_fused (Some 3))).2.2
    = block_of 1 (m123_fused (Some 3)) ∧
  elements v123 (@EmplaceBack Awkward (@ByArgs Awkward 7) (v123, m123_fused (Some 3))).2.2
    = [Some 1; Some 2; Some 3] ∧
  blocks (@EmplaceBack Awkward (@ByArgs Awkward 7) (v123, m123_fused (Some 3))).2.2
    = blocks (m123_fused (Some 3)).
Proof.
  split; [reflexivity|]. split; [apply holds_v123|]. split; [reflexivity|].
  split; [reflexivity|].
  split; [right; reflexivity|]. split; [vm_compute; reflexivity|].
  apply (EmplaceBack_strong_guarantee v123 (m123_fused (Some 3)) [1; 2; 3] []
           (@ByArgs Awkward 7) 7 _ eq_refl (holds_v123 (Some 3)) eq_refl eq_refl
           (or_intror eq_refl)).
  vm_compute. reflexivity.
Defined.

Lemma PopBack_yields_witness :
  wf_mem (m12 None) ∧ holds v12 (m12 None) ([1] ++ [2]) [None] ∧
  ∃ m', @PopBack Str (v12, m12 None) = (Ok (), (MkVector (MkRaw 1 3) 1, m')) ∧
        elements (MkVector (MkRaw 1 3) 1) m' = [Some 1] ∧
        slot_at (Ptr 1 1) m' = Some None.
Proof.
  split; [reflexivity|]. split; [apply holds_v12_last|].
  destruct (PopBack_yields v12 (m12 None) [1] 2 [None] eq_refl (holds_v12_last None))
    as (m' & Hrun & He & _ & Hs & _).
  exists m'. split; [exact Hrun|]. split; [exact He|exact Hs].
Defined.

Lemma at_after_PushBack_witness :
  wf_mem (m12 None) ∧ holds v12 (m12 None) [1; 2] [None] ∧
  @arg_value Str (@ByArgs Str 7) (m12 None) = Some 7 ∧
  @is_rvalue Str (@ByArgs Str 7) = false ∧
  ([1; 2] ++ [7]) !! 2 = Some 7 ∧
  ((@PushBack Str (@ByArgs Str 7) ;; Vector_at 2) (v12, m12 None)).1 = Ok (Ptr 1 2) ∧
  slot_at (Ptr 1 2) ((@PushBack Str (@ByArgs Str 7) ;; Vector_at 2) (v12, m12 None)).2.2
    = Some (Some 7) ∧
  elements ((@PushBack Str (@ByArgs Str 7) ;; Vector_at 2) (v12, m12 None)).2.1
           ((@PushBack Str (@ByArgs Str 7) ;; Vector_at 2) (v12, m12 None)).2.2
    = [Some 1; Some 2; Some 7].
Proof.
  split; [reflexivity|]. split; [apply holds_v12|]. split; [reflexivity|].
  split; [reflexivity|].
  split; [reflexivity|]. split; [vm_compute; reflexivity|].
  destruct (at_after_PushBack (ProbeQuiet true true true true) v12 (m12 None) [1; 2] [None]
              (@ByArgs Str 7) 7 2 7 eq_refl (holds_v12 None) eq_refl eq_refl eq_refl)
    as (_ & _ & H).
  destruct (H (Ptr 1 2)) as (_ & Hs & He); [vm_compute; reflexivity|].
  split; [exact Hs|exact He].
Defined.

Lemma Reserve_yields_witness :
  wf_mem (m12 None) ∧ holds v12 (m12 None) [1; 2] [None] ∧
  @count_fits Str 5 ∧ @count_fits Str 3 ∧
  (@Reserve Str 5 (v12, m12 None)).1 = Ok () ∧
  elements (@Reserve Str 5 (v12, m12 None)).2.1 (@Reserve Str 5 (v12, m12 None)).2.2
    = [Some 1; Some 2] ∧
  size_ (@Reserve Str 5 (v12, m12 None)).2.1 = 2 ∧
  capacity_ (data_ (@Reserve Str 5 (v12, m12 None)).2.1) = 5 ∧
  @Reserve Str 3 (v12, m12 None) = (Ok (), (v12, m12 None)).
Proof.
  assert (Hf5 : @count_fits Str 5) by (unfold count_fits; simpl; lia).
  assert (Hf3 : @count_fits Str 3) by (unfold count_fits; simpl; lia).
  split; [reflexivity|]. split; [apply holds_v12|].
  split; [exact Hf5|]. split; [exact Hf3|].
  split; [vm_compute; reflexivity|].
  destruct (Reserve_yields (ProbeQuiet true true true true) v12 (m12 None) [1; 2] [None] 5
              eq_refl (holds_v12 None) Hf5) as (_ & _ & H & _).
  destruct H as (He & Hs & Hc); [vm_compute; reflexivity|].
  split; [exact He|]. split; [exact Hs|]. split; [exact Hc|].
  apply (Reserve_yields (ProbeQuiet true true true true) v12 (m12 None) [1; 2] [None] 3
           eq_refl (holds_v12 None) Hf3).
  simpl. lia.
Defined.

Lemma Reserve_strong_guarantee_witness :
  wf_mem (m123_fused (Some 2)) ∧ holds v123 (m123_fused (Some 2)) [1; 2; 3] [] ∧
  (@is_nothrow_move_constructible Awkward = true ∨ @is_copy_constructible Awkward = true) ∧
  (@Reserve Awkward 6 (v123, m123_fused (Some 2))).1 = Throw ∧
  (@Reserve Awkward 6 (v123, m123_fused (Some 2))).2.1 = v123 ∧
  blocks (@Reserve Awkward 6 (v123, m123_fused (Some 2))).2.2
    = blocks (m123_fused (Some 2)) ∧
  elements v123 (@Reserve Awkward 6 (v123, m123_fused (Some 2))).2.2
    = [Some 1; Some 2; Some 3].
Proof.
  split; [reflexivity|]. split; [apply holds_v123|].
  split; [right; reflexivity|]. split; [vm_compute; reflexivity|].
  apply (Reserve_strong_guarantee v123 (m123_fused (Some 2)) [1; 2; 3] [] 6 _
           eq_refl (holds_v123 (Some 2)) (or_intror eq_refl)).
  vm_compute. reflexivity.
Defined.

Lemma Resize_yields_witness :
  wf_mem (m12 None) ∧ holds v12 (m12 None) [1; 2] [None] ∧
  @count_fits Str 5 ∧ @count_fits Str 1 ∧
  (@Resize Str 5 (v12, m12 None)).1 = Ok () ∧
  elements (@Resize Str 5 (v12, m12 None)).2.1 (@Resize Str 5 (v12, m12 None)).2.2
    = [Some 1; Some 2; Some 0; Some 0; Some 0] ∧
  size_ (@Resize Str 5 (v12, m12 None)).2.1 = 5 ∧
  elements (@Resize Str 1 (v12, m12 None)).2.1 (@Resize Str 1 (v12, m12 None)).2.2
    = [Some 1].
Proof.
  assert (Hf5 : @count_fits Str 5) by (unfold count_fits; simpl; lia).
  assert (Hf1 : @count_fits Str 1) by (unfold count_fits; simpl; lia).
  split; [reflexivity|]. split; [apply holds_v12|].
  split; [exact Hf5|]. split; [exact Hf1|].
  split; [vm_compute; reflexivity|].
  destruct (Resize_yields (ProbeQuiet true true true true) v12 (m12 None) [1; 2] [None] 5
              eq_refl (holds_v12 None) Hf5) as (_ & _ & H).
  destruct H as (He & Hs & _); [vm_compute; reflexivity|].
  split; [exact He|]. split; [exact Hs|].
  destruct (Resize_yields (ProbeQuiet true true true true) v12 (m12 None) [1; 2] [None] 1
              eq_refl (holds_v12 None) Hf1) as (_ & _ & H').
  destruct H' as (He' & _); [vm_compute; reflexivity|]. exact He'.
Defined.

Lemma Vector_sized_yields_witness :
  wf_mem (m12 None) ∧ @count_fits Str 2 ∧
  (@Vector_sized Str 2 (m12 None)).1 = Ok (MkVector (MkRaw 10 2) 2) ∧
  elements (MkVector (MkRaw 10 2) 2) (@Vector_sized Str 2 (m12 None)).2 = [Some 0; Some 0] ∧
  blocks (@Vector_sized Str 2 (m12 None)).2 = <[10 := [Some 0; Some 0]]> (blocks (m12 None)).
Proof.
  assert (Hf : @count_fits Str 2) by (unfold count_fits; simpl; lia).
  split; [reflexivity|]. split; [exact Hf|]. split; [vm_compute; reflexivity|].
  destruct (Vector_sized_yields (ProbeQuiet true true true true) (m12 None) 2 eq_refl Hf)
    as (_ & _ & H & _).
  destruct (H (MkVector (MkRaw 10 2) 2)) as (He & _ & _ & _ & Hb); [vm_compute; reflexivity|].
  split; [exact He|]. apply Hb. discriminate.
Defined.

Lemma Vector_copy_yields_witness :
  wf_mem (m12 None) ∧ holds v12 (m12 None) [1; 2] [None] ∧
  (@Vector_copy Str v12 (m12 None)).1 = Ok (MkVector (MkRaw 10 2) 2) ∧
  elements (MkVector (MkRaw 10 2) 2) (@Vector_copy Str v12 (m12 None)).2 = [Some 1; Some 2] ∧
  elements v12 (@Vector_copy Str v12 (m12 None)).2 = [Some 1; Some 2] ∧
  capacity_ (data_ (MkVector (MkRaw 10 2) 2)) = 2.
Proof.
  split; [reflexivity|]. split; [apply holds_v12|]. split; [vm_compute; reflexivity|].
  destruct (Vector_copy_yields (ProbeQuiet true true true true) (m12 None) v12 [1; 2] [None]
              eq_refl (holds_v12 None)) as (_ & _ & H & _).
  destruct (H (MkVector (MkRaw 10 2) 2)) as (He & Ho & _ & Hc & _); [vm_compute; reflexivity|].
  split; [exact He|]. split; [exact Ho|exact Hc].
Defined.

Lemma Vector_delete_frees_witness :
  wf_mem (m12 None) ∧ holds v12 (m12 None) [1; 2] [None] ∧
  ∃ m', @Vector_delete Str v12 (m12 None) = (Ok (), m') ∧
        blocks m' = delete 1 (blocks (m12 None)).
Proof.
  split; [reflexivity|]. split; [apply holds_v12|].
  destruct (Vector_delete_frees v12 (m12 None) [1; 2] [None] eq_refl (holds_v12 None))
    as (m' & Hrun & Hb & _).
  exists m'. split; [exact Hrun|exact Hb].
Defined.

Lemma construct_destroy_restores_witness :
  wf_mem (m12 None) ∧ holds v12 (m12 None) [1; 2] [None] ∧ @count_fits Str 3 ∧
  blocks ((v ← @Vector_sized Str 3; Vector_delete v) (m12 None)).2 = blocks (m12 None) ∧
  blocks ((v ← @Vector_copy Str v12; Vector_delete v) (m12 None)).2 = blocks (m12 None).
Proof.
  assert (Hf : @count_fits Str 3) by (unfold count_fits; simpl; lia).
  split; [reflexivity|]. split; [apply holds_v12|]. split; [exact Hf|].
  destruct (construct_destroy_restores (m12 None) 3 v12 [1; 2] [None] eq_refl
              (holds_v12 None) Hf)
    as [[_ H1] [_ H2]].
  split; [exact H1|exact H2].
Defined.

Lemma copy_assign_yields_witness :
  Winv (two_vectors None) ∧ 1 ≠ 2 ∧
  objs (two_vectors None) !! 1 = Some (MkVector (MkRaw 5 2) 2) ∧
  objs (two_vectors None) !! 2 = Some (MkVector (MkRaw 6 4) 3) ∧
  (@Vector_copy_assign Str 1 2 (two_vectors None)).1 = Ok () ∧
  ∃ a', objs (@Vector_copy_assign Str 1 2 (two_vectors None)).2 !! 1 = Some a' ∧
        elements a' (wmem (@Vector_copy_assign Str 1 2 (two_vectors None)).2)
          = [Some 1; Some 2; Some 3] ∧
        size_ a' = 3 ∧ capacity_ (data_ a') = 3 ∧
        elements (MkVector (MkRaw 6 4) 3)
                 (wmem (@Vector_copy_assign Str 1 2 (two_vectors None)).2)
          = [Some 1; Some 2; Some 3].
Proof.
  split; [apply Winv_two_vectors|]. split; [lia|].
  split; [reflexivity|]. split; [reflexivity|]. split; [vm_compute; reflexivity|].
  destruct (copy_assign_yields (ProbeQuiet true true true true) (two_vectors None) 1 2
              (MkVector (MkRaw 5 2) 2) (MkVector (MkRaw 6 4) 3)
              (Winv_two_vectors None) ltac:(lia) eq_refl eq_refl) as (_ & _ & H).
  destruct H as (a' & Ha' & He & Hs & Hc & _ & Ho); [vm_compute; reflexivity|].
  exists a'. split; [exact Ha'|]. split; [exact He|]. split; [exact Hs|].
  split; [exact Hc|exact Ho].
Defined.

Lemma Swap_exchanges_witness :
  objs (two_vectors None) !! 1 = Some (MkVector (MkRaw 5 2) 2) ∧
  objs (two_vectors None) !! 2 = Some (MkVector (MkRaw 6 4) 3) ∧
  ∃ w', @Vector_Swap_at Str 1 2 (two_vectors None) = (Ok (), w') ∧
        wmem w' = wmem (two_vectors None) ∧
        objs w' !! 1 = Some (MkVector (MkRaw 6 4) 3) ∧
        objs w' !! 2 = Some (MkVector (MkRaw 5 2) 2) ∧
        @Vector_Swap_at Str 1 2 w' = (Ok (), two_vectors None).
Proof.
  split; [reflexivity|]. split; [reflexivity|].
  destruct (Swap_exchanges (two_vectors None) 1 2 _ _ eq_refl eq_refl)
    as (w' & Hrun & Hm & H1 & H2 & _ & Hback).
  exists w'. auto.
Defined.

Lemma calls_leave_others_alone_witness :
  Winv (two_vectors None) ∧
  valid (CallPushBack 1 (@ByArgs Str 9)) (two_vectors None) ∧
  forwards_rvalue (CallPushBack 1 (@ByArgs Str 9)) = false ∧
  (2 ∉ writes (CallPushBack 1 (@ByArgs Str 9))) ∧
  objs (two_vectors None) !! 2 = Some (MkVector (MkRaw 6 4) 3) ∧
  objs (@run Str (CallPushBack 1 (@ByArgs Str 9)) (two_vectors None)).2 !! 2
    = Some (MkVector (MkRaw 6 4) 3) ∧
  elements (MkVector (MkRaw 6 4) 3)
           (wmem (@run Str (CallPushBack 1 (@ByArgs Str 9)) (two_vectors None)).2)
    = [Some 1; Some 2; Some 3].
Proof.
  assert (Hv : valid (CallPushBack 1 (@ByArgs Str 9)) (two_vectors None))
    by (split; eexists; reflexivity).
  assert (Hl : 2 ∉ writes (CallPushBack 1 (@ByArgs Str 9))).
  { simpl. rewrite not_elem_of_cons. split; [lia|apply not_elem_of_nil]. }
  split; [apply Winv_two_vectors|]. split; [exact Hv|]. split; [reflexivity|].
  split; [exact Hl|]. split; [reflexivity|].
  exact (calls_leave_others_alone (two_vectors None) (CallPushBack 1 (@ByArgs Str 9))
           _ _ 2 _ (Winv_two_vectors None) Hv eq_refl (surjective_pairing _) Hl eq_refl).
Defined.

Lemma noexcept_calls_return_witness :
  Winv (two_vectors None) ∧ valid (@CallPopBack Str 1) (two_vectors None) ∧
  is_noexcept (@CallPopBack Str 1) = true ∧
  (@run Str (CallPopBack 1) (two_vectors None)).1 = Ok ().
Proof.
  assert (Hv : valid (@CallPopBack Str 1) (two_vectors None)).
  { eexists. split; [reflexivity|]. simpl. lia. }
  split; [apply Winv_two_vectors|]. split; [exact Hv|]. split; [reflexivity|].
  exact (noexcept_calls_return (two_vectors None) (CallPopBack 1)
           (Winv_two_vectors None) Hv eq_refl).
Defined.

Lemma Insert_then_Erase_witness :
  wf_mem (m12 None) ∧ holds v12 (m12 None) [1; 2] [None] ∧ 1 ≤ length [1; 2] ∧
  @arg_value Str (ByLvalue (Ptr 1 1)) (m12 None) = Some 2 ∧
  ((r ← @Insert Str (Ptr 1 1) (ByLvalue (Ptr 1 1)); Erase r) (v12, m12 None)).1
    = Ok (Ptr 1 1) ∧
  elements ((r ← @Insert Str (Ptr 1 1) (ByLvalue (Ptr 1 1)); Erase r) (v12, m12 None)).2.1
           ((r ← @Insert Str (Ptr 1 1) (ByLvalue (Ptr 1 1)); Erase r) (v12, m12 None)).2.2
    = [Some 1; Some 2].
Proof.
  split; [reflexivity|]. split; [apply holds_v12|]. split; [simpl; lia|].
  split; [reflexivity|]. split; [vm_compute; reflexivity|].
  destruct (Insert_then_Erase (ProbeQuiet true true true true) v12 (m12 None) [1; 2] [None]
              1 (@ByLvalue Str (Ptr 1 1)) 2 eq_refl (holds_v12 None)
              ltac:(simpl; lia) eq_refl) as (_ & _ & H).
  destruct (H (Ptr 1 1)) as (He & _); [vm_compute; reflexivity|]. exact He.
Defined.

Lemma PushBack_then_PopBack_witness :
  wf_mem (m12 None) ∧ holds v12 (m12 None) [1; 2] [None] ∧
  @arg_value Str (@ByArgs Str 7) (m12 None) = Some 7 ∧
  ((@PushBack Str (@ByArgs Str 7) ;; PopBack) (v12, m12 None)).1 = Ok () ∧
  elements ((@PushBack Str (@ByArgs Str 7) ;; PopBack) (v12, m12 None)).2.1
           ((@PushBack Str (@ByArgs Str 7) ;; PopBack) (v12, m12 None)).2.2
    = [Some 1; Some 2] ∧
  size_ ((@PushBack Str (@ByArgs Str 7) ;; PopBack) (v12, m12 None)).2.1 = 2.
Proof.
  split; [reflexivity|]. split; [apply holds_v12|]. split; [reflexivity|].
  split; [vm_compute; reflexivity|].
  destruct (PushBack_then_PopBack (ProbeQuiet true true true true) v12 (m12 None) [1; 2] [None]
              (@ByArgs Str 7) 7 eq_refl (holds_v12 None) eq_refl) as (_ & _ & H).
  destruct H as (He & Hs & _); [vm_compute; reflexivity|].
  split; [exact He|exact Hs].
Defined.

Lemma push_back_all_yields_witness :
  wf_mem no_blocks ∧
  (@push_back_all Str [1; 2; 3; 4; 5] (Vector_default, no_blocks)).1 = Ok () ∧
  elements (@push_back_all Str [1; 2; 3; 4; 5] (Vector_default, no_blocks)).2.1
           (@push_back_all Str [1; 2; 3; 4; 5] (Vector_default, no_blocks)).2.2
    = [Some 1; Some 2; Some 3; Some 4; Some 5] ∧
  size_ (@push_back_all Str [1; 2; 3; 4; 5] (Vector_default, no_blocks)).2.1 = 5 ∧
  capacity_ (data_ (@push_back_all Str [1; 2; 3; 4; 5] (Vector_default, no_blocks)).2.1) = 8 ∧
  doubled_capacity 5 8.
Proof.
  split; [reflexivity|]. split; [vm_compute; reflexivity|].
  destruct (push_back_all_yields (ProbeQuiet true true true true) no_blocks [1; 2; 3; 4; 5]
              eq_refl) as (_ & _ & H).
  destruct H as (He & Hs & Hd); [vm_compute; reflexivity|].
  split; [exact He|]. split; [exact Hs|]. split; [vm_compute; reflexivity|].
  exact Hd.
Defined.

Lemma Insert_at_end_yields_witness :
  wf_mem (m12 None) ∧ holds v12 (m12 None) [1; 2] [None] ∧
  @arg_value Str (@ByArgs Str 7) (m12 None) = Some 7 ∧
  @is_rvalue Str (@ByArgs Str 7) = false ∧
  (@Insert Str (Ptr 1 2) (@ByArgs Str 7) (v12, m12 None)).1 = Ok (Ptr 1 2) ∧
  elements (@Insert Str (Ptr 1 2) (@ByArgs Str 7) (v12, m12 None)).2.1
           (@Insert Str (Ptr 1 2) (@ByArgs Str 7) (v12, m12 None)).2.2
    = [Some 1; Some 2; Some 7] ∧
  size_ (@Insert Str (Ptr 1 2) (@ByArgs Str 7) (v12, m12 None)).2.1 = 3.
Proof.
  split; [reflexivity|]. split; [apply holds_v12|]. split; [reflexivity|].
  split; [reflexivity|]. split; [vm_compute; reflexivity|].
  destruct (Insert_at_end_yields (ProbeQuiet true true true true) v12 (m12 None) [1; 2] [None]
              (@ByArgs Str 7) 7 eq_refl (holds_v12 None) eq_refl eq_refl)
    as (_ & _ & H).
  destruct (H (Ptr 1 2)) as (He & Hs & _); [vm_compute; reflexivity|].
  split; [exact He|exact Hs].
Defined.

Lemma RawMemory_new_yields_witness :
  @count_fits Str 3 ∧
  (@RawMemory_new Str 3 (m12 None)).1 ≠ UB ∧
  (@RawMemory_new Str 3 (m12 None)).1 ≠ Throw.
Proof.
  assert (Hf : @count_fits Str 3) by (unfold count_fits; simpl; lia).
  split; [exact Hf|].
  destruct (RawMemory_new_yields (ProbeQuiet true true true true) (m12 None) 3 Hf)
    as (H1 & H2 & _).
  split; [exact H1|]. apply H2. reflexivity.
Defined.

Lemma Erase_noexcept_when_moving_witness :
  @is_nothrow_move_assignable Str = true ∧ @relocate_by_move Str = true ∧
  wf_mem (m12 (Some 0)) ∧ holds v12 (m12 (Some 0)) [1; 2] [None] ∧ 0 < length [1; 2] ∧
  ∃ s', @Erase Str (Ptr 1 0) (v12, m12 (Some 0)) = (Ok (Ptr 1 0), s') ∧
        elements s'.1 s'.2 = [Some 2].
Proof.
  split; [reflexivity|]. split; [reflexivity|]. split; [reflexivity|].
  split; [apply holds_v12|]. split; [simpl; lia|].
  exact (Erase_noexcept_when_moving v12 (m12 (Some 0)) [1; 2] [None] 0
           eq_refl eq_refl eq_refl (holds_v12 (Some 0)) ltac:(simpl; lia)).
Defined.
